(** * Cloudflare WAF MCP server: gateway client, sanitizer and tool handlers

    Shallow embedding of [src/cloudflare-api.ts], [src/validation.ts], the
    tool handlers of [src/tools/*.ts] and the token selection of
    [src/index.ts], with the properties the specification states about them
    and further properties of the code. *)

From Stdlib Require Import String Ascii NArith ZArith Bool Arith Lia List SpecFloat.
Import ListNotations.

Open Scope nat_scope.
Open Scope list_scope.

Set Implicit Arguments.
Set Warnings "-register-all".

(* ================================================================== *)
(** * JavaScript strings *)
(* ================================================================== *)

(** A JavaScript string is a sequence of UTF-16 code units; [length],
    [substring], [includes] and the regular-expression engine all work on
    code units. *)
Definition codeunit := N.
Definition jsstring := list codeunit.

(** String literals of the source. *)
Definition js (s : string) : jsstring :=
  map N_of_ascii (list_ascii_of_string s).

Definition cu_eqb (a b : codeunit) : bool := N.eqb a b.

Fixpoint js_eqb (a b : jsstring) : bool :=
  match a, b with
  | [], [] => true
  | x :: a', y :: b' => cu_eqb x y && js_eqb a' b'
  | _, _ => false
  end.

Fixpoint starts_with (needle hay : jsstring) : bool :=
  match needle, hay with
  | [], _ => true
  | x :: n', y :: h' => cu_eqb x y && starts_with n' h'
  | _ :: _, [] => false
  end.

(** [String.prototype.includes]. *)
Fixpoint includes (hay needle : jsstring) : bool :=
  starts_with needle hay ||
  match hay with
  | [] => false
  | _ :: h' => includes h' needle
  end.

(** [s.substring(0, n)] for [0 <= n]. *)
Definition substring0 (n : nat) (s : jsstring) : jsstring := firstn n s.

(** [Array.prototype.join]. *)
Fixpoint join (sep : jsstring) (parts : list jsstring) : jsstring :=
  match parts with
  | [] => []
  | [p] => p
  | p :: rest => p ++ sep ++ join sep rest
  end.

(* ================================================================== *)
(** * Character classes of the regular expressions *)
(* ================================================================== *)

Definition in_range (lo hi c : codeunit) : bool := N.leb lo c && N.leb c hi.

Definition is_digit (c : codeunit) : bool := in_range 48%N 57%N c.
Definition is_lower (c : codeunit) : bool := in_range 97%N 122%N c.
Definition is_upper (c : codeunit) : bool := in_range 65%N 90%N c.
Definition is_alpha (c : codeunit) : bool := is_lower c || is_upper c.
Definition is_alnum (c : codeunit) : bool := is_alpha c || is_digit c.

(** [\w] without the unicode flag. *)
Definition is_word (c : codeunit) : bool := is_alnum c || cu_eqb c 95%N.

(** The two halves of a surrogate pair. *)
Definition is_high_surrogate (c : codeunit) : bool := in_range 55296%N 56319%N c.
Definition is_low_surrogate (c : codeunit) : bool := in_range 56320%N 57343%N c.

(** [\s]: WhiteSpace and LineTerminator code points. *)
Definition is_space (c : codeunit) : bool :=
  in_range 9%N 13%N c || cu_eqb c 32%N || cu_eqb c 160%N || cu_eqb c 5760%N ||
  in_range 8192%N 8202%N c || cu_eqb c 8232%N || cu_eqb c 8233%N || cu_eqb c 8239%N ||
  cu_eqb c 8287%N || cu_eqb c 12288%N || cu_eqb c 65279%N.

(** Canonicalize of the [i] flag without [u]: only ASCII letters fold onto
    ASCII letters. *)
Definition canon (c : codeunit) : codeunit :=
  if is_lower c then (c - 32)%N else c.

(** A literal character, case sensitive or under the [i] flag. *)
Definition lit (a : ascii) (c : codeunit) : bool := cu_eqb c (N_of_ascii a).
Definition lit_i (a : ascii) (c : codeunit) : bool :=
  cu_eqb (canon c) (canon (N_of_ascii a)).

(** [[a-zA-Z0-9_-]] (the [i] flag adds nothing to it). *)
Definition is_token (c : codeunit) : bool :=
  is_alnum c || cu_eqb c 95%N || cu_eqb c 45%N.

(** [[a-f0-9]] and the same class under the [i] flag. *)
Definition is_hex_lower (c : codeunit) : bool := in_range 97%N 102%N c || is_digit c.
Definition is_hex_i (c : codeunit) : bool :=
  in_range 97%N 102%N c || in_range 65%N 70%N c || is_digit c.

(** [[a-zA-Z0-9._%+-]] and [[a-zA-Z0-9.-]]. *)
Definition is_local (c : codeunit) : bool :=
  is_alnum c || cu_eqb c 46%N || cu_eqb c 95%N || cu_eqb c 37%N || cu_eqb c 43%N ||
  cu_eqb c 45%N.
Definition is_domain (c : codeunit) : bool :=
  is_alnum c || cu_eqb c 46%N || cu_eqb c 45%N.

(* ================================================================== *)
(** * A backtracking matcher for the regular expressions of the source *)
(* ================================================================== *)

(** Every pattern of the source is a sequence of greedily quantified character
    classes and assertions: [Cls p lo hi] is a class (or a literal) [p]
    repeated between [lo] and [hi] times, as many as possible ([x] is
    [{1,1}], [x+] is [{1,}]); the others are [\b], [^] and [$] (without the
    [m] flag: the start and the end of the input). *)
Inductive item : Type :=
| Cls (p : codeunit -> bool) (lo : nat) (hi : option nat)
| WordBoundary
| Bol
| Eol.

Definition regex := list item.

Definition one (p : codeunit -> bool) : item := Cls p 1 (Some 1).
Definition plus (p : codeunit -> bool) : item := Cls p 1 None.

Definition capped (k : nat) (hi : option nat) : bool :=
  match hi with
  | None => true
  | Some h => k <=? h
  end.

(** Length of the longest prefix of [s] in class [p], at most [hi] long. *)
Fixpoint run (p : codeunit -> bool) (hi : option nat) (s : jsstring) : nat :=
  match s, hi with
  | c :: s', None => if p c then S (run p None s') else 0
  | c :: s', Some (S h) => if p c then S (run p (Some h) s') else 0
  | _, _ => 0
  end.

(** Greedy repetition: try the longest count first and give characters back
    one at a time while the rest of the pattern fails. *)
Fixpoint try_down (f : nat -> option nat) (lo k : nat) : option nat :=
  match (if lo <=? k then f k else None) with
  | Some m => Some (k + m)
  | None =>
      match k with
      | O => None
      | S k' => try_down f lo k'
      end
  end.

(** The code unit before the position reached after [k] more code units. *)
Definition prev_after (k : nat) (prev : option codeunit) (s : jsstring)
  : option codeunit :=
  match k with
  | O => prev
  | S k' => nth_error s k'
  end.

Definition is_word_opt (c : option codeunit) : bool :=
  match c with
  | Some x => is_word x
  | None => false
  end.

Definition at_boundary (prev : option codeunit) (s : jsstring) : bool :=
  xorb (is_word_opt prev) (is_word_opt (hd_error s)).

(** [match_items re prev s]: the length of the match of [re] that starts at
    the head of [s], where [prev] is the code unit just before it ([None] at
    the start of the input). *)
Fixpoint match_items (re : regex) (prev : option codeunit) (s : jsstring)
  : option nat :=
  match re with
  | [] => Some 0
  | Cls p lo hi :: rest =>
      try_down (fun k => match_items rest (prev_after k prev s) (skipn k s))
               lo (run p hi s)
  | WordBoundary :: rest =>
      if at_boundary prev s then match_items rest prev s else None
  | Bol :: rest =>
      match prev with
      | None => match_items rest prev s
      | Some _ => None
      end
  | Eol :: rest =>
      match s with
      | [] => match_items rest prev s
      | _ :: _ => None
      end
  end.

(** [String.prototype.replace] with a global pattern and a literal
    replacement: scan left to right, replace each match, resume after it
    (one code unit further after an empty match). [skip] counts the code
    units of the current match still to be dropped. *)
Fixpoint replace_go (re : regex) (marker : jsstring) (skip : nat)
         (prev : option codeunit) (s : jsstring) : jsstring :=
  match s with
  | [] =>
      match skip, match_items re prev [] with
      | O, Some _ => marker
      | _, _ => []
      end
  | c :: s' =>
      match skip with
      | S k => replace_go re marker k (Some c) s'
      | O =>
          match match_items re prev s with
          | Some (S n) => marker ++ replace_go re marker n (Some c) s'
          | Some O => marker ++ c :: replace_go re marker 0 (Some c) s'
          | None => c :: replace_go re marker 0 (Some c) s'
          end
      end
  end.

Definition replaceAll (re : regex) (marker : jsstring) (s : jsstring)
  : jsstring :=
  replace_go re marker 0 None s.

(** [RegExp.prototype.test] for a pattern without the global flag: is there
    a match starting at some position. *)
Fixpoint test_from (re : regex) (prev : option codeunit) (s : jsstring)
  : bool :=
  match match_items re prev s with
  | Some _ => true
  | None =>
      match s with
      | [] => false
      | c :: s' => test_from re (Some c) s'
      end
  end.

Definition regex_test (re : regex) (s : jsstring) : bool := test_from re None s.

(* ================================================================== *)
(** * cloudflare-api.ts: sanitizeErrorMessage *)
(* ================================================================== *)

(** [/Bearer\s+[a-zA-Z0-9_-]+/gi] *)
Definition re_bearer : regex :=
  [ one (lit_i "B"); one (lit_i "e"); one (lit_i "a"); one (lit_i "r");
    one (lit_i "e"); one (lit_i "r"); plus is_space; plus is_token ].

(** [/[a-f0-9]{32,}/gi] *)
Definition re_hex : regex := [ Cls is_hex_i 32 None ].

(** [/[a-zA-Z0-9._%+-]+@[a-zA-Z0-9.-]+\.[a-zA-Z]{2,}/g] *)
Definition re_email : regex :=
  [ plus is_local; one (lit "@"); plus is_domain; one (lit ".");
    Cls is_alpha 2 None ].

(** [/\b\d{1,3}\.\d{1,3}\.\d{1,3}\.\d{1,3}\b/g] *)
Definition re_ip : regex :=
  [ WordBoundary;
    Cls is_digit 1 (Some 3); one (lit ".");
    Cls is_digit 1 (Some 3); one (lit ".");
    Cls is_digit 1 (Some 3); one (lit ".");
    Cls is_digit 1 (Some 3);
    WordBoundary ].

Definition mk_bearer : jsstring := js "Bearer [REDACTED]".
Definition mk_id : jsstring := js "[REDACTED_ID]".
Definition mk_email : jsstring := js "[REDACTED_EMAIL]".
Definition mk_ip : jsstring := js "[REDACTED_IP]".

(** The four chained [.replace] calls. *)
Definition redact (message : jsstring) : jsstring :=
  replaceAll re_ip mk_ip
    (replaceAll re_email mk_email
       (replaceAll re_hex mk_id
          (replaceAll re_bearer mk_bearer message))).

Definition sanitizeErrorMessage (message : jsstring) : jsstring :=
  let sanitized := redact message in
  if 200 <? length sanitized
  then substring0 200 sanitized ++ js "..."
  else sanitized.

(* ================================================================== *)
(** * JavaScript numbers *)
(* ================================================================== *)

(** A Number is an IEEE 754 binary64 value: a [spec_float] of the Standard
    Library in canonical form, for 53 bits of precision and exponents below
    1024. Its arithmetic is the library's specification of the format:
    round to nearest, ties to even. *)
Definition Number : Type := spec_float.

(** The Number nearest to [m * 2^e]; it is that value when [m] has at most
    53 bits. *)
Definition Number_of_dyadic (m e : Z) : Number := binary_normalize 53 1024 m e false.

(** An integer literal. *)
Definition Number_of_Z (z : Z) : Number := Number_of_dyadic z 0.

(** [x * y] and [x - y] *)
Definition Number_multiply (x y : Number) : Number := SFmul 53 1024 x y.
Definition Number_subtract (x y : Number) : Number := SFsub 53 1024 x y.

(* ================================================================== *)
(** * validation.ts: identifier schemas *)
(* ================================================================== *)

(** [/^[a-f0-9]{32}$/] *)
Definition CLOUDFLARE_ID_REGEX : regex :=
  [ Bol; Cls is_hex_lower 32 (Some 32); Eol ].

(** [z.string().regex(CLOUDFLARE_ID_REGEX, ...)]: the parse succeeds exactly
    when [CLOUDFLARE_ID_REGEX.test(input)] does. *)
Definition cloudflareIdSchema (input : jsstring) : bool :=
  regex_test CLOUDFLARE_ID_REGEX input.

(** The four named schemas only add a description. *)
Definition zoneIdSchema := cloudflareIdSchema.
Definition accountIdSchema := cloudflareIdSchema.
Definition rulesetIdSchema := cloudflareIdSchema.
Definition ruleIdSchema := cloudflareIdSchema.

(** [z.number().min(1).max(1440)]: NaN is no number for zod, and the two
    bounds are inclusive. *)
Definition minutesSchema (minutes : Number) : bool :=
  SFleb (Number_of_Z 1) minutes && SFleb minutes (Number_of_Z 1440).

(* ================================================================== *)
(** * cloudflare-api.ts: data model *)
(* ================================================================== *)

(** The interfaces of the source, field by field. A field of a second record
    that repeats a name carries a prefix ([rs_id] for [Ruleset.id]). Left
    out: [result_info] of the envelope and [action_parameters] of a rule,
    which no modelled method reads. *)
Record CloudflareApiError : Type := {
  code : Z;
  message : jsstring
}.

Record CloudflareApiResponse (T : Type) : Type := {
  success : bool;
  errors : list CloudflareApiError;
  messages : list jsstring;
  result : T
}.

Record RulesetRule : Type := {
  id : jsstring;
  version : jsstring;
  action : jsstring;
  expression : jsstring;
  description : jsstring;
  enabled : bool;
  logging : option bool;
  last_updated : jsstring;
  ref : option jsstring
}.

Record Ruleset : Type := {
  rs_id : jsstring;
  rs_name : jsstring;
  rs_description : jsstring;
  rs_kind : jsstring;
  rs_version : jsstring;
  rs_phase : jsstring;
  rules : list RulesetRule;
  rs_last_updated : jsstring
}.

(** The [rule] argument of [createCustomRule]. *)
Record RuleSpec : Type := {
  spec_description : jsstring;
  spec_expression : jsstring;
  spec_action : jsstring;
  spec_enabled : bool
}.

(** The [updates] argument of [updateCustomRule]: every field optional. *)
Record RuleUpdates : Type := {
  upd_description : option jsstring;
  upd_expression : option jsstring;
  upd_action : option jsstring;
  upd_enabled : option bool
}.

(** Rows of [firewallEventsAdaptiveGroups]. *)
Record ActionGroup : Type := { ag_count : Z; ag_action : jsstring }.
Record SourceGroup : Type := { sg_count : Z; sg_source : jsstring }.
Record CountryGroup : Type := { cg_count : Z; cg_clientCountryName : jsstring }.

Record SummaryZone : Type := {
  byAction : list ActionGroup;
  bySource : list SourceGroup;
  byCountry : list CountryGroup
}.

(** [{ viewer: { zones: [...] } }] *)
Record SummaryData : Type := { viewer_zones : list SummaryZone }.

(** [{ data: T; errors?: Array<{ message }> }] *)
Record GraphqlBody (T : Type) : Type := {
  gql_data : T;
  gql_errors : option (list jsstring)
}.

(** The value [getSecurityEventsSummary] resolves to. *)
Record Summary : Type := {
  sum_byAction : list (jsstring * Z);
  sum_bySource : list (jsstring * Z);
  sum_byCountry : list (jsstring * Z)
}.

(* ================================================================== *)
(** * Requests, failures and the effect monad *)
(* ================================================================== *)

(** An [async] method is a function of the state of the network: it returns
    a value or throws, and leaves the network in a new state. *)
Inductive Method : Type := GET | POST | PATCH | DELETE.

(** The request paths of the modelled methods. The URL is [CF_API_BASE]
    followed by the path, each segment passed through [encodeURIComponent];
    a request keeps the segments. *)
Inductive Endpoint : Type :=
| EpEntrypoint (zoneId phase : jsstring)
| EpRulesets (zoneId : jsstring)
| EpRules (zoneId rulesetId : jsstring)
| EpRule (zoneId rulesetId ruleId : jsstring).

(** The argument of [JSON.stringify] that becomes the request body. *)
Inductive Body : Type :=
| NoBody
| BodyNewRuleset (name kind phase : jsstring) (rules0 : list RuleSpec)
| BodyRule (rule : RuleSpec)
| BodyUpdates (updates : RuleUpdates).

Record RestRequest : Type := {
  req_authorization : jsstring;
  req_method : Method;
  req_endpoint : Endpoint;
  req_body : Body
}.

Inductive GraphqlQuery : Type :=
| GetSecurityEvents | GetSecuritySummary | GetTopAttackedPaths.

Record GraphqlRequest : Type := {
  gq_authorization : jsstring;
  gq_query : GraphqlQuery;
  gq_zoneTag : jsstring;
  gq_start : jsstring;
  gq_end : jsstring
}.

(** A thrown [Error]; the only thing the program reads from it is
    [error.message]. *)
Record JsError : Type := { error_message : jsstring }.

Inductive Result (A : Type) : Type :=
| Ok (a : A)
| Throw (e : JsError).
Arguments Ok {A} a.
Arguments Throw {A} e.

Inductive Call : Type :=
| RestCall (r : RestRequest)
| GraphqlCall (g : GraphqlRequest).

(** The network: the provider's state and the calls made so far, in order. *)
Record Net (World : Type) : Type := {
  world : World;
  calls : list Call
}.

Definition M (World A : Type) : Type := Net World -> Result A * Net World.

Definition ret {World A : Type} (a : A) : M World A := fun st => (Ok a, st).

Definition throw {World A : Type} (e : JsError) : M World A :=
  fun st => (Throw e, st).

Definition bind {World A B : Type} (m : M World A) (k : A -> M World B)
  : M World B :=
  fun st =>
    match m st with
    | (Ok a, st') => k a st'
    | (Throw e, st') => (Throw e, st')
    end.

(** [try { m } catch (error) { h error }] *)
Definition try_catch {World A : Type} (m : M World A)
           (h : JsError -> M World A) : M World A :=
  fun st =>
    match m st with
    | (Ok a, st') => (Ok a, st')
    | (Throw e, st') => h e st'
    end.

Notation "x <- m ;; k" := (bind m (fun x => k))
  (at level 61, m at next level, right associativity).

(** [arr[i]] on an array: [undefined] outside [0 .. length-1]. *)
Definition js_index {A : Type} (arr : list A) (i : Z) : option A :=
  if (i <? 0)%Z then None else nth_error arr (Z.to_nat i).

Definition custom_phase : jsstring := js "http_request_firewall_custom".

(** [error.message?.includes("404") || error.message?.includes("not found")] *)
Definition signals_absent (error : JsError) : bool :=
  includes (error_message error) (js "404") ||
  includes (error_message error) (js "not found").

(* ================================================================== *)
(** * cloudflare-api.ts: request URLs *)
(* ================================================================== *)

(** [encodeURIComponent] leaves these alone: letters, digits and
    [- _ . ! ~ * ' ( )]. *)
Definition is_unreserved (c : codeunit) : bool :=
  is_alnum c || existsb (cu_eqb c) (js "-_.!~*'()").

(** The exception of [encodeURIComponent] on a lone surrogate (the text is
    the one V8 gives it). *)
Definition URIError : JsError := {| error_message := js "URI malformed" |}.

Definition hex_digit_upper (d : N) : codeunit :=
  if (d <? 10)%N then (48 + d)%N else (55 + d)%N.

(** ["%XX"] for one octet. *)
Definition percent (octet : N) : jsstring :=
  [ 37%N; hex_digit_upper (octet / 16)%N; hex_digit_upper (octet mod 16)%N ].

(** The UTF-8 octets of a code point. *)
Definition utf8 (cp : N) : list N :=
  if (cp <? 128)%N then [ cp ]
  else if (cp <? 2048)%N then
    [ (192 + cp / 64)%N; (128 + cp mod 64)%N ]
  else if (cp <? 65536)%N then
    [ (224 + cp / 4096)%N; (128 + (cp / 64) mod 64)%N; (128 + cp mod 64)%N ]
  else
    [ (240 + cp / 262144)%N; (128 + (cp / 4096) mod 64)%N;
      (128 + (cp / 64) mod 64)%N; (128 + cp mod 64)%N ].

(** UTF16SurrogatePairToCodePoint *)
Definition surrogate_pair (lead trail : codeunit) : N :=
  ((lead - 55296) * 1024 + (trail - 56320) + 65536)%N.

Definition escaped (cp : N) (rest : Result jsstring) : Result jsstring :=
  match rest with
  | Ok r => Ok (concat (map percent (utf8 cp)) ++ r)
  | Throw e => Throw e
  end.

(** [encodeURIComponent(s)]: the abstract operation Encode, one code point
    at a time. *)
Fixpoint encodeURIComponent (s : jsstring) : Result jsstring :=
  match s with
  | [] => Ok []
  | c :: s' =>
      if is_unreserved c then
        match encodeURIComponent s' with
        | Ok r => Ok (c :: r)
        | Throw e => Throw e
        end
      else if is_low_surrogate c then Throw URIError
      else if is_high_surrogate c then
        match s' with
        | d :: s'' =>
            if is_low_surrogate d
            then escaped (surrogate_pair c d) (encodeURIComponent s'')
            else Throw URIError
        | [] => Throw URIError
        end
      else escaped c (encodeURIComponent s')
  end.

Definition CF_API_BASE : jsstring := js "https://api.cloudflare.com/client/v4".

(** A template literal: the pieces in order, the first exception wins. *)
Fixpoint template (pieces : list (Result jsstring)) : Result jsstring :=
  match pieces with
  | [] => Ok []
  | Ok p :: rest =>
      match template rest with
      | Ok r => Ok (p ++ r)
      | Throw e => Throw e
      end
  | Throw e :: _ => Throw e
  end.

(** The [endpoint] argument of [request], as the methods write it. *)
Definition endpoint_path (e : Endpoint) : Result jsstring :=
  match e with
  | EpEntrypoint zoneId phase =>
      template [ Ok (js "/zones/"); encodeURIComponent zoneId;
                 Ok (js "/rulesets/phases/"); encodeURIComponent phase;
                 Ok (js "/entrypoint") ]
  | EpRulesets zoneId =>
      template [ Ok (js "/zones/"); encodeURIComponent zoneId; Ok (js "/rulesets") ]
  | EpRules zoneId rulesetId =>
      template [ Ok (js "/zones/"); encodeURIComponent zoneId;
                 Ok (js "/rulesets/"); encodeURIComponent rulesetId;
                 Ok (js "/rules") ]
  | EpRule zoneId rulesetId ruleId =>
      template [ Ok (js "/zones/"); encodeURIComponent zoneId;
                 Ok (js "/rulesets/"); encodeURIComponent rulesetId;
                 Ok (js "/rules/"); encodeURIComponent ruleId ]
  end.

(** [`${CF_API_BASE}${endpoint}`] *)
Definition request_url (e : Endpoint) : Result jsstring :=
  template [ Ok CF_API_BASE; endpoint_path e ].

(** [encodeURIComponent(s)] returns: [s] holds no unpaired surrogate. *)
Definition encodable (s : jsstring) : bool :=
  match encodeURIComponent s with
  | Ok _ => true
  | Throw _ => false
  end.

(** The [endpoint] argument of [request] is a template literal, evaluated
    before the call: an identifier that cannot be encoded raises the
    URIError there, and nothing is sent. The model keeps the segments of a
    path that was built. *)
Definition path {World : Type} (endpoint : Endpoint) : M World Endpoint :=
  match endpoint_path endpoint with
  | Ok _ => ret endpoint
  | Throw e => throw e
  end.

(* ================================================================== *)
(** * cloudflare-api.ts: class CloudflareApi *)
(* ================================================================== *)

Section CloudflareApi.

Variable World : Type.

(** [await fetch(url, ...)] followed by [await response.json()]: the parsed
    body, or the exception either of them raised. The body is typed as the
    source casts it ([as CloudflareApiResponse<T>]); the modelled methods all
    use [request<Ruleset>], and the summary's shape for GraphQL. *)
Variable rest_fetch :
  RestRequest -> World -> Result (CloudflareApiResponse Ruleset) * World.
Variable graphql_fetch :
  GraphqlRequest -> World -> Result (GraphqlBody SummaryData) * World.

(** [this.accessToken] *)
Variable accessToken : jsstring.

Definition fetch_rest (r : RestRequest)
  : M World (CloudflareApiResponse Ruleset) :=
  fun st =>
    let (out, w) := rest_fetch r (world st) in
    (out, {| world := w; calls := calls st ++ [RestCall r] |}).

Definition fetch_graphql (g : GraphqlRequest)
  : M World (GraphqlBody SummaryData) :=
  fun st =>
    let (out, w) := graphql_fetch g (world st) in
    (out, {| world := w; calls := calls st ++ [GraphqlCall g] |}).

(** The arguments of [fetch] in [request]. *)
Definition rest_call (endpoint : Endpoint) (method : Method) (body : Body)
  : RestRequest :=
  {| req_authorization := js "Bearer " ++ accessToken;
     req_method := method;
     req_endpoint := endpoint;
     req_body := body |}.

Definition request (endpoint : Endpoint) (method : Method) (body : Body)
  : M World (CloudflareApiResponse Ruleset) :=
  data <- fetch_rest (rest_call endpoint method body) ;;
  if negb (success data) then
    let errorMessage := join (js ", ") (map message (errors data)) in
    throw {| error_message :=
               js "Cloudflare API error: " ++ sanitizeErrorMessage errorMessage |}
  else ret data.

(** The arguments of [fetch] in [graphqlRequest]. *)
Definition graphql_call (query : GraphqlQuery)
           (zoneTag startTime0 endTime0 : jsstring) : GraphqlRequest :=
  {| gq_authorization := js "Bearer " ++ accessToken;
     gq_query := query;
     gq_zoneTag := zoneTag;
     gq_start := startTime0;
     gq_end := endTime0 |}.

Definition graphqlRequest (query : GraphqlQuery)
           (zoneTag startTime0 endTime0 : jsstring) : M World SummaryData :=
  data <- fetch_graphql (graphql_call query zoneTag startTime0 endTime0) ;;
  match gql_errors data with
  | Some (e :: es) =>
      let errorMessage := join (js ", ") (e :: es) in
      throw {| error_message :=
                 js "GraphQL error: " ++ sanitizeErrorMessage errorMessage |}
  | _ => ret (gql_data data)
  end.

Definition getEntryPointRuleset (zoneId phase : jsstring) : M World Ruleset :=
  endpoint <- path (EpEntrypoint zoneId phase) ;;
  response <- request endpoint GET NoBody ;;
  ret (result response).

Definition getSecurityEventsSummary (zoneTag startTime0 endTime0 : jsstring)
  : M World Summary :=
  result0 <- graphqlRequest GetSecuritySummary zoneTag startTime0 endTime0 ;;
  let zone := hd_error (viewer_zones result0) in
  ret {| sum_byAction :=
           match zone with
           | Some z => map (fun item => (ag_action item, ag_count item)) (byAction z)
           | None => []
           end;
         sum_bySource :=
           match zone with
           | Some z => map (fun item => (sg_source item, sg_count item)) (bySource z)
           | None => []
           end;
         sum_byCountry :=
           match zone with
           | Some z =>
               map (fun item => (cg_clientCountryName item, cg_count item))
                   (byCountry z)
           | None => []
           end |}.

(** Resolves to [undefined] ([None]) when the returned rule array is
    empty. *)
Definition createCustomRule (zoneId : jsstring) (rule : RuleSpec)
  : M World (option RulesetRule) :=
  rulesetId <-
    try_catch
      (ruleset <- getEntryPointRuleset zoneId custom_phase ;;
       ret (rs_id ruleset))
      (fun error =>
         if signals_absent error then
           endpoint <- path (EpRulesets zoneId) ;;
           newRuleset <- request endpoint POST
                           (BodyNewRuleset (js "Custom Firewall Rules")
                                           (js "zone") custom_phase []) ;;
           ret (rs_id (result newRuleset))
         else throw error) ;;
  endpoint <- path (EpRules zoneId rulesetId) ;;
  response <- request endpoint POST (BodyRule rule) ;;
  let rs := rules (result response) in
  ret (js_index rs (Z.of_nat (length rs) - 1)).

Definition updateCustomRule (zoneId rulesetId ruleId : jsstring)
           (updates : RuleUpdates) : M World RulesetRule :=
  endpoint <- path (EpRule zoneId rulesetId ruleId) ;;
  response <- request endpoint PATCH (BodyUpdates updates) ;;
  match find (fun r => js_eqb (id r) ruleId) (rules (result response)) with
  | None => throw {| error_message := js "Updated rule not found in response" |}
  | Some updatedRule => ret updatedRule
  end.

(** [request<void>] with [{ method: "DELETE" }]: no body is sent, and of the
    envelope only [success] and [errors] are read. *)
Definition deleteCustomRule (zoneId rulesetId ruleId : jsstring) : M World unit :=
  endpoint <- path (EpRule zoneId rulesetId ruleId) ;;
  response <- request endpoint DELETE NoBody ;;
  ret tt.

End CloudflareApi.

(* ================================================================== *)
(** * JSON.stringify(value, null, 2) *)
(* ================================================================== *)

Inductive json : Type :=
| JNull
| JBool (b : bool)
| JStr (s : jsstring)
| JArr (items : list json)
| JObj (fields : list (jsstring * json)).

Definition hex_digit (d : N) : codeunit :=
  if (d <? 10)%N then (48 + d)%N else (87 + d)%N.

(** [\uXXXX] with lower-case digits. *)
Definition unicode_escape (c : codeunit) : jsstring :=
  js "\u" ++ [ hex_digit ((c / 4096) mod 16)%N; hex_digit ((c / 256) mod 16)%N;
               hex_digit ((c / 16) mod 16)%N; hex_digit (c mod 16)%N ].

(** The body of QuoteJSONString; [paired] tells that the previous code unit
    was a leading surrogate that this one completes. *)
Fixpoint quote_go (paired : bool) (s : jsstring) : jsstring :=
  match s with
  | [] => []
  | c :: s' =>
      if cu_eqb c 8%N then js "\b" ++ quote_go false s'
      else if cu_eqb c 9%N then js "\t" ++ quote_go false s'
      else if cu_eqb c 10%N then js "\n" ++ quote_go false s'
      else if cu_eqb c 12%N then js "\f" ++ quote_go false s'
      else if cu_eqb c 13%N then js "\r" ++ quote_go false s'
      else if cu_eqb c 34%N then [92%N; 34%N] ++ quote_go false s'
      else if cu_eqb c 92%N then [92%N; 92%N] ++ quote_go false s'
      else if (c <? 32)%N then unicode_escape c ++ quote_go false s'
      else if is_high_surrogate c then
        match s' with
        | d :: _ =>
            if is_low_surrogate d then c :: quote_go true s'
            else unicode_escape c ++ quote_go false s'
        | [] => unicode_escape c
        end
      else if is_low_surrogate c then
        if paired then c :: quote_go false s'
        else unicode_escape c ++ quote_go false s'
      else c :: quote_go false s'
  end.

Definition quote (s : jsstring) : jsstring := [34%N] ++ quote_go false s ++ [34%N].

Definition newline : jsstring := [10%N].

(** SerializeJSONProperty with gap of two spaces; [indent] is the current
    indentation. *)
Fixpoint serialize (indent : jsstring) (v : json) : jsstring :=
  let stepped := indent ++ js "  " in
  let separator := js "," ++ newline ++ stepped in
  match v with
  | JNull => js "null"
  | JBool true => js "true"
  | JBool false => js "false"
  | JStr s => quote s
  | JArr [] => js "[]"
  | JArr items =>
      js "[" ++ newline ++ stepped ++
      join separator (map (serialize stepped) items) ++
      newline ++ indent ++ js "]"
  | JObj [] => js "{}"
  | JObj fields =>
      js "{" ++ newline ++ stepped ++
      join separator
        (map (fun kv => quote (fst kv) ++ js ": " ++ serialize stepped (snd kv))
             fields) ++
      newline ++ indent ++ js "}"
  end.

Definition JSON_stringify2 (v : json) : jsstring := serialize [] v.

(* ================================================================== *)
(** * tools/waf-analytics.ts: getTimeRange *)
(* ================================================================== *)

(** ToIntegerOrInfinity on a finite number: truncation towards zero. *)
Definition truncate (x : Number) : Z :=
  match x with
  | S754_finite s m e => cond_Zopp s (Z.shiftl (Zpos m) e)
  | _ => 0%Z
  end.

(** [abs(x) > limit] for a finite number and an integer, in exact
    arithmetic. *)
Definition exceeds (limit : Z) (x : Number) : bool :=
  match x with
  | S754_finite _ m e =>
      if (e <? 0)%Z then (Z.shiftl limit (- e) <? Zpos m)%Z
      else (limit <? Z.shiftl (Zpos m) e)%Z
  | _ => false
  end.

(** A [Date] object holds a time value in milliseconds since the epoch, or
    NaN (here [None]) when it is invalid. *)
Definition JsDate := option Z.

(** [new Date(value)] for a number: TimeClip. *)
Definition new_Date (value : Number) : JsDate :=
  match value with
  | S754_nan | S754_infinity _ => None
  | _ => if exceeds 8640000000000000 value then None else Some (truncate value)
  end.

(** [{ startTime: string; endTime: string }]: each field is the ISO-8601 text
    [toISOString] prints for a time value; the model keeps the time value,
    which that text determines and is determined by. *)
Record TimeRange : Type := {
  startTime : Z;
  endTime : Z
}.

(** [Date.prototype.toISOString]: a RangeError on an invalid date. *)
Definition Date_toISOString (d : JsDate) : Result Z :=
  match d with
  | Some t => Ok t
  | None => Throw {| error_message := js "Invalid time value" |}
  end.

(** [now] is the time value [new Date()] reads from the clock. *)
Definition getTimeRange (now : Z) (minutes : Number) : Result TimeRange :=
  let endTime0 : JsDate := Some now in
  let startTime0 :=
    new_Date (Number_subtract (Number_of_Z now)
                (Number_multiply (Number_multiply minutes (Number_of_Z 60))
                                 (Number_of_Z 1000))) in
  match Date_toISOString startTime0 with
  | Throw e => Throw e
  | Ok s =>
      match Date_toISOString endTime0 with
      | Throw e => Throw e
      | Ok e => Ok {| startTime := s; endTime := e |}
      end
  end.

(* ================================================================== *)
(** * tools/*.ts: tool handlers *)
(* ================================================================== *)

(** [{ content: [{ type: "text", text }] }] *)
Record ToolResult : Type := { text : jsstring }.

Section Tools.

Variable World : Type.
Variable rest_fetch :
  RestRequest -> World -> Result (CloudflareApiResponse Ruleset) * World.
Variable graphql_fetch :
  GraphqlRequest -> World -> Result (GraphqlBody SummaryData) * World.

(** [getApi()] builds a client from [this.props.accessToken]. *)
Variable accessToken : jsstring.

(** [JSON.stringify(x, null, 2)] of a provider payload. *)
Variable stringify_ruleset : Ruleset -> jsstring.
Variable stringify_rule : RulesetRule -> jsstring.

(** The error the SDK answers with when the arguments do not parse. *)
Variable invalid_arguments : JsError.

(** [server.tool(name, description, schema, handler)]: the SDK parses the
    arguments with the schema and calls the handler only when they parse. *)
Definition server_tool (parses : bool) (handler : M World ToolResult)
  : M World ToolResult :=
  if parses then handler else throw invalid_arguments.

Definition list_custom_rules_handler (zoneId : jsstring) : M World ToolResult :=
  try_catch
    (ruleset <- getEntryPointRuleset rest_fetch accessToken zoneId custom_phase ;;
     ret {| text := stringify_ruleset ruleset |})
    (fun error =>
       if signals_absent error then
         ret {| text :=
                  JSON_stringify2
                    (JObj [ (js "rules", JArr []);
                            (js "message",
                             JStr (js "No custom rules configured for this zone")) ]) |}
       else throw error).

Definition list_custom_rules (zoneId : jsstring) : M World ToolResult :=
  server_tool (zoneIdSchema zoneId) (list_custom_rules_handler zoneId).

Definition create_custom_rule_handler (zoneId : jsstring) (rule : RuleSpec)
  : M World ToolResult :=
  try_catch
    (result0 <- createCustomRule rest_fetch accessToken zoneId rule ;;
     ret {| text :=
              js "Successfully created custom rule." ++ newline ++ newline ++
              match result0 with
              | Some r => stringify_rule r
              | None => js "undefined"
              end |})
    (fun error =>
       ret {| text :=
                js "Failed to create rule: " ++
                sanitizeErrorMessage (error_message error) |}).

(** [wafActionSchema] *)
Definition wafActionSchema (a : jsstring) : bool :=
  existsb (js_eqb a)
          [ js "block"; js "challenge"; js "js_challenge";
            js "managed_challenge"; js "log"; js "skip" ].

Definition length_between (lo hi : nat) (s : jsstring) : bool :=
  (lo <=? length s) && (length s <=? hi).

Definition create_custom_rule (zoneId : jsstring) (rule : RuleSpec)
  : M World ToolResult :=
  server_tool
    (zoneIdSchema zoneId &&
     length_between 1 500 (spec_description rule) &&
     length_between 1 4096 (spec_expression rule) &&
     wafActionSchema (spec_action rule))
    (create_custom_rule_handler zoneId rule).

Definition toggle_rule_handler (zoneId rulesetId ruleId : jsstring)
           (enabled0 : bool) : M World ToolResult :=
  try_catch
    (result0 <- updateCustomRule rest_fetch accessToken zoneId rulesetId ruleId
                  {| upd_description := None; upd_expression := None;
                     upd_action := None; upd_enabled := Some enabled0 |} ;;
     ret {| text :=
              js "Successfully " ++
              (if enabled0 then js "enabled" else js "disabled") ++
              js " rule " ++ ruleId |})
    (fun error =>
       ret {| text :=
                js "Failed to toggle rule: " ++
                sanitizeErrorMessage (error_message error) |}).

Definition toggle_rule (zoneId rulesetId ruleId : jsstring) (enabled0 : bool)
  : M World ToolResult :=
  server_tool
    (zoneIdSchema zoneId && rulesetIdSchema rulesetId && ruleIdSchema ruleId)
    (toggle_rule_handler zoneId rulesetId ruleId enabled0).

End Tools.

(* ================================================================== *)
(** * tools/waf-write.ts: update_custom_rule and delete_custom_rule *)
(* ================================================================== *)

Section WriteTools.

Variable World : Type.
Variable rest_fetch :
  RestRequest -> World -> Result (CloudflareApiResponse Ruleset) * World.
Variable accessToken : jsstring.
Variable stringify_rule : RulesetRule -> jsstring.
Variable invalid_arguments : JsError.

(** [schema.optional()] *)
Definition optional {A : Type} (schema : A -> bool) (o : option A) : bool :=
  match o with
  | None => true
  | Some a => schema a
  end.

(** [updates] receives the arguments that are not [undefined]. *)
Definition update_custom_rule_handler (zoneId rulesetId ruleId : jsstring)
           (description0 expression0 action0 : option jsstring)
           (enabled0 : option bool) : M World ToolResult :=
  try_catch
    (let updates := {| upd_description := description0;
                       upd_expression := expression0;
                       upd_action := action0;
                       upd_enabled := enabled0 |} in
     result0 <- updateCustomRule rest_fetch accessToken zoneId rulesetId ruleId
                  updates ;;
     ret {| text :=
              js "Successfully updated rule." ++ newline ++ newline ++
              stringify_rule result0 |})
    (fun error =>
       ret {| text :=
                js "Failed to update rule: " ++
                sanitizeErrorMessage (error_message error) |}).

Definition update_custom_rule (zoneId rulesetId ruleId : jsstring)
           (description0 expression0 action0 : option jsstring)
           (enabled0 : option bool) : M World ToolResult :=
  server_tool invalid_arguments
    (zoneIdSchema zoneId && rulesetIdSchema rulesetId && ruleIdSchema ruleId &&
     optional (length_between 1 500) description0 &&
     optional (length_between 1 4096) expression0 &&
     optional wafActionSchema action0)
    (update_custom_rule_handler zoneId rulesetId ruleId
       description0 expression0 action0 enabled0).

Definition delete_custom_rule_handler (zoneId rulesetId ruleId : jsstring)
  : M World ToolResult :=
  try_catch
    (done <- deleteCustomRule rest_fetch accessToken zoneId rulesetId ruleId ;;
     ret {| text := js "Successfully deleted rule " ++ ruleId |})
    (fun error =>
       ret {| text :=
                js "Failed to delete rule: " ++
                sanitizeErrorMessage (error_message error) |}).

Definition delete_custom_rule (zoneId rulesetId ruleId : jsstring)
  : M World ToolResult :=
  server_tool invalid_arguments
    (zoneIdSchema zoneId && rulesetIdSchema rulesetId && ruleIdSchema ruleId)
    (delete_custom_rule_handler zoneId rulesetId ruleId).

End WriteTools.

(* ================================================================== *)
(** * tools/waf-write.ts: the analysis of suggest_rule_from_events *)
(* ================================================================== *)

Record SecurityEvent : Type := {
  ev_action : jsstring;
  ev_clientAsn : jsstring;
  ev_clientCountryName : jsstring;
  ev_clientIP : jsstring;
  ev_clientRequestPath : jsstring;
  ev_clientRequestQuery : jsstring;
  ev_datetime : jsstring;
  ev_source : jsstring;
  ev_userAgent : jsstring;
  ev_ruleId : option jsstring;
  ev_ruleName : option jsstring
}.

(** [Map<string, number>]: the entries in insertion order. The numbers are
    counts of events, exact in a JavaScript number. *)
Definition CountMap := list (jsstring * nat).

Fixpoint Map_get (m : CountMap) (key : jsstring) : option nat :=
  match m with
  | [] => None
  | (k, v) :: m' => if js_eqb k key then Some v else Map_get m' key
  end.

(** [Map.prototype.set]: an existing key keeps its place. *)
Fixpoint Map_set (m : CountMap) (key : jsstring) (value : nat) : CountMap :=
  match m with
  | [] => [ (key, value) ]
  | (k, v) :: m' =>
      if js_eqb k key then (k, value) :: m' else (k, v) :: Map_set m' key value
  end.

(** [x || 0] for [x] a number or [undefined]. *)
Definition or_zero (x : option nat) : nat :=
  match x with
  | Some (S n) => S n
  | _ => 0
  end.

(** [map.set(key, (map.get(key) || 0) + 1)] *)
Definition count_up (m : CountMap) (key : jsstring) : CountMap :=
  Map_set m key (or_zero (Map_get m key) + 1).

Record Tally : Type := {
  countryMap : CountMap;
  ipMap : CountMap;
  pathMap : CountMap;
  sourceMap : CountMap
}.

(** The body of [events.forEach]. *)
Definition tally_event (t : Tally) (event : SecurityEvent) : Tally :=
  {| countryMap := count_up (countryMap t) (ev_clientCountryName event);
     ipMap := count_up (ipMap t) (ev_clientIP event);
     pathMap := count_up (pathMap t) (ev_clientRequestPath event);
     sourceMap := count_up (sourceMap t) (ev_source event) |}.

Definition tally_events (events : list SecurityEvent) : Tally :=
  fold_left tally_event events
            {| countryMap := []; ipMap := []; pathMap := []; sourceMap := [] |}.

(** [Array.prototype.sort(compare)]: the sort is stable, and for a
    consistent comparator the result is the one sorted arrangement that
    keeps equal elements in their order; insertion from the right computes
    it. *)
Fixpoint sort_insert {A : Type} (compare : A -> A -> Z) (x : A) (sorted : list A)
  : list A :=
  match sorted with
  | [] => [ x ]
  | y :: rest =>
      if (compare x y <=? 0)%Z then x :: sorted
      else y :: sort_insert compare x rest
  end.

Definition Array_sort {A : Type} (compare : A -> A -> Z) (arr : list A) : list A :=
  fold_right (sort_insert compare) [] arr.

(** [(a, b) => b[1] - a[1]] *)
Definition by_count_descending (a b : jsstring * nat) : Z :=
  (Z.of_nat (snd b) - Z.of_nat (snd a))%Z.

(** [Array.from(map.entries()).sort((a, b) => b[1] - a[1])[0]] *)
Definition top_entry (m : CountMap) : option (jsstring * nat) :=
  js_index (Array_sort by_count_descending m) 0.

Definition topCountry (events : list SecurityEvent) : option (jsstring * nat) :=
  top_entry (countryMap (tally_events events)).
Definition topIP (events : list SecurityEvent) : option (jsstring * nat) :=
  top_entry (ipMap (tally_events events)).
Definition topPath (events : list SecurityEvent) : option (jsstring * nat) :=
  top_entry (pathMap (tally_events events)).
Definition topSource (events : list SecurityEvent) : option (jsstring * nat) :=
  top_entry (sourceMap (tally_events events)).

(* ================================================================== *)
(** * index.ts: the token of a request *)
(* ================================================================== *)

(** A string is truthy when it is not empty. *)
Definition truthy (s : jsstring) : bool :=
  match s with
  | [] => false
  | _ :: _ => true
  end.

(** [s.slice(7)] *)
Definition slice7 (s : jsstring) : jsstring := skipn 7 s.

(** HTTP whitespace: tab, line feed, carriage return and space. *)
Definition is_http_whitespace (c : codeunit) : bool :=
  existsb (cu_eqb c) [ 9%N; 10%N; 13%N; 32%N ].

Fixpoint strip_leading (s : jsstring) : jsstring :=
  match s with
  | [] => []
  | c :: s' => if is_http_whitespace c then strip_leading s' else s
  end.

Definition strip_trailing (s : jsstring) : jsstring := rev (strip_leading (rev s)).

(** [request.headers.get(name)]: [null] when the request has no such header,
    else its value, normalized: a header value has no HTTP whitespace at
    either end. *)
Definition Headers_get (sent : option jsstring) : option jsstring :=
  match sent with
  | Some value => Some (strip_trailing (strip_leading value))
  | None => None
  end.

(** The value of [token] where [fetch] tests it: from the Authorization
    header when that starts with ["Bearer "], else from the environment
    ([null] and [undefined] are [None]). [sent] is the value of the
    Authorization header of the request, if it has one. *)
Definition request_token (sent envToken : option jsstring)
  : option jsstring :=
  let authHeader := Headers_get sent in
  let from_env :=
    match envToken with
    | Some e =>
        if truthy e
        then Some (if starts_with (js "Bearer ") e then slice7 e else e)
        else None
    | None => None
    end in
  match authHeader with
  | Some h => if starts_with (js "Bearer ") h then Some (slice7 h) else from_env
  | None => from_env
  end.

(** [if (token)]: the token a client is built with, if any. *)
Definition client_token (sent envToken : option jsstring)
  : option jsstring :=
  match request_token sent envToken with
  | Some t => if truthy t then Some t else None
  | None => None
  end.

(* ================================================================== *)
(** * The provider the client talks to *)
(* ================================================================== *)

(** Modelled from the spec: the provider behind the REST endpoints (the
    rulesets API the client calls) is not part of the repository. Where a
    property is about what the provider holds after a sequence of calls, it is
    taken as the spec describes it: rulesets are stored per zone and phase,
    the entry point of a zone and phase is looked up by both, a rule POST
    appends to the ruleset, and a rule PATCH is a partial update that
    overwrites the supplied fields only. Identifiers are drawn from a
    counter. *)
Record Provider : Type := {
  stored : list (jsstring * Ruleset);
  next_id : nat
}.

Definition null_ruleset : Ruleset :=
  {| rs_id := []; rs_name := []; rs_description := []; rs_kind := [];
     rs_version := []; rs_phase := []; rules := []; rs_last_updated := [] |}.

Definition replied (rs : Ruleset) : CloudflareApiResponse Ruleset :=
  {| success := true; errors := []; messages := []; result := rs |}.

Definition refused (errs : list CloudflareApiError)
  : CloudflareApiResponse Ruleset :=
  {| success := false; errors := errs; messages := []; result := null_ruleset |}.

Definition is_entrypoint (zoneId phase : jsstring) (e : jsstring * Ruleset)
  : bool :=
  js_eqb (fst e) zoneId && js_eqb (rs_phase (snd e)) phase.

Definition is_ruleset (zoneId rulesetId : jsstring) (e : jsstring * Ruleset)
  : bool :=
  js_eqb (fst e) zoneId && js_eqb (rs_id (snd e)) rulesetId.

Definition with_rules (rs : Ruleset) (l : list RulesetRule) : Ruleset :=
  {| rs_id := rs_id rs; rs_name := rs_name rs;
     rs_description := rs_description rs; rs_kind := rs_kind rs;
     rs_version := rs_version rs; rs_phase := rs_phase rs;
     rules := l; rs_last_updated := rs_last_updated rs |}.

Definition or_else {A : Type} (o : option A) (d : A) : A :=
  match o with
  | Some a => a
  | None => d
  end.

Definition patch_rule (u : RuleUpdates) (r : RulesetRule) : RulesetRule :=
  {| id := id r; version := version r;
     action := or_else (upd_action u) (action r);
     expression := or_else (upd_expression u) (expression r);
     description := or_else (upd_description u) (description r);
     enabled := or_else (upd_enabled u) (enabled r);
     logging := logging r; last_updated := last_updated r; ref := ref r |}.

Section ReferenceProvider.

(** How the provider words a missing resource, and how it names new ones. *)
Variable absent : list CloudflareApiError.
Variable mk_id : nat -> jsstring.

Definition new_rule (n : nat) (spec : RuleSpec) : RulesetRule :=
  {| id := mk_id n; version := js "1";
     action := spec_action spec; expression := spec_expression spec;
     description := spec_description spec; enabled := spec_enabled spec;
     logging := None; last_updated := []; ref := None |}.

Fixpoint new_rules (n : nat) (specs : list RuleSpec) : list RulesetRule :=
  match specs with
  | [] => []
  | s :: specs' => new_rule n s :: new_rules (S n) specs'
  end.

(** Apply [f] to the rulesets of the zone that carry the identifier. *)
Definition update_ruleset (zoneId rulesetId : jsstring)
           (f : Ruleset -> Ruleset) (l : list (jsstring * Ruleset))
  : list (jsstring * Ruleset) :=
  map (fun e => if is_ruleset zoneId rulesetId e then (fst e, f (snd e)) else e) l.

Definition append_rule (r : RulesetRule) (rs : Ruleset) : Ruleset :=
  with_rules rs (rules rs ++ [r]).

Definition patch_rules (ruleId : jsstring) (u : RuleUpdates) (rs : Ruleset)
  : Ruleset :=
  with_rules rs
    (map (fun r0 => if js_eqb (id r0) ruleId then patch_rule u r0 else r0)
         (rules rs)).

Definition provider_step (r : RestRequest) (p : Provider)
  : Result (CloudflareApiResponse Ruleset) * Provider :=
  match req_method r, req_endpoint r, req_body r with
  | GET, EpEntrypoint z ph, _ =>
      match find (is_entrypoint z ph) (stored p) with
      | Some e => (Ok (replied (snd e)), p)
      | None => (Ok (refused absent), p)
      end
  | POST, EpRulesets z, BodyNewRuleset name kind phase specs =>
      let rs := {| rs_id := mk_id (next_id p); rs_name := name;
                   rs_description := []; rs_kind := kind;
                   rs_version := js "1"; rs_phase := phase;
                   rules := new_rules (S (next_id p)) specs;
                   rs_last_updated := [] |} in
      (Ok (replied rs),
       {| stored := stored p ++ [(z, rs)];
          next_id := S (next_id p) + length specs |})
  | POST, EpRules z rid, BodyRule spec =>
      match find (is_ruleset z rid) (stored p) with
      | Some e =>
          let f := append_rule (new_rule (next_id p) spec) in
          (Ok (replied (f (snd e))),
           {| stored := update_ruleset z rid f (stored p);
              next_id := S (next_id p) |})
      | None => (Ok (refused absent), p)
      end
  | PATCH, EpRule z rid ruleId, BodyUpdates u =>
      match find (is_ruleset z rid) (stored p) with
      | Some e =>
          if existsb (fun r0 => js_eqb (id r0) ruleId) (rules (snd e)) then
            let f := patch_rules ruleId u in
            (Ok (replied (f (snd e))),
             {| stored := update_ruleset z rid f (stored p);
                next_id := next_id p |})
          else (Ok (refused absent), p)
      | None => (Ok (refused absent), p)
      end
  | _, _, _ => (Ok (refused absent), p)
  end.

(** The analytics endpoint plays no part in the rule properties. *)
Definition provider_graphql (g : GraphqlRequest) (p : Provider)
  : Result (GraphqlBody SummaryData) * Provider :=
  (Ok {| gql_data := {| viewer_zones := [] |}; gql_errors := None |}, p).

End ReferenceProvider.

(** The entry-point rulesets a zone has for a phase. *)
Definition entrypoints (zoneId phase : jsstring) (p : Provider) : list Ruleset :=
  map snd (filter (is_entrypoint zoneId phase) (stored p)).

Unset Implicit Arguments.

(* ================================================================== *)
(** * Vocabulary of the properties *)
(* ================================================================== *)

(** ** Declarative reading of a pattern *)

(** [accepts re prev s n]: the first [n] code units of [s] can be split among
    the items of [re], each class taking a number of code units within its
    bounds, each assertion holding where it stands. The matcher returns the
    split that greedy backtracking finds first; it finds one exactly when one
    exists. *)
Fixpoint accepts (re : regex) (prev : option codeunit) (s : jsstring) (n : nat)
  : Prop :=
  match re with
  | [] => n = 0
  | Cls p lo hi :: rest =>
      exists k,
        lo <= k /\ capped k hi = true /\ k <= length s /\
        forallb p (firstn k s) = true /\ k <= n /\
        accepts rest (prev_after k prev s) (skipn k s) (n - k)
  | WordBoundary :: rest => at_boundary prev s = true /\ accepts rest prev s n
  | Bol :: rest => prev = None /\ accepts rest prev s n
  | Eol :: rest => s = [] /\ accepts rest prev s n
  end.

(** A pattern without assertions. *)
Definition is_cls (it : item) : bool :=
  match it with
  | Cls _ _ _ => true
  | _ => false
  end.

Definition plain (re : regex) : bool := forallb is_cls re.

(** The code unit belongs to one of the classes of the pattern. *)
Definition in_class (c : codeunit) (it : item) : bool :=
  match it with
  | Cls p _ _ => p c
  | _ => false
  end.

Definition in_some_class (re : regex) (c : codeunit) : bool :=
  existsb (in_class c) re.

(** Two code units that no class of the pattern tells apart. *)
Definition same_class (c c' : codeunit) (it : item) : bool :=
  match it with
  | Cls p _ _ => Bool.eqb (p c) (p c')
  | _ => true
  end.

Definition same_classes (re : regex) (c c' : codeunit) : bool :=
  forallb (same_class c c') re.

(** The first [n] code units of [s] and [s'] look the same to the pattern. *)
Definition agree (re : regex) (n : nat) (s s' : jsstring) : Prop :=
  forall i, i < n ->
    exists c c', nth_error s i = Some c /\ nth_error s' i = Some c' /\
                 same_classes re c c' = true.

(** The pattern matches at no position of [s]. *)
Fixpoint clean (re : regex) (prev : option codeunit) (s : jsstring) : Prop :=
  match_items re prev s = None /\
  match s with
  | [] => True
  | c :: s' => clean re (Some c) s'
  end.

(** Wherever [ri] does not match in [s], [rj] does not match either. *)
Fixpoint quiet (ri rj : regex) (prev : option codeunit) (s : jsstring) : Prop :=
  (match_items ri prev s = None -> match_items rj prev s = None) /\
  match s with
  | [] => True
  | c :: s' => quiet ri rj (Some c) s'
  end.

(** The brackets that delimit the redaction markers. *)
Definition lbracket : codeunit := 91%N.
Definition rbracket : codeunit := 93%N.

Definition is_bracket (c : codeunit) : bool := cu_eqb c lbracket || cu_eqb c rbracket.

(** The part of [v] before its first bracket, and whether a bracket follows. *)
Fixpoint before_bracket (v : jsstring) : jsstring * bool :=
  match v with
  | [] => ([], false)
  | c :: v' =>
      if is_bracket c then ([], true)
      else let (p, b) := before_bracket v' in (c :: p, b)
  end.

(** The non-empty suffixes of a string. *)
Fixpoint tails (v : jsstring) : list jsstring :=
  match v with
  | [] => []
  | _ :: v' => v :: tails v'
  end.

Definition none {A : Type} (o : option A) : bool :=
  match o with
  | None => true
  | Some _ => false
  end.

(** No match of [re] can start inside the marker, whatever follows it. *)
Definition sealed (re : regex) (marker : jsstring) : bool :=
  forallb (fun v => let (p, b) := before_bracket v in
                    b && none (match_items re None p))
          (tails marker).

(** The code unit before the position reached after reading [v]. *)
Definition last_seen (prev : option codeunit) (v : jsstring) : option codeunit :=
  fold_left (fun _ c => Some c) v prev.

(** The message [request] throws for a failed envelope. *)
Definition rest_failure (errs : list CloudflareApiError) : JsError :=
  {| error_message :=
       js "Cloudflare API error: " ++
       sanitizeErrorMessage (join (js ", ") (map message errs)) |}.

(** The message [graphqlRequest] throws for a list of errors. *)
Definition graphql_failure (msgs : list jsstring) : JsError :=
  {| error_message :=
       js "GraphQL error: " ++ sanitizeErrorMessage (join (js ", ") msgs) |}.

(** The state after one more REST call. *)
Definition after_rest {World : Type} (st : Net World) (r : RestRequest) (w : World)
  : Net World :=
  {| world := w; calls := calls st ++ [RestCall r] |}.

Definition after_graphql {World : Type} (st : Net World) (g : GraphqlRequest)
           (w : World) : Net World :=
  {| world := w; calls := calls st ++ [GraphqlCall g] |}.



(** Every identifier of the path can be encoded. *)
Definition buildable (endpoint : Endpoint) : bool :=
  match endpoint with
  | EpEntrypoint zoneId phase => encodable zoneId && encodable phase
  | EpRulesets zoneId => encodable zoneId
  | EpRules zoneId rulesetId => encodable zoneId && encodable rulesetId
  | EpRule zoneId rulesetId ruleId =>
      encodable zoneId && encodable rulesetId && encodable ruleId
  end.

(** The second half of [createCustomRule]: the path of the rules, the rule
    POST and the result. *)
Definition append_step {World : Type}
           (rest_fetch : RestRequest -> World ->
                         Result (CloudflareApiResponse Ruleset) * World)
           (accessToken zoneId : jsstring) (rule : RuleSpec) (rulesetId : jsstring)
           (st : Net World) : Result (option RulesetRule) * Net World :=
  if buildable (EpRules zoneId rulesetId) then
    match request rest_fetch accessToken (EpRules zoneId rulesetId) POST (BodyRule rule) st
    with
    | (Ok response, st') =>
        (Ok (js_index (rules (result response))
                      (Z.of_nat (length (rules (result response))) - 1)), st')
    | (Throw e, st') => (Throw e, st')
    end
  else (Throw URIError, st).

(** The ruleset [createCustomRule] asks for when the zone has none, as the
    reference provider stores it. *)
Definition created (mk_id : nat -> jsstring) (p : Provider) : Ruleset :=
  {| rs_id := mk_id (next_id p); rs_name := js "Custom Firewall Rules";
     rs_description := []; rs_kind := js "zone"; rs_version := js "1";
     rs_phase := custom_phase; rules := []; rs_last_updated := [] |}.

(** The three calls [createCustomRule] can make. *)
Definition get_entrypoint (accessToken zoneId : jsstring) : Call :=
  RestCall (rest_call accessToken (EpEntrypoint zoneId custom_phase) GET NoBody).

Definition post_ruleset (accessToken zoneId : jsstring) : Call :=
  RestCall (rest_call accessToken (EpRulesets zoneId) POST
              (BodyNewRuleset (js "Custom Firewall Rules") (js "zone") custom_phase [])).

Definition post_rule (accessToken zoneId rulesetId : jsstring) (rule : RuleSpec) : Call :=
  RestCall (rest_call accessToken (EpRules zoneId rulesetId) POST (BodyRule rule)).

(** The uniqueness invariant of entry points. *)
Definition at_most_one_entrypoint (p : Provider) : Prop :=
  forall zoneId phase, length (entrypoints zoneId phase p) <= 1.

(** [{ byAction: [], bySource: [], byCountry: [] }] *)
Definition empty_summary : Summary :=
  {| sum_byAction := []; sum_bySource := []; sum_byCountry := [] |}.

(** The reply holds no zone, or a zone whose three groupings are empty. *)
Definition no_events (zones : list SummaryZone) : Prop :=
  zones = [] \/
  exists z rest, zones = z :: rest /\ byAction z = [] /\ bySource z = [] /\ byCountry z = [].

(** The text [list_custom_rules] answers with when the zone has no ruleset. *)
Definition no_custom_rules_text : jsstring :=
  JSON_stringify2
    (JObj [ (js "rules", JArr []);
            (js "message", JStr (js "No custom rules configured for this zone")) ]).

(** The prefix [request] puts before the messages of a failed envelope. *)
Definition api_error_prefix : jsstring := js "Cloudflare API error: ".

(** What a write tool answers with: a result, never an exception, whose text
    is a success text or the tool's failure prefix followed by a sanitized
    message. *)
Definition answers_in_text {World : Type} (prefix : jsstring)
           (out : Result ToolResult * Net World) : Prop :=
  exists t, fst out = Ok t /\
    (starts_with (js "Successfully ") (text t) = true \/
     exists tail,
       text t = prefix ++ tail /\ length tail <= 203 /\
       regex_test re_bearer tail = false /\ regex_test re_hex tail = false /\
       regex_test re_email tail = false).

(** The three code units that would open a path segment, a query or a
    fragment. *)
Definition is_delimiter (c : codeunit) : bool :=
  cu_eqb c 47%N || cu_eqb c 63%N || cu_eqb c 35%N.

(** The number of events with a given value of a field. *)
Definition count_key (key : SecurityEvent -> jsstring) (k : jsstring)
           (events : list SecurityEvent) : nat :=
  length (filter (fun e => js_eqb (key e) k) events).

(** [top] is the most frequent value of the field among the events, with
    its count; of several values with that count it is the one whose first
    event comes first. *)
Definition most_frequent (key : SecurityEvent -> jsstring)
           (events : list SecurityEvent) (top : jsstring * nat) : Prop :=
  snd top = count_key key (fst top) events /\
  1 <= snd top /\
  (forall e, In e events -> count_key key (key e) events <= snd top) /\
  exists before e after,
    events = before ++ e :: after /\ key e = fst top /\
    forall e', In e' before -> count_key key (key e') events < snd top.

(** The values of a field in the order of their first events. *)
Fixpoint firsts (key : SecurityEvent -> jsstring) (events : list SecurityEvent)
  : list jsstring :=
  match events with
  | [] => []
  | e :: rest =>
      key e :: filter (fun k => negb (js_eqb k (key e))) (firsts key rest)
  end.

(** The first element of a stable sort by descending count. *)
Fixpoint best (l : CountMap) : option (jsstring * nat) :=
  match l with
  | [] => None
  | x :: rest =>
      match best rest with
      | None => Some x
      | Some y => if snd y <=? snd x then Some x else Some y
      end
  end.

(** ** Numbers *)

(** Two Numbers are the same datum. *)
Definition same_number (x y : Number) : bool :=
  match x, y with
  | S754_zero a, S754_zero b => Bool.eqb a b
  | S754_infinity a, S754_infinity b => Bool.eqb a b
  | S754_nan, S754_nan => true
  | S754_finite a m e, S754_finite b n f => Bool.eqb a b && Pos.eqb m n && Z.eqb e f
  | _, _ => false
  end.

(** [minutes * 60 * 1000] *)
Definition milliseconds (minutes : Number) : Number :=
  Number_multiply (Number_multiply minutes (Number_of_Z 60)) (Number_of_Z 1000).

(** [check] holds of the [count] integers from [lo] on. *)
Fixpoint all_from (check : Z -> bool) (lo : Z) (count : nat) : bool :=
  match count with
  | O => true
  | S c => check lo && all_from check (lo + 1)%Z c
  end.

(** [q * 2^k] as a positive number. *)
Definition shl (q : positive) (k : Z) : positive :=
  match k with
  | Zpos n => Pos.iter xO q n
  | _ => q
  end.

(** The Number of a positive integer of at most 53 bits, with its sign. *)
Definition norm (s : bool) (q : positive) : Number :=
  S754_finite s (shl q (53 - Zpos (Pos.size q))%Z) (Zpos (Pos.size q) - 53)%Z.

Definition of_whole (z : Z) : Number :=
  match z with
  | Z0 => S754_zero false
  | Zpos q => norm false q
  | Zneg q => norm true q
  end.

(* ================================================================== *)
(** * Inputs of the examples *)
(* ================================================================== *)

Definition zone0 : jsstring := js "0123456789abcdef0123456789abcdef".
Definition token0 : jsstring := js "token".
(** Identifiers for the reference provider: [n + 1] times "a". *)
Definition unary_id (n : nat) : jsstring := repeat 97%N (S n).
Definition empty_provider : Provider := {| stored := []; next_id := 0 |}.
Definition rule_a : RuleSpec :=
  {| spec_description := js "block bots"; spec_expression := js "(cf.client.bot)";
     spec_action := js "block"; spec_enabled := true |}.
Definition rule_b : RuleSpec :=
  {| spec_description := js "log admin"; spec_expression := js "(http.request.uri.path eq /admin)";
     spec_action := js "log"; spec_enabled := true |}.
(** Two ways a provider may word a missing entry point. *)
Definition says_not_found : list CloudflareApiError :=
  [ {| code := 10003%Z; message := js "ruleset not found" |} ].
Definition says_could_not_find : list CloudflareApiError :=
  [ {| code := 10003%Z; message := js "could not find entrypoint ruleset" |} ].

(** A provider that answers every request with a successful envelope around
    the given ruleset. *)
Definition always_replies (rs : Ruleset) (r : RestRequest) (w : unit)
  : Result (CloudflareApiResponse Ruleset) * unit :=
  (Ok (replied rs), w).

(** Identifiers, a stored rule and a ruleset around given rules. *)
Definition rule_id_1 : jsstring := js "11111111111111111111111111111111".
Definition rule_id_2 : jsstring := js "22222222222222222222222222222222".
Definition ruleset_id_0 : jsstring := js "00000000000000000000000000000000".

Definition stored_rule (i : jsstring) : RulesetRule :=
  {| id := i; version := js "1"; action := js "block";
     expression := js "(ip.src eq 192.0.2.1)"; description := js "block one address";
     enabled := true; logging := None; last_updated := []; ref := None |}.

Definition ruleset_of (l : list RulesetRule) : Ruleset :=
  {| rs_id := ruleset_id_0; rs_name := js "Custom Firewall Rules";
     rs_description := []; rs_kind := js "zone"; rs_version := js "2";
     rs_phase := custom_phase; rules := l; rs_last_updated := [] |}.

(** [{ enabled }] *)
Definition only_enabled (b : bool) : RuleUpdates :=
  {| upd_description := None; upd_expression := None; upd_action := None;
     upd_enabled := Some b |}.

Definition fresh_net : Net unit := {| world := tt; calls := [] |}.

Definition provider_with_rule : Provider :=
  {| stored := [ (zone0, ruleset_of [stored_rule rule_id_1; stored_rule rule_id_2]) ];
     next_id := 7 |}.

(** A provider that refuses every request with the given errors. *)
Definition always_refuses (errs : list CloudflareApiError) (r : RestRequest) (w : unit)
  : Result (CloudflareApiResponse Ruleset) * unit :=
  (Ok (refused errs), w).



(** A provider that holds its rulesets as the reference provider does, but
    whose entry-point GET is refused for a reason of its own, in words that
    hold "404". *)
Definition says_busy : list CloudflareApiError :=
  [ {| code := 10000%Z; message := js "backend 4042 is busy, retry later" |} ].

Definition busy_provider (r : RestRequest) (p : Provider)
  : Result (CloudflareApiResponse Ruleset) * Provider :=
  match req_method r with
  | GET => (Ok (refused says_busy), p)
  | _ => provider_step says_not_found unary_id r p
  end.

(** A stand-in for the rendering of a ruleset. *)
Definition json_of_id (rs : Ruleset) : jsstring := quote (rs_id rs).

(** A security event from a country and an address, for a path. *)
Definition event_from (country ip path : string) : SecurityEvent :=
  {| ev_action := js "block"; ev_clientAsn := js "64496";
     ev_clientCountryName := js country; ev_clientIP := js ip;
     ev_clientRequestPath := js path; ev_clientRequestQuery := [];
     ev_datetime := js "2026-01-01T00:00:00Z"; ev_source := js "firewallCustom";
     ev_userAgent := js "curl/8"; ev_ruleId := None; ev_ruleName := None |}.

(** Two countries with two events each; the first one met is "US". *)
Definition sample_events : list SecurityEvent :=
  [ event_from "US" "192.0.2.1" "/login";
    event_from "CN" "192.0.2.2" "/login";
    event_from "CN" "192.0.2.3" "/admin";
    event_from "US" "192.0.2.1" "/login";
    event_from "DE" "192.0.2.1" "/" ].

(* ================================================================== *)
(** * Properties *)
(* ================================================================== *)

(** ** The regular-expression matcher *)

(** *** Runs and greedy repetition *)

Lemma run_le p hi s k :
  k <= run p hi s ->
  capped k hi = true /\ k <= length s /\ forallb p (firstn k s) = true.
Proof.
  revert hi k. induction s as [|c s IH]; intros hi k H.
  - assert (k = 0) by (destruct hi as [[|h]|]; simpl in H; lia). subst.
    destruct hi; simpl; auto.
  - destruct k as [|k].
    + simpl. destruct hi; simpl; repeat split; auto; lia.
    + destruct hi as [[|h]|]; simpl in H.
      * lia.
      * destruct (p c) eqn:Hp; [|lia].
        apply le_S_n in H. destruct (IH _ _ H) as (A & B & C).
        simpl in *. rewrite Hp, C. repeat split; auto. lia.
      * destruct (p c) eqn:Hp; [|lia].
        apply le_S_n in H. destruct (IH _ _ H) as (A & B & C).
        simpl in *. rewrite Hp, C. repeat split; auto. lia.
Qed.

Lemma run_ge p hi s k :
  capped k hi = true -> k <= length s -> forallb p (firstn k s) = true ->
  k <= run p hi s.
Proof.
  revert hi k. induction s as [|c s IH]; intros hi k Hc Hl Hf.
  - simpl in Hl. lia.
  - destruct k as [|k]; [lia|].
    simpl in Hf. apply andb_true_iff in Hf as [Hp Hf]. simpl in Hl.
    destruct hi as [[|h]|]; simpl in *.
    + discriminate.
    + rewrite Hp. apply le_n_S. apply IH; auto. lia.
    + rewrite Hp. apply le_n_S. apply IH; auto. lia.
Qed.

Lemma try_down_Some f lo k0 n :
  try_down f lo k0 = Some n ->
  exists k m, lo <= k /\ k <= k0 /\ f k = Some m /\ n = k + m.
Proof.
  induction k0 as [|k0 IH]; simpl.
  - destruct (lo <=? 0) eqn:Hlo.
    + destruct (f 0) eqn:Hf; [|discriminate].
      intros [= <-]. exists 0, n0. apply Nat.leb_le in Hlo. auto.
    + discriminate.
  - destruct (lo <=? S k0) eqn:Hlo.
    + destruct (f (S k0)) eqn:Hf.
      * intros [= <-]. exists (S k0), n0. apply Nat.leb_le in Hlo. auto.
      * intros H. destruct (IH H) as (k & m & A & B & C & D).
        exists k, m. auto.
    + intros H. destruct (IH H) as (k & m & A & B & C & D).
      exists k, m. auto.
Qed.

Lemma try_down_complete f lo k0 k :
  lo <= k -> k <= k0 -> f k <> None -> try_down f lo k0 <> None.
Proof.
  intros Hlo. induction k0 as [|k0 IH]; intros Hk Hf.
  - assert (k = 0) by lia. subst. simpl.
    replace (lo <=? 0) with true by (symmetry; apply Nat.leb_le; lia).
    destruct (f 0); congruence.
  - simpl. destruct (Nat.eq_dec k (S k0)) as [->|Hne].
    + replace (lo <=? S k0) with true by (symmetry; apply Nat.leb_le; lia).
      destruct (f (S k0)); congruence.
    + destruct (if lo <=? S k0 then f (S k0) else None); [congruence|].
      apply IH; auto. lia.
Qed.

(** *** The matcher computes the declarative reading *)

Lemma match_sound re : forall prev s n,
  match_items re prev s = Some n -> accepts re prev s n.
Proof.
  induction re as [|it re IH]; intros prev s n H; simpl in *.
  - congruence.
  - destruct it as [p lo hi| | |].
    + apply try_down_Some in H as (k & m & Hlo & Hk & Hf & ->).
      apply run_le in Hk as (A & B & C).
      exists k. repeat split; auto; try lia.
      replace (k + m - k) with m by lia. auto.
    + destruct (at_boundary prev s); [|discriminate]. auto.
    + destruct prev; [discriminate|]. auto.
    + destruct s; [|discriminate]. auto.
Qed.

Lemma match_complete re : forall prev s n,
  accepts re prev s n -> match_items re prev s <> None.
Proof.
  induction re as [|it re IH]; intros prev s n H; simpl in *.
  - congruence.
  - destruct it as [p lo hi| | |].
    + destruct H as (k & Hlo & Hc & Hl & Hf & Hn & Hr).
      apply try_down_complete with (k := k); auto.
      * apply run_ge; auto.
      * eapply IH; eauto.
    + destruct H as [-> H]. eauto.
    + destruct H as [-> H]. eauto.
    + destruct H as [-> H]. eauto.
Qed.

Lemma accepts_length re : forall prev s n,
  accepts re prev s n -> n <= length s.
Proof.
  induction re as [|it re IH]; intros prev s n H; simpl in *.
  - lia.
  - destruct it as [p lo hi| | |].
    + destruct H as (k & Hlo & Hc & Hl & Hf & Hn & Hr).
      apply IH in Hr. rewrite length_skipn in Hr. lia.
    + destruct H; eauto.
    + destruct H; eauto.
    + destruct H; eauto.
Qed.

Lemma forallb_firstn_nth (p : codeunit -> bool) k (s : jsstring) :
  k <= length s -> forallb p (firstn k s) = true ->
  forall i, i < k -> exists c, nth_error s i = Some c /\ p c = true.
Proof.
  revert k. induction s as [|c s IH]; intros k Hl Hf i Hi.
  - simpl in Hl. lia.
  - destruct k as [|k]; [lia|]. simpl in Hf, Hl.
    apply andb_true_iff in Hf as [Hp Hf].
    destruct i as [|i].
    + exists c. auto.
    + simpl. apply IH with (k := k); auto; lia.
Qed.

Lemma nth_forallb_firstn (p : codeunit -> bool) k (s : jsstring) :
  (forall i, i < k -> exists c, nth_error s i = Some c /\ p c = true) ->
  k <= length s /\ forallb p (firstn k s) = true.
Proof.
  revert k. induction s as [|c s IH]; intros k H.
  - destruct k as [|k]; [simpl; auto|].
    destruct (H 0) as (c & Hc & _); [lia|]. discriminate.
  - destruct k as [|k]; [simpl; split; [lia|auto]|].
    destruct (H 0) as (c0 & Hc & Hp); [lia|]. simpl in Hc. injection Hc as <-.
    destruct (IH k) as [A B].
    { intros i Hi. apply (H (S i)). lia. }
    simpl. rewrite Hp, B. split; [lia|auto].
Qed.

(** Every code unit of a match belongs to one of the classes of the
    pattern. *)
Lemma accepts_chars re : forall prev s n,
  accepts re prev s n ->
  forall i, i < n -> exists c, nth_error s i = Some c /\ in_some_class re c = true.
Proof.
  induction re as [|it re IH]; intros prev s n H i Hi; simpl in *.
  - lia.
  - destruct it as [p lo hi| | |].
    + destruct H as (k & Hlo & Hc & Hl & Hf & Hn & Hr).
      destruct (Nat.lt_ge_cases i k) as [Hik|Hik].
      * destruct (forallb_firstn_nth p k s Hl Hf i Hik) as (c & A & B).
        exists c. unfold in_some_class. simpl. rewrite B. auto.
      * destruct (IH _ _ _ Hr (i - k)) as (c & A & B); [lia|].
        rewrite nth_error_skipn in A. replace (k + (i - k)) with i in A by lia.
        exists c. unfold in_some_class in *. simpl. rewrite B, orb_true_r. auto.
    + destruct H as [_ H]. eauto.
    + destruct H as [_ H]. eauto.
    + destruct H as [_ H]. eauto.
Qed.

Lemma agree_tail p lo hi re n k s s' :
  agree (Cls p lo hi :: re) n s s' -> k <= n ->
  agree re (n - k) (skipn k s) (skipn k s').
Proof.
  intros H Hk i Hi. destruct (H (k + i)) as (c & c' & A & B & C); [lia|].
  exists c, c'. rewrite !nth_error_skipn. repeat split; auto.
  simpl in C. apply andb_true_iff in C. tauto.
Qed.

(** A pattern without assertions only looks at the classes of the code units
    it consumes. *)
Lemma accepts_agree re : forall prev prev' s s' n,
  plain re = true -> accepts re prev s n -> agree re n s s' ->
  accepts re prev' s' n.
Proof.
  induction re as [|it re IH]; intros prev prev' s s' n Hp H Ha; simpl in *.
  - auto.
  - destruct it as [p lo hi| | |]; simpl in Hp; try discriminate.
    destruct H as (k & Hlo & Hc & Hl & Hf & Hn & Hr).
    destruct (nth_forallb_firstn p k s') as [A B].
    { intros i Hi. destruct (Ha i) as (c & c' & X & Y & Z); [lia|].
      destruct (forallb_firstn_nth p k s Hl Hf i Hi) as (c0 & X0 & P0).
      rewrite X in X0. injection X0 as <-.
      exists c'. split; auto. simpl in Z. apply andb_true_iff in Z as [Z _].
      apply eqb_prop in Z. congruence. }
    exists k. repeat split; auto.
    eapply IH; eauto. eapply agree_tail; eauto.
Qed.

Lemma match_plain_prev re prev prev' s :
  plain re = true -> match_items re prev s <> None ->
  match_items re prev' s <> None.
Proof.
  intros Hp H. destruct (match_items re prev s) as [n|] eqn:E; [|congruence].
  apply match_sound in E.
  apply match_complete with (n := n).
  eapply accepts_agree; eauto.
  intros i Hi. destruct (accepts_chars _ _ _ _ E i Hi) as (c & A & _).
  exists c, c. repeat split; auto.
  unfold same_classes. apply forallb_forall. intros [p lo hi| | |] _; simpl; auto.
  apply eqb_reflx.
Qed.

(** In general a match depends on the code units it consumes, the one
    before and the one after. *)
Lemma accepts_local re : forall prev s s' n,
  accepts re prev s n ->
  (forall i, i <= n -> nth_error s i = nth_error s' i) ->
  accepts re prev s' n.
Proof.
  induction re as [|it re IH]; intros prev s s' n H Hs; simpl in *.
  - auto.
  - destruct it as [p lo hi| | |].
    + destruct H as (k & Hlo & Hc & Hl & Hf & Hn & Hr).
      destruct (nth_forallb_firstn p k s') as [A B].
      { intros i Hi.
        destruct (forallb_firstn_nth p k s Hl Hf i Hi) as (c0 & X0 & P0).
        exists c0. rewrite <- Hs by lia. auto. }
      exists k. repeat split; auto.
      replace (prev_after k prev s') with (prev_after k prev s).
      2:{ destruct k; simpl; auto. apply Hs. lia. }
      eapply IH; eauto.
      intros i Hi. rewrite !nth_error_skipn. apply Hs. lia.
    + destruct H as [Hb H]. split; [|eapply IH; eauto].
      unfold at_boundary in *.
      replace (hd_error s') with (hd_error s); auto.
      specialize (Hs 0 (Nat.le_0_l _)). destruct s, s'; simpl in *; congruence.
    + destruct H as [Hb H]. split; [auto|eapply IH; eauto].
    + destruct H as [Hb H]. subst s.
      specialize (Hs 0 (Nat.le_0_l _)). destruct s'; [|discriminate].
      split; auto.
Qed.

(** ** Global replacement *)

(** Where the pattern matches nowhere, the replacement changes nothing. *)
Lemma clean_identity re marker : forall prev s,
  clean re prev s -> replace_go re marker 0 prev s = s.
Proof.
  intros prev s. revert prev. induction s as [|c s IH]; intros prev [H Hs]; simpl.
  - rewrite H. auto.
  - rewrite H. f_equal. auto.
Qed.

Lemma before_bracket_split v p :
  before_bracket v = (p, true) ->
  exists b q, v = p ++ b :: q /\ is_bracket b = true.
Proof.
  revert p. induction v as [|c v IH]; intros p H; simpl in H.
  - discriminate.
  - destruct (is_bracket c) eqn:Hc.
    + injection H as <-. exists c, v. auto.
    + destruct (before_bracket v) as [p' b']. injection H as <- ->.
      destruct (IH p' eq_refl) as (b & q & -> & Hb). exists b, q. auto.
Qed.

(** *** Patterns that no bracket can be part of *)

Section Barrier.

Variable re : regex.
Hypothesis re_plain : plain re = true.
Hypothesis re_brackets : forall b, is_bracket b = true -> in_some_class re b = false.

(** A match cannot run over a bracket. *)
Lemma match_stops_at_bracket prev u b t n :
  is_bracket b = true ->
  accepts re prev (u ++ b :: t) n -> n <= length u.
Proof.
  intros Hb H. destruct (Nat.le_gt_cases n (length u)) as [|Hlt]; auto.
  destruct (accepts_chars _ _ _ _ H (length u) Hlt) as (c & A & B).
  rewrite nth_error_app2 in A by lia. rewrite Nat.sub_diag in A. simpl in A.
  injection A as <-. rewrite re_brackets in B; auto. discriminate.
Qed.

Lemma same_classes_refl c : same_classes re c c = true.
Proof.
  unfold same_classes. apply forallb_forall. intros [p lo hi| | |] _; simpl; auto.
  apply eqb_reflx.
Qed.

(** A match found before a bracket is found whatever follows instead. *)
Lemma barrier prev prev' u b t t' :
  is_bracket b = true ->
  match_items re prev (u ++ b :: t) <> None ->
  match_items re prev' (u ++ t') <> None.
Proof.
  intros Hb H. destruct (match_items re prev (u ++ b :: t)) as [n|] eqn:E;
    [|congruence].
  apply match_sound in E. pose proof (match_stops_at_bracket _ _ _ _ _ Hb E) as Hn.
  apply match_complete with (n := n).
  eapply accepts_agree; eauto.
  intros i Hi. destruct (accepts_chars _ _ _ _ E i Hi) as (c & A & _).
  exists c, c. repeat split; auto using same_classes_refl.
  rewrite nth_error_app1 in * by lia. auto.
Qed.

(** No match starts inside a sealed marker. *)
Lemma sealed_tail marker v prev rest :
  sealed re marker = true -> In v (tails marker) ->
  match_items re prev (v ++ rest) = None.
Proof.
  intros Hs Hv. unfold sealed in Hs. rewrite forallb_forall in Hs.
  specialize (Hs v Hv). destruct (before_bracket v) as [p b] eqn:E.
  apply andb_true_iff in Hs as [-> Hn].
  destruct (before_bracket_split _ _ E) as (b & q & -> & Hb).
  destruct (match_items re prev ((p ++ b :: q) ++ rest)) eqn:M; auto.
  exfalso. rewrite <- app_assoc in M. simpl in M.
  assert (X : match_items re prev (p ++ b :: q ++ rest) <> None) by congruence.
  apply (barrier prev None p b (q ++ rest) []) in X; auto.
  rewrite app_nil_r in X. destruct (match_items re None p); [discriminate|congruence].
Qed.

Lemma clean_prev prev prev' s : clean re prev s -> clean re prev' s.
Proof.
  destruct s as [|c s]; simpl; intros [H Hs]; split; auto.
  - destruct (match_items re prev' []) eqn:E; auto.
    exfalso. eapply (match_plain_prev re prev' prev); eauto. congruence.
  - destruct (match_items re prev' (c :: s)) eqn:E; auto.
    exfalso. eapply (match_plain_prev re prev' prev); eauto. congruence.
Qed.

Lemma clean_after_marker marker prev rest :
  sealed re marker = true -> clean re None rest ->
  clean re prev (marker ++ rest).
Proof.
  intros Hs Hr. revert prev.
  assert (G : forall v, (forall w, In w (tails v) -> In w (tails marker)) ->
                        forall prev, clean re prev (v ++ rest)).
  { induction v as [|c v IH]; intros Hin prev.
    - simpl. eapply clean_prev; eauto.
    - simpl. split.
      + apply (sealed_tail marker (c :: v)); auto. apply Hin. simpl. auto.
      + apply IH. intros w Hw. apply Hin. simpl. auto. }
  apply G. auto.
Qed.

End Barrier.

(** *** What one replacement leaves for another pattern *)

Section Replacement.

(** [ri] is the pattern being replaced by [marker]; [rj] is the pattern
    whose matches we look for in the result. *)
Variables ri rj : regex.
Variables pre post : jsstring.
Let marker := pre ++ lbracket :: post.

Hypothesis rj_plain : plain rj = true.
Hypothesis rj_brackets : forall b, is_bracket b = true -> in_some_class rj b = false.
Hypothesis rj_nil : forall prev, match_items rj prev [] = None.
Hypothesis ri_nil : forall prev, match_items ri prev [] = None.
Hypothesis ri_pos : forall prev s, match_items ri prev s <> Some 0.
Hypothesis ri_pre : forall prev s n,
  match_items ri prev s = Some n -> agree rj (length pre) pre s.
Hypothesis marker_sealed : sealed rj marker = true.

(** A match of [rj] that starts before the replaced text, in the result,
    is a match at the same place in the input. *)
Lemma transfer : forall s u prev prev' prev'',
  match_items rj prev' (u ++ replace_go ri marker 0 prev s) <> None ->
  match_items rj prev'' (u ++ s) <> None.
Proof.
  induction s as [|c s IH]; intros u prev prev' prev'' H.
  - simpl in H. rewrite ri_nil in H. eapply match_plain_prev; eauto.
  - simpl in H. destruct (match_items ri prev (c :: s)) as [[|n]|] eqn:E.
    + exfalso. eapply ri_pos; eauto.
    + destruct (match_items rj prev' (u ++ marker ++ replace_go ri marker n (Some c) s))
        as [m|] eqn:M; [|congruence].
      apply match_sound in M. unfold marker in M.
      rewrite <- app_assoc in M. simpl in M. rewrite app_assoc in M.
      pose proof (match_stops_at_bracket rj rj_brackets _ _ lbracket _ _ eq_refl M) as Hm.
      rewrite length_app in Hm.
      apply match_complete with (n := m).
      eapply accepts_agree; eauto.
      intros i Hi.
      destruct (Nat.lt_ge_cases i (length u)) as [Hu|Hu].
      * destruct (nth_error u i) as [x|] eqn:X.
        2:{ apply nth_error_None in X. lia. }
        exists x, x. rewrite <- app_assoc. rewrite !nth_error_app1 by lia.
        repeat split; auto. apply same_classes_refl.
      * destruct (ri_pre _ _ _ E (i - length u)) as (x & y & X & Y & Z); [lia|].
        exists x, y. repeat split; auto.
        -- rewrite <- app_assoc. rewrite nth_error_app2 by lia.
           rewrite nth_error_app1 by (apply nth_error_Some; congruence). auto.
        -- rewrite nth_error_app2 by lia. auto.
    + replace (u ++ c :: replace_go ri marker 0 (Some c) s)
        with ((u ++ [c]) ++ replace_go ri marker 0 (Some c) s) in H
        by (rewrite <- app_assoc; auto).
      apply IH with (prev'' := prev'') in H. rewrite <- app_assoc in H. auto.
Qed.

(** If [rj] matches nowhere that [ri] left alone, it matches nowhere in the
    result of replacing [ri]. *)
Lemma replace_keeps_clean : forall s skip prev prev',
  quiet ri rj prev s -> clean rj prev' (replace_go ri marker skip prev s).
Proof.
  induction s as [|c s IH]; intros skip prev prev' [Hq Hs].
  - simpl. rewrite ri_nil. destruct skip; simpl; auto.
  - simpl. destruct skip as [|k]; [|auto].
    destruct (match_items ri prev (c :: s)) as [[|n]|] eqn:E.
    + exfalso. eapply ri_pos; eauto.
    + apply clean_after_marker; auto.
    + simpl. split; [|auto].
      destruct (match_items rj prev' (c :: replace_go ri marker 0 (Some c) s)) eqn:M;
        auto.
      exfalso.
      assert (X : match_items rj prev' ([c] ++ replace_go ri marker 0 (Some c) s) <> None)
        by (simpl; congruence).
      apply transfer with (prev'' := prev) in X. simpl in X. auto.
Qed.

End Replacement.

Lemma quiet_self re : forall prev s, quiet re re prev s.
Proof.
  intros prev s. revert prev. induction s as [|c s IH]; intros prev; simpl; auto.
Qed.

Lemma clean_quiet ri rj : forall prev s, clean rj prev s -> quiet ri rj prev s.
Proof.
  intros prev s. revert prev. induction s as [|c s IH]; intros prev [H Hs]; simpl; auto.
Qed.

Lemma agree_nil re s : agree re (length (@nil codeunit)) [] s.
Proof. intros i Hi. simpl in Hi. lia. Qed.

(** *** Code units

    Turn boolean facts about code units into arithmetic. *)
Ltac b2p :=
  repeat match goal with
  | H : _ || _ = true |- _ => apply orb_true_iff in H; destruct H
  | H : _ && _ = true |- _ => apply andb_true_iff in H; destruct H
  | H : _ || _ = false |- _ => apply orb_false_iff in H; destruct H
  | H : _ && _ = false |- _ => apply andb_false_iff in H; destruct H
  | H : N.leb _ _ = true |- _ => apply N.leb_le in H
  | H : N.leb _ _ = false |- _ => apply N.leb_gt in H
  | H : N.eqb _ _ = true |- _ => apply N.eqb_eq in H
  | H : N.eqb _ _ = false |- _ => apply N.eqb_neq in H
  end.

Ltac unfold_classes :=
  unfold is_bracket, lbracket, rbracket, lit, lit_i, canon, is_token, is_space,
    is_hex_i, is_hex_lower, is_local, is_domain, is_word, is_alnum, is_alpha,
    is_upper, is_lower, is_digit, in_range, cu_eqb in *.

Lemma bracket_cases b : is_bracket b = true -> b = lbracket \/ b = rbracket.
Proof. unfold_classes. intros H. b2p; auto. Qed.

Lemma digit_word c : is_digit c = true -> is_word c = true.
Proof.
  intros H. destruct (is_word c) eqn:E; auto. exfalso.
  unfold_classes. b2p; lia.
Qed.

Lemma pos_of_first re p lo hi prev s :
  1 <= lo -> match_items (Cls p lo hi :: re) prev s <> Some 0.
Proof.
  intros Hlo H. apply match_sound in H. simpl in H.
  destruct H as (k & A & _ & _ & _ & B & _). lia.
Qed.

(** *** The bearer pattern *)

Lemma bearer_plain : plain re_bearer = true.
Proof. reflexivity. Qed.

Lemma bearer_brackets b : is_bracket b = true -> in_some_class re_bearer b = false.
Proof. intros H. destruct (bracket_cases b H) as [-> | ->]; reflexivity. Qed.

Lemma bearer_nil prev : match_items re_bearer prev [] = None.
Proof. reflexivity. Qed.

Lemma bearer_pos prev s : match_items re_bearer prev s <> Some 0.
Proof. apply pos_of_first. lia. Qed.

Lemma lit_i_cases a c :
  is_upper (N_of_ascii a) = true -> lit_i a c = true ->
  c = N_of_ascii a \/ c = (N_of_ascii a + 32)%N.
Proof.
  intros Hu H. unfold lit_i, canon in H.
  assert (Hl : is_lower (N_of_ascii a) = false).
  { destruct (is_lower (N_of_ascii a)) eqn:E; auto. unfold_classes. b2p; lia. }
  rewrite Hl in H. destruct (is_lower c) eqn:E; unfold_classes; b2p; lia.
Qed.

Lemma lit_lower_cases a c :
  is_lower (N_of_ascii a) = true -> lit_i a c = true ->
  c = N_of_ascii a \/ c = (N_of_ascii a - 32)%N.
Proof.
  intros Hu H. unfold lit_i, canon in H. rewrite Hu in H.
  destruct (is_lower c) eqn:E; unfold_classes; b2p; lia.
Qed.

Lemma one_step p re prev s n :
  accepts (one p :: re) prev s n ->
  exists c s', s = c :: s' /\ p c = true /\ 1 <= n /\
               accepts re (Some c) s' (n - 1).
Proof.
  simpl. intros (k & Hlo & Hc & Hl & Hf & Hn & Hr).
  apply Nat.leb_le in Hc. assert (k = 1) by lia. subst k.
  destruct s as [|c s']; [simpl in Hl; lia|].
  simpl in Hf. rewrite andb_true_r in Hf.
  exists c, s'. auto.
Qed.

Lemma plus_head p re prev s n :
  accepts (plus p :: re) prev s n ->
  exists c s', s = c :: s' /\ p c = true.
Proof.
  simpl. intros (k & Hlo & Hc & Hl & Hf & Hn & Hr).
  destruct k as [|k]; [lia|].
  destruct s as [|c s']; [simpl in Hl; lia|].
  simpl in Hf. apply andb_true_iff in Hf as [Hp _].
  exists c, s'. auto.
Qed.

Lemma space_like_space c :
  is_space c = true -> same_classes re_bearer 32%N c = true.
Proof.
  intros H. unfold same_classes, re_bearer, one, plus. simpl.
  rewrite H.
  assert (T : is_token c = false).
  { destruct (is_token c) eqn:E; auto. exfalso. unfold_classes. b2p; lia. }
  assert (L : forall a, is_alpha (N_of_ascii a) = true -> lit_i a c = false).
  { intros a Ha. destruct (lit_i a c) eqn:E; auto. exfalso.
    unfold lit_i, canon in E.
    destruct (is_lower c) eqn:E1; destruct (is_lower (N_of_ascii a)) eqn:E2;
      unfold_classes; b2p; lia. }
  rewrite T, !L by reflexivity. reflexivity.
Qed.

(** The first seven code units of a bearer match look like ["Bearer "] to
    the bearer pattern. *)
Lemma bearer_pre prev s n :
  match_items re_bearer prev s = Some n ->
  agree re_bearer (length (js "Bearer ")) (js "Bearer ") s.
Proof.
  intros H. apply match_sound in H. unfold re_bearer in H.
  apply one_step in H as (c1 & s1 & -> & H1 & _ & H).
  apply one_step in H as (c2 & s2 & -> & H2 & _ & H).
  apply one_step in H as (c3 & s3 & -> & H3 & _ & H).
  apply one_step in H as (c4 & s4 & -> & H4 & _ & H).
  apply one_step in H as (c5 & s5 & -> & H5 & _ & H).
  apply one_step in H as (c6 & s6 & -> & H6 & _ & H).
  apply plus_head in H as (c7 & s7 & -> & H7).
  apply lit_i_cases in H1; [|reflexivity].
  apply lit_lower_cases in H2; [|reflexivity].
  apply lit_lower_cases in H3; [|reflexivity].
  apply lit_lower_cases in H4; [|reflexivity].
  apply lit_lower_cases in H5; [|reflexivity].
  apply lit_lower_cases in H6; [|reflexivity].
  intros i Hi. simpl in Hi.
  destruct i as [|[|[|[|[|[|[|i]]]]]]]; simpl; try lia.
  - exists 66%N, c1. destruct H1 as [-> | ->]; auto.
  - exists 101%N, c2. destruct H2 as [-> | ->]; auto.
  - exists 97%N, c3. destruct H3 as [-> | ->]; auto.
  - exists 114%N, c4. destruct H4 as [-> | ->]; auto.
  - exists 101%N, c5. destruct H5 as [-> | ->]; auto.
  - exists 114%N, c6. destruct H6 as [-> | ->]; auto.
  - exists 32%N, c7. repeat split; auto. apply space_like_space; auto.
Qed.

(** *** The identifier pattern *)

Lemma hex_plain : plain re_hex = true.
Proof. reflexivity. Qed.

Lemma hex_brackets b : is_bracket b = true -> in_some_class re_hex b = false.
Proof. intros H. destruct (bracket_cases b H) as [-> | ->]; reflexivity. Qed.

Lemma hex_nil prev : match_items re_hex prev [] = None.
Proof. reflexivity. Qed.

Lemma hex_pos prev s : match_items re_hex prev s <> Some 0.
Proof. apply pos_of_first. lia. Qed.

(** *** The e-mail pattern *)

Lemma email_plain : plain re_email = true.
Proof. reflexivity. Qed.

Lemma email_brackets b : is_bracket b = true -> in_some_class re_email b = false.
Proof. intros H. destruct (bracket_cases b H) as [-> | ->]; reflexivity. Qed.

Lemma email_nil prev : match_items re_email prev [] = None.
Proof. reflexivity. Qed.

Lemma email_pos prev s : match_items re_email prev s <> Some 0.
Proof. apply pos_of_first. lia. Qed.

(** *** The address pattern *)

Lemma ip_nil prev : match_items re_ip prev [] = None.
Proof. unfold re_ip. simpl. destruct (at_boundary prev []); reflexivity. Qed.

Lemma ip_pos prev s : match_items re_ip prev s <> Some 0.
Proof.
  intros H. apply match_sound in H. simpl in H.
  destruct H as (_ & k & A & _ & _ & _ & B & _). lia.
Qed.

Lemma ip_head prev c s n :
  match_items re_ip prev (c :: s) = Some n -> is_digit c = true.
Proof.
  intros H. apply match_sound in H. simpl in H.
  destruct H as (_ & k & A & _ & _ & F & _).
  destruct k as [|k]; [lia|]. simpl in F. apply andb_true_iff in F. tauto.
Qed.

Lemma ip_before d c s n :
  match_items re_ip (Some d) (c :: s) = Some n -> is_word d = false.
Proof.
  intros H. pose proof (ip_head _ _ _ _ H) as Hd. apply digit_word in Hd.
  apply match_sound in H. simpl in H. destruct H as (B & _).
  unfold at_boundary in B. simpl in B. rewrite Hd in B.
  destruct (is_word d); simpl in B; congruence.
Qed.

(** A pattern that ends with a class of word characters and [\b]: the last
    code unit of a match is in the class, and no word character follows. *)
Lemma accepts_ends p lo hi : forall body prev s n,
  1 <= lo -> (forall c, p c = true -> is_word c = true) ->
  accepts (body ++ [Cls p lo hi; WordBoundary]) prev s n ->
  1 <= n /\ (exists c, nth_error s (n - 1) = Some c /\ p c = true) /\
  is_word_opt (nth_error s n) = false.
Proof.
  intros body prev s n Hlo Hw. revert prev s n.
  induction body as [|it body IH]; intros prev s n H.
  - simpl in H. destruct H as (k & A & _ & L & F & B & Hb & Hn).
    assert (k = n) by lia. subst k.
    destruct (forallb_firstn_nth p n s L F (n - 1)) as (c & X & Y); [lia|].
    split; [lia|]. split; [eauto|].
    unfold at_boundary, prev_after in Hb. destruct n as [|n]; [lia|].
    replace (S n - 1) with n in X by lia.
    assert (E : hd_error (skipn (S n) s) = nth_error s (S n)).
    { rewrite <- (Nat.add_0_r (S n)) at 2. rewrite <- nth_error_skipn.
      destruct (skipn (S n) s); reflexivity. }
    rewrite E, X in Hb.
    change (is_word_opt (Some c)) with (is_word c) in Hb.
    rewrite (Hw c Y) in Hb.
    destruct (is_word_opt (nth_error s (S n))); simpl in Hb; congruence.
  - destruct it as [q lo' hi'| | |]; simpl in H.
    + destruct H as (k & A & _ & L & F & B & Hr).
      apply IH in Hr as (N1 & (c & X & Y) & Z).
      rewrite nth_error_skipn in X, Z.
      replace (k + (n - k - 1)) with (n - 1) in X by lia.
      replace (k + (n - k)) with n in Z by lia.
      split; [lia|]. split; [eauto|auto].
    + destruct H as [_ H]. eauto.
    + destruct H as [_ H]. eauto.
    + destruct H as [_ H]. eauto.
Qed.

Lemma ip_ends prev s n :
  match_items re_ip prev s = Some n ->
  1 <= n /\ (exists c, nth_error s (n - 1) = Some c /\ is_word c = true) /\
  is_word_opt (nth_error s n) = false.
Proof.
  intros H. apply match_sound in H.
  change re_ip with ([ WordBoundary; Cls is_digit 1 (Some 3); one (lit ".");
                       Cls is_digit 1 (Some 3); one (lit ".");
                       Cls is_digit 1 (Some 3); one (lit ".") ] ++
                     [ Cls is_digit 1 (Some 3); WordBoundary ]) in H.
  apply accepts_ends in H; auto using digit_word.
  destruct H as (A & (c & X & Y) & Z). repeat split; auto.
  exists c. auto using digit_word.
Qed.

Lemma ip_brackets b : is_bracket b = true -> in_some_class re_ip b = false.
Proof. intros H. destruct (bracket_cases b H) as [-> | ->]; reflexivity. Qed.

(** *** Each replacement leaves nothing for its own pattern *)

Lemma bearer_self s : clean re_bearer None (replaceAll re_bearer mk_bearer s).
Proof.
  unfold replaceAll.
  change mk_bearer with (js "Bearer " ++ lbracket :: js "REDACTED]").
  apply replace_keeps_clean;
    auto using bearer_plain, bearer_brackets, bearer_nil, bearer_pos, quiet_self.
  apply bearer_pre.
Qed.

Lemma hex_self s : clean re_hex None (replaceAll re_hex mk_id s).
Proof.
  unfold replaceAll.
  change mk_id with ([] ++ lbracket :: js "REDACTED_ID]").
  apply replace_keeps_clean;
    auto using hex_plain, hex_brackets, hex_nil, hex_pos, quiet_self.
  intros. apply agree_nil.
Qed.

Lemma email_self s : clean re_email None (replaceAll re_email mk_email s).
Proof.
  unfold replaceAll.
  change mk_email with ([] ++ lbracket :: js "REDACTED_EMAIL]").
  apply replace_keeps_clean;
    auto using email_plain, email_brackets, email_nil, email_pos, quiet_self.
  intros. apply agree_nil.
Qed.

(** *** A later replacement creates no match of an earlier pattern *)

Lemma hex_keeps_bearer s :
  clean re_bearer None s -> clean re_bearer None (replaceAll re_hex mk_id s).
Proof.
  intros H. unfold replaceAll.
  change mk_id with ([] ++ lbracket :: js "REDACTED_ID]").
  apply replace_keeps_clean;
    auto using bearer_plain, bearer_brackets, bearer_nil, hex_nil, hex_pos, clean_quiet.
  intros. apply agree_nil.
Qed.

Lemma email_keeps_bearer s :
  clean re_bearer None s -> clean re_bearer None (replaceAll re_email mk_email s).
Proof.
  intros H. unfold replaceAll.
  change mk_email with ([] ++ lbracket :: js "REDACTED_EMAIL]").
  apply replace_keeps_clean;
    auto using bearer_plain, bearer_brackets, bearer_nil, email_nil, email_pos, clean_quiet.
  intros. apply agree_nil.
Qed.

Lemma ip_keeps_bearer s :
  clean re_bearer None s -> clean re_bearer None (replaceAll re_ip mk_ip s).
Proof.
  intros H. unfold replaceAll.
  change mk_ip with ([] ++ lbracket :: js "REDACTED_IP]").
  apply replace_keeps_clean;
    auto using bearer_plain, bearer_brackets, bearer_nil, ip_nil, ip_pos, clean_quiet.
  intros. apply agree_nil.
Qed.

Lemma email_keeps_hex s :
  clean re_hex None s -> clean re_hex None (replaceAll re_email mk_email s).
Proof.
  intros H. unfold replaceAll.
  change mk_email with ([] ++ lbracket :: js "REDACTED_EMAIL]").
  apply replace_keeps_clean;
    auto using hex_plain, hex_brackets, hex_nil, email_nil, email_pos, clean_quiet.
  intros. apply agree_nil.
Qed.

Lemma ip_keeps_hex s :
  clean re_hex None s -> clean re_hex None (replaceAll re_ip mk_ip s).
Proof.
  intros H. unfold replaceAll.
  change mk_ip with ([] ++ lbracket :: js "REDACTED_IP]").
  apply replace_keeps_clean;
    auto using hex_plain, hex_brackets, hex_nil, ip_nil, ip_pos, clean_quiet.
  intros. apply agree_nil.
Qed.

Lemma ip_keeps_email s :
  clean re_email None s -> clean re_email None (replaceAll re_ip mk_ip s).
Proof.
  intros H. unfold replaceAll.
  change mk_ip with ([] ++ lbracket :: js "REDACTED_IP]").
  apply replace_keeps_clean;
    auto using email_plain, email_brackets, email_nil, ip_nil, ip_pos, clean_quiet.
  intros. apply agree_nil.
Qed.

(** *** The address pattern looks at its neighbours *)

Lemma replace_go_nil re marker skip prev :
  replace_go re marker skip prev [] =
  match skip, match_items re prev [] with
  | O, Some _ => marker
  | _, _ => []
  end.
Proof. reflexivity. Qed.

Lemma replace_go_cons re marker prev c s :
  replace_go re marker 0 prev (c :: s) =
  match match_items re prev (c :: s) with
  | Some (S n) => marker ++ replace_go re marker n (Some c) s
  | Some O => marker ++ c :: replace_go re marker 0 (Some c) s
  | None => c :: replace_go re marker 0 (Some c) s
  end.
Proof. reflexivity. Qed.

Lemma replace_go_skip re marker k prev c s :
  replace_go re marker (S k) prev (c :: s) = replace_go re marker k (Some c) s.
Proof. reflexivity. Qed.

Lemma ip_transfer : forall s u p0,
  u <> [] ->
  match_items re_ip p0 (u ++ replace_go re_ip mk_ip 0 (Some (last u 0%N)) s) <> None ->
  match_items re_ip p0 (u ++ s) <> None.
Proof.
  induction s as [|c s IH]; intros u p0 Hu H.
  - rewrite replace_go_nil, ip_nil in H. auto.
  - rewrite replace_go_cons in H.
    destruct (match_items re_ip (Some (last u 0%N)) (c :: s)) as [[|n]|] eqn:E.
    + exfalso. eapply ip_pos; eauto.
    + destruct (match_items re_ip p0 (u ++ mk_ip ++ replace_go re_ip mk_ip n (Some c) s))
        as [m|] eqn:M; [|congruence].
      pose proof (ip_ends _ _ _ M) as (M1 & (x & X & Wx) & _).
      apply match_sound in M.
      change mk_ip with ([lbracket] ++ js "REDACTED_IP]") in M.
      rewrite <- app_assoc in M.
      assert (Hm : m <= length u).
      { destruct (Nat.le_gt_cases m (length u)) as [|Hlt]; auto.
        destruct (accepts_chars _ _ _ _ M (length u) Hlt) as (y & A & B).
        rewrite nth_error_app2 in A by lia. rewrite Nat.sub_diag in A. simpl in A.
        injection A as <-. discriminate. }
      destruct (Nat.eq_dec m (length u)) as [->|Hne].
      * exfalso. apply ip_before in E.
        rewrite nth_error_app1 in X by lia.
        assert (L : last u 0%N = x).
        { clear - X Hu. destruct u as [|a u] using rev_ind; [congruence|].
          rewrite last_last. rewrite length_app in X. simpl in X.
          rewrite nth_error_app2 in X by lia.
          replace (length u + 1 - 1 - length u) with 0 in X by lia.
          simpl in X. congruence. }
        congruence.
      * apply match_complete with (n := m).
        eapply accepts_local; eauto.
        intros i Hi. rewrite !nth_error_app1 by lia. auto.
    + replace (u ++ c :: replace_go re_ip mk_ip 0 (Some c) s)
        with ((u ++ [c]) ++ replace_go re_ip mk_ip 0 (Some (last (u ++ [c]) 0%N)) s) in H
        by (rewrite last_last, <- app_assoc; auto).
      apply IH in H; [|destruct u; discriminate].
      rewrite <- app_assoc in H. auto.
Qed.

Lemma ip_clean_after : forall v prev rest,
  forallb (fun c => negb (is_digit c)) v = true ->
  clean re_ip (last_seen prev v) rest ->
  clean re_ip prev (v ++ rest).
Proof.
  induction v as [|c v IH]; intros prev rest Hv Hr; simpl in *; auto.
  apply andb_true_iff in Hv as [Hc Hv]. split; auto.
  destruct (match_items re_ip prev (c :: v ++ rest)) eqn:E; auto.
  apply ip_head in E. rewrite E in Hc. discriminate.
Qed.

Lemma ip_replace_clean : forall s skip pin pout,
  (skip = 0 /\ pin = pout) \/ is_word_opt (nth_error s skip) = false ->
  clean re_ip pout (replace_go re_ip mk_ip skip pin s).
Proof.
  induction s as [|c s IH]; intros skip pin pout J.
  - rewrite replace_go_nil, ip_nil. destruct skip; split; auto using ip_nil.
  - destruct skip as [|k].
    + rewrite replace_go_cons. destruct J as [[_ <-]|J].
      * destruct (match_items re_ip pin (c :: s)) as [[|n]|] eqn:E.
        -- exfalso. eapply ip_pos; eauto.
        -- apply ip_clean_after; [reflexivity|].
           apply IH. right.
           apply ip_ends in E as (_ & _ & Z). auto.
        -- split; [|apply IH; auto].
           destruct (match_items re_ip pin (c :: replace_go re_ip mk_ip 0 (Some c) s))
             eqn:M; auto.
           exfalso.
           assert (X : match_items re_ip pin
                         ([c] ++ replace_go re_ip mk_ip 0 (Some (last [c] 0%N)) s) <> None)
             by (cbn [app last]; congruence).
           apply ip_transfer in X; [|discriminate]. cbn [app] in X. auto.
      * cbn [nth_error is_word_opt] in J.
        assert (D : is_digit c = false).
        { destruct (is_digit c) eqn:D; auto. apply digit_word in D. congruence. }
        assert (N1 : forall p t, match_items re_ip p (c :: t) = None).
        { intros p t. destruct (match_items re_ip p (c :: t)) eqn:E; auto.
          apply ip_head in E. congruence. }
        rewrite N1. split; [apply N1|apply IH; auto].
    + rewrite replace_go_skip. apply IH. right.
      destruct J as [[? _]|J]; [discriminate|auto].
Qed.

Lemma ip_self s : clean re_ip None (replaceAll re_ip mk_ip s).
Proof. apply ip_replace_clean. auto. Qed.

(** *** The four replacements are idempotent together *)

Lemma redact_clean x :
  clean re_bearer None (redact x) /\ clean re_hex None (redact x) /\
  clean re_email None (redact x) /\ clean re_ip None (redact x).
Proof.
  unfold redact. repeat split.
  - apply ip_keeps_bearer, email_keeps_bearer, hex_keeps_bearer, bearer_self.
  - apply ip_keeps_hex, email_keeps_hex, hex_self.
  - apply ip_keeps_email, email_self.
  - apply ip_self.
Qed.

Lemma redact_idempotent x : redact (redact x) = redact x.
Proof.
  destruct (redact_clean x) as (A & B & C & D).
  unfold redact at 1. unfold replaceAll.
  rewrite (clean_identity re_bearer mk_bearer None _ A).
  rewrite (clean_identity re_hex mk_id None _ B).
  rewrite (clean_identity re_email mk_email None _ C).
  rewrite (clean_identity re_ip mk_ip None _ D).
  reflexivity.
Qed.

Theorem sanitize_idempotent x :
  length (redact x) <= 200 ->
  sanitizeErrorMessage (sanitizeErrorMessage x) = sanitizeErrorMessage x.
Proof.
  intros H. unfold sanitizeErrorMessage.
  assert (E : (200 <? length (redact x)) = false) by (apply Nat.ltb_ge; auto).
  cbv zeta. rewrite E. rewrite redact_idempotent. rewrite E. reflexivity.
Qed.

Lemma cu_eqb_eq a b : cu_eqb a b = true <-> a = b.
Proof. apply N.eqb_eq. Qed.

Lemma js_eqb_eq : forall a b, js_eqb a b = true <-> a = b.
Proof.
  induction a as [|x a IH]; destruct b as [|y b]; simpl; split; intros H;
    try discriminate; auto.
  - apply andb_true_iff in H as [H1 H2]. apply cu_eqb_eq in H1. apply IH in H2.
    congruence.
  - injection H as -> ->. apply andb_true_iff. split.
    + apply cu_eqb_eq. auto.
    + apply IH. auto.
Qed.

Lemma js_eqb_refl a : js_eqb a a = true.
Proof. apply js_eqb_eq. auto. Qed.

(** ** The pattern of the identifier schemas *)

Lemma id_regex_after_start c s : test_from CLOUDFLARE_ID_REGEX (Some c) s = false.
Proof.
  revert c. induction s as [|d s IH]; intros c; simpl; auto.
Qed.

Lemma id_regex_test s :
  regex_test CLOUDFLARE_ID_REGEX s = true <->
  match_items CLOUDFLARE_ID_REGEX None s <> None.
Proof.
  unfold regex_test. destruct s as [|c s]; cbn [test_from].
  - destruct (match_items CLOUDFLARE_ID_REGEX None []); split; congruence.
  - rewrite id_regex_after_start.
    destruct (match_items CLOUDFLARE_ID_REGEX None (c :: s)); split; congruence.
Qed.

Lemma id_regex_match s :
  match_items CLOUDFLARE_ID_REGEX None s <> None <->
  length s = 32 /\ forallb is_hex_lower s = true.
Proof.
  split.
  - intros H. destruct (match_items CLOUDFLARE_ID_REGEX None s) as [n|] eqn:E;
      [|congruence].
    apply match_sound in E. simpl in E.
    destruct E as (_ & k & A & B & C & D & _ & F & _).
    apply Nat.leb_le in B. assert (k = 32) by lia. subst k.
    assert (L : length (skipn 32 s) = 0) by (rewrite F; reflexivity).
    rewrite length_skipn in L. assert (L' : length s = 32) by lia.
    split; auto. rewrite <- L', firstn_all in D. auto.
  - intros [L F]. apply match_complete with (n := 32). simpl.
    split; auto. exists 32. repeat split; auto; try lia.
    + rewrite <- L, firstn_all. auto.
    + apply length_zero_iff_nil. rewrite length_skipn. lia.
Qed.

Lemma cloudflareIdSchema_iff input :
  cloudflareIdSchema input = true <->
  length input = 32 /\ forallb is_hex_lower input = true.
Proof.
  unfold cloudflareIdSchema. rewrite id_regex_test. apply id_regex_match.
Qed.

(** ** Building a path *)

Lemma encode_unreserved : forall s,
  forallb is_unreserved s = true -> encodeURIComponent s = Ok s.
Proof.
  induction s as [|c s IH]; intros H; [reflexivity|].
  simpl in H. apply andb_true_iff in H as [Hc H].
  cbn [encodeURIComponent]. rewrite Hc, IH; auto.
Qed.

Lemma hex_lower_unreserved c : is_hex_lower c = true -> is_unreserved c = true.
Proof.
  intros H. unfold is_unreserved.
  assert (A : is_alnum c = true); [|rewrite A; reflexivity].
  destruct (is_alnum c) eqn:E; auto. exfalso. unfold_classes. b2p; lia.
Qed.

Lemma encode_identifier ident :
  cloudflareIdSchema ident = true -> encodeURIComponent ident = Ok ident.
Proof.
  intros H. apply cloudflareIdSchema_iff in H as [_ H].
  apply encode_unreserved. apply forallb_forall. intros c Hc.
  rewrite forallb_forall in H. auto using hex_lower_unreserved.
Qed.

Lemma encode_throws : forall n s e,
  length s <= n -> encodeURIComponent s = Throw e -> e = URIError.
Proof.
  induction n as [|n IH]; intros s e L E.
  - destruct s; [discriminate|simpl in L; lia].
  - destruct s as [|c s]; [discriminate|].
    simpl in L. cbn [encodeURIComponent] in E.
    destruct (is_unreserved c).
    + destruct (encodeURIComponent s) as [r|e0] eqn:R; [discriminate|].
      injection E as <-. apply (IH s); auto. lia.
    + destruct (is_low_surrogate c); [congruence|].
      destruct (is_high_surrogate c).
      * destruct s as [|d s]; [congruence|].
        destruct (is_low_surrogate d); [|congruence].
        unfold escaped in E.
        destruct (encodeURIComponent s) as [r|e0] eqn:R; [discriminate|].
        injection E as <-. apply (IH s); auto. simpl in L. lia.
      * unfold escaped in E.
        destruct (encodeURIComponent s) as [r|e0] eqn:R; [discriminate|].
        injection E as <-. apply (IH s); auto. lia.
Qed.

Lemma encodable_identifier ident :
  cloudflareIdSchema ident = true -> encodable ident = true.
Proof. intros H. unfold encodable. rewrite encode_identifier; auto. Qed.

Lemma not_encodable s : encodable s = false -> encodeURIComponent s = Throw URIError.
Proof.
  unfold encodable. destruct (encodeURIComponent s) as [r|e] eqn:E; [discriminate|].
  intros _. f_equal. apply (encode_throws (length s) s e); auto.
Qed.

Lemma encodable_custom_phase : encodable custom_phase = true.
Proof. vm_compute. reflexivity. Qed.

Ltac encode_cases :=
  repeat match goal with
         | |- context [encodeURIComponent ?s] =>
             let E := fresh "E" in
             destruct (encodeURIComponent s) eqn:E;
             [|apply (encode_throws (length s)) in E; [subst|auto]]
         end.

(** A path is built exactly when its identifiers can be encoded; otherwise
    building it raises the URIError. *)
Lemma endpoint_path_built endpoint :
  buildable endpoint = true -> exists p, endpoint_path endpoint = Ok p.
Proof.
  destruct endpoint; unfold buildable, encodable; cbn [endpoint_path template];
    encode_cases; cbn [template andb]; intros H; try discriminate; eauto.
Qed.

Lemma endpoint_path_malformed endpoint :
  buildable endpoint = false -> endpoint_path endpoint = Throw URIError.
Proof.
  destruct endpoint; unfold buildable, encodable; cbn [endpoint_path template];
    encode_cases; cbn [template andb]; intros H; try discriminate; reflexivity.
Qed.

Lemma path_run {World : Type} endpoint (st : Net World) :
  path endpoint st =
  if buildable endpoint then (Ok endpoint, st) else (Throw URIError, st).
Proof.
  unfold path. destruct (buildable endpoint) eqn:B.
  - destruct (endpoint_path_built _ B) as [p ->]. reflexivity.
  - rewrite (endpoint_path_malformed _ B). reflexivity.
Qed.

Lemma buildable_identifiers zoneId rulesetId ruleId :
  zoneIdSchema zoneId && rulesetIdSchema rulesetId && ruleIdSchema ruleId = true ->
  buildable (EpRule zoneId rulesetId ruleId) = true.
Proof.
  intros H. apply andb_true_iff in H as [H U]. apply andb_true_iff in H as [Z R].
  unfold zoneIdSchema, rulesetIdSchema, ruleIdSchema in *. cbn [buildable].
  rewrite !encodable_identifier by assumption. reflexivity.
Qed.

(** ** The client against an arbitrary provider *)

Section ClientFacts.

Variable World : Type.
Variable rest_fetch :
  RestRequest -> World -> Result (CloudflareApiResponse Ruleset) * World.
Variable graphql_fetch :
  GraphqlRequest -> World -> Result (GraphqlBody SummaryData) * World.
Variable accessToken : jsstring.

Lemma request_run endpoint method body st :
request rest_fetch accessToken endpoint method body st =
match rest_fetch (rest_call accessToken endpoint method body) (world st) with
| (Ok data, w) =>
    if success data
    then (Ok data, after_rest st (rest_call accessToken endpoint method body) w)
    else (Throw (rest_failure (errors data)),
          after_rest st (rest_call accessToken endpoint method body) w)
| (Throw e, w) =>
    (Throw e, after_rest st (rest_call accessToken endpoint method body) w)
  end.
Proof.
unfold request, bind, fetch_rest.
destruct (rest_fetch _ (world st)) as [[data|e] w]; auto.
destruct (success data); reflexivity.
Qed.

Lemma graphqlRequest_run query zoneTag t0 t1 st :
graphqlRequest graphql_fetch accessToken query zoneTag t0 t1 st =
match graphql_fetch (graphql_call accessToken query zoneTag t0 t1) (world st) with
| (Ok data, w) =>
    match gql_errors data with
    | Some (e :: es) =>
        (Throw (graphql_failure (e :: es)),
         after_graphql st (graphql_call accessToken query zoneTag t0 t1) w)
    | _ => (Ok (gql_data data),
            after_graphql st (graphql_call accessToken query zoneTag t0 t1) w)
      end
| (Throw e, w) =>
    (Throw e, after_graphql st (graphql_call accessToken query zoneTag t0 t1) w)
  end.
Proof.
unfold graphqlRequest, bind, fetch_graphql.
destruct (graphql_fetch _ (world st)) as [[data|e] w]; auto.
destruct (gql_errors data) as [[|m ms]|]; reflexivity.
Qed.


Lemma getEntryPointRuleset_run zoneId phase st :
getEntryPointRuleset rest_fetch accessToken zoneId phase st =
if buildable (EpEntrypoint zoneId phase) then
  match request rest_fetch accessToken (EpEntrypoint zoneId phase) GET NoBody st with
  | (Ok response, st') => (Ok (result response), st')
  | (Throw e, st') => (Throw e, st')
  end
else (Throw URIError, st).
Proof.
unfold getEntryPointRuleset. unfold bind at 1. rewrite path_run.
destruct (buildable (EpEntrypoint zoneId phase)); [|reflexivity].
unfold bind, ret.
destruct (request rest_fetch accessToken (EpEntrypoint zoneId phase) GET NoBody st)
  as [[d|e] st']; reflexivity.
Qed.

Lemma createCustomRule_run zoneId rule st :
createCustomRule rest_fetch accessToken zoneId rule st =
if encodable zoneId then
  match request rest_fetch accessToken (EpEntrypoint zoneId custom_phase) GET NoBody st
  with
  | (Ok ruleset, st1) =>
      append_step rest_fetch accessToken zoneId rule (rs_id (result ruleset)) st1
  | (Throw error, st1) =>
      if signals_absent error then
        match request rest_fetch accessToken (EpRulesets zoneId) POST
                (BodyNewRuleset (js "Custom Firewall Rules") (js "zone") custom_phase [])
                st1
        with
        | (Ok newRuleset, st2) =>
            append_step rest_fetch accessToken zoneId rule (rs_id (result newRuleset)) st2
        | (Throw e, st2) => (Throw e, st2)
        end
      else (Throw error, st1)
  end
else (Throw URIError, st).
Proof.
assert (A : forall rid s0,
           (endpoint <- path (EpRules zoneId rid) ;;
            response <- request rest_fetch accessToken endpoint POST (BodyRule rule) ;;
            ret (js_index (rules (result response))
                          (Z.of_nat (length (rules (result response))) - 1))) s0 =
           append_step rest_fetch accessToken zoneId rule rid s0).
{ intros rid s0. unfold append_step. unfold bind at 1. rewrite path_run.
  destruct (buildable (EpRules zoneId rid)); [|reflexivity].
  unfold bind, ret.
  destruct (request rest_fetch accessToken (EpRules zoneId rid) POST (BodyRule rule) s0)
    as [[d|e] s1]; reflexivity. }
unfold createCustomRule. unfold bind at 1. unfold try_catch. unfold bind at 1.
rewrite getEntryPointRuleset_run. cbn [buildable].
rewrite encodable_custom_phase, andb_true_r.
destruct (encodable zoneId) eqn:Z; [|reflexivity].
destruct (request rest_fetch accessToken (EpEntrypoint zoneId custom_phase) GET NoBody st)
  as [[d1|e1] st1]; cbv beta iota zeta.
- unfold ret at 1. apply A.
- destruct (signals_absent e1); [|reflexivity].
  unfold bind at 1. rewrite path_run. cbn [buildable]. rewrite Z.
  unfold bind at 1.
  destruct (request rest_fetch accessToken (EpRulesets zoneId) POST _ st1)
    as [[d2|e2] st2]; [|reflexivity].
  unfold ret at 1. apply A.
Qed.



Lemma updateCustomRule_run zoneId rulesetId ruleId updates st :
updateCustomRule rest_fetch accessToken zoneId rulesetId ruleId updates st =
if buildable (EpRule zoneId rulesetId ruleId) then
  match request rest_fetch accessToken (EpRule zoneId rulesetId ruleId) PATCH
          (BodyUpdates updates) st
  with
  | (Ok response, st') =>
      match find (fun r => js_eqb (id r) ruleId) (rules (result response)) with
      | None => (Throw {| error_message := js "Updated rule not found in response" |}, st')
      | Some updatedRule => (Ok updatedRule, st')
      end
  | (Throw e, st') => (Throw e, st')
  end
else (Throw URIError, st).
Proof.
unfold updateCustomRule. unfold bind at 1. rewrite path_run.
destruct (buildable (EpRule zoneId rulesetId ruleId)); [|reflexivity].
unfold bind, ret, throw.
destruct (request rest_fetch accessToken (EpRule zoneId rulesetId ruleId) PATCH
            (BodyUpdates updates) st) as [[d|e] st']; [|reflexivity].
destruct (find _ (rules (result d))); reflexivity.
Qed.

Lemma deleteCustomRule_run zoneId rulesetId ruleId st :
deleteCustomRule rest_fetch accessToken zoneId rulesetId ruleId st =
if buildable (EpRule zoneId rulesetId ruleId) then
  match request rest_fetch accessToken (EpRule zoneId rulesetId ruleId) DELETE NoBody st
  with
  | (Ok response, st') => (Ok tt, st')
  | (Throw e, st') => (Throw e, st')
  end
else (Throw URIError, st).
Proof.
unfold deleteCustomRule. unfold bind at 1. rewrite path_run.
destruct (buildable (EpRule zoneId rulesetId ruleId)); [|reflexivity].
unfold bind, ret.
destruct (request rest_fetch accessToken (EpRule zoneId rulesetId ruleId) DELETE
            NoBody st) as [[d|e] st']; reflexivity.
Qed.

End ClientFacts.

(** ** Lists *)

Lemma find_app {A} (f : A -> bool) l l' :
  find f (l ++ l') = match find f l with
                     | Some x => Some x
                     | None => find f l'
                     end.
Proof.
  induction l as [|a l IH]; simpl; auto. destruct (f a); auto.
Qed.

Lemma find_none_filter {A} (f : A -> bool) l :
  find f l = None <-> filter f l = [].
Proof.
  induction l as [|a l IH]; simpl; [tauto|].
  destruct (f a); [split; discriminate|auto].
Qed.

Lemma find_in_some {A} (f : A -> bool) l x :
  In x l -> f x = true -> exists y, find f l = Some y.
Proof.
  induction l as [|a l IH]; simpl; [tauto|].
  intros [->|Hin] Hx.
  - rewrite Hx. eauto.
  - destruct (f a); eauto.
Qed.

Lemma filter_map_same {A} (p : A -> bool) (g : A -> A) l :
  (forall x, p (g x) = p x) -> filter p (map g l) = map g (filter p l).
Proof.
  intros H. induction l as [|a l IH]; simpl; auto.
  rewrite H. destruct (p a); simpl; congruence.
Qed.

Lemma find_map_same {A} (p : A -> bool) (g : A -> A) l :
  (forall x, p (g x) = p x) -> find p (map g l) = option_map g (find p l).
Proof.
  intros H. induction l as [|a l IH]; simpl; auto.
  rewrite H. destruct (p a); simpl; congruence.
Qed.

Lemma js_index_last {A} (l : list A) x :
  js_index (l ++ [x]) (Z.of_nat (length (l ++ [x])) - 1) = Some x.
Proof.
  unfold js_index. rewrite length_app. simpl.
  replace (Z.of_nat (length l + 1) - 1)%Z with (Z.of_nat (length l)) by lia.
  destruct (Z.of_nat (length l) <? 0)%Z eqn:E; [apply Z.ltb_lt in E; lia|].
  rewrite Nat2Z.id. rewrite nth_error_app2 by lia. rewrite Nat.sub_diag. reflexivity.
Qed.

(** ** The reference provider *)

Lemma is_entrypoint_update zoneId phase z rid f e :
  (forall rs, rs_phase (f rs) = rs_phase rs) ->
  is_entrypoint zoneId phase
    (if is_ruleset z rid e then (fst e, f (snd e)) else e) =
  is_entrypoint zoneId phase e.
Proof.
  intros H. destruct (is_ruleset z rid e); auto.
  unfold is_entrypoint. simpl. rewrite H. auto.
Qed.

Lemma entrypoints_update_length zoneId phase z rid f l n n' :
  (forall rs, rs_phase (f rs) = rs_phase rs) ->
  length (entrypoints zoneId phase {| stored := update_ruleset z rid f l; next_id := n |}) =
  length (entrypoints zoneId phase {| stored := l; next_id := n' |}).
Proof.
  intros H. unfold entrypoints, update_ruleset. simpl.
  rewrite filter_map_same by (intros; apply is_entrypoint_update; auto).
  rewrite !length_map. auto.
Qed.

Lemma append_rule_phase r rs : rs_phase (append_rule r rs) = rs_phase rs.
Proof. reflexivity. Qed.

Section ProviderFacts.

Variable absent : list CloudflareApiError.
Variable mk_id : nat -> jsstring.
Variable accessToken : jsstring.

Let step := provider_step absent mk_id.

Lemma rules_path_buildable zoneId rid :
encodable zoneId = true -> encodable rid = true ->
buildable (EpRules zoneId rid) = true.
Proof. intros Z R. cbn [buildable]. rewrite Z, R. reflexivity. Qed.

Lemma append_step_found zoneId rule rid p log e :
buildable (EpRules zoneId rid) = true ->
find (is_ruleset zoneId rid) (stored p) = Some e ->
append_step step accessToken zoneId rule rid {| world := p; calls := log |} =
(Ok (Some (new_rule mk_id (next_id p) rule)),
 {| world := {| stored := update_ruleset zoneId rid
                            (append_rule (new_rule mk_id (next_id p) rule)) (stored p);
                next_id := S (next_id p) |};
    calls := log ++ [post_rule accessToken zoneId rid rule] |}).
Proof.
intros B F. unfold append_step. rewrite B, request_run.
unfold step, provider_step. cbn [rest_call req_method req_endpoint req_body world].
rewrite F. cbn [replied success result append_rule with_rules rules].
rewrite js_index_last. reflexivity.
Qed.

(** A rule POST keeps the number of entry points of every zone and phase. *)
Lemma append_step_keeps_invariant zoneId rule rid st :
at_most_one_entrypoint (world st) ->
at_most_one_entrypoint (world (snd (append_step step accessToken zoneId rule rid st))).
Proof.
intros Inv. unfold append_step.
destruct (buildable (EpRules zoneId rid)); [|exact Inv].
rewrite request_run. unfold step, provider_step.
cbn [rest_call req_method req_endpoint req_body].
destruct (find (is_ruleset zoneId rid) (stored (world st))) as [e|] eqn:F.
- cbn [replied success snd after_rest world]. intros z ph.
  rewrite (entrypoints_update_length z ph zoneId _ _ (stored (world st)) _
             (next_id (world st)))
    by (intros; apply append_rule_phase).
  destruct (world st); apply Inv.
- cbn [refused success snd after_rest world]. exact Inv.
Qed.

(** The zone has no entry point and the client recognises the provider's
  wording: one ruleset is created and the rule is appended to it. *)
Lemma createCustomRule_fresh zoneId rule p log :
encodable zoneId = true -> encodable (mk_id (next_id p)) = true ->
signals_absent (rest_failure absent) = true ->
find (is_entrypoint zoneId custom_phase) (stored p) = None ->
createCustomRule step accessToken zoneId rule {| world := p; calls := log |} =
(Ok (Some (new_rule mk_id (S (next_id p)) rule)),
 {| world :=
      {| stored := update_ruleset zoneId (mk_id (next_id p))
                     (append_rule (new_rule mk_id (S (next_id p)) rule))
                     (stored p ++ [(zoneId, created mk_id p)]);
         next_id := S (S (next_id p)) |};
    calls := log ++ [get_entrypoint accessToken zoneId; post_ruleset accessToken zoneId;
                     post_rule accessToken zoneId (mk_id (next_id p)) rule] |}).
Proof.
intros Z I Hs F. rewrite createCustomRule_run, Z. rewrite request_run.
unfold step at 1, provider_step.
cbn [rest_call req_method req_endpoint req_body world].
rewrite F. cbn [refused success errors]. rewrite Hs.
rewrite request_run. unfold step at 1, provider_step.
cbn [rest_call req_method req_endpoint req_body world after_rest calls new_rules
     replied success result rs_id length].
rewrite Nat.add_0_r.
assert (X : exists e, find (is_ruleset zoneId (mk_id (next_id p)))
                           (stored p ++ [(zoneId, created mk_id p)]) = Some e).
{ apply find_in_some with (x := (zoneId, created mk_id p)).
  - apply in_or_app. right. simpl. auto.
  - unfold is_ruleset. simpl. rewrite !js_eqb_refl. auto. }
destruct X as [e X].
unfold after_rest. cbn [calls world]. fold (created mk_id p).
rewrite (append_step_found zoneId rule (mk_id (next_id p))
           {| stored := stored p ++ [(zoneId, created mk_id p)]; next_id := S (next_id p) |}
           _ e (rules_path_buildable _ _ Z I) X).
cbn [stored next_id]. rewrite <- !app_assoc. reflexivity.
Qed.

(** The zone has an entry point: the rule is appended to it, nothing is
  created. *)
Lemma createCustomRule_existing zoneId rule p log e :
encodable zoneId = true -> encodable (rs_id (snd e)) = true ->
find (is_entrypoint zoneId custom_phase) (stored p) = Some e ->
createCustomRule step accessToken zoneId rule {| world := p; calls := log |} =
(Ok (Some (new_rule mk_id (next_id p) rule)),
 {| world :=
      {| stored := update_ruleset zoneId (rs_id (snd e))
                     (append_rule (new_rule mk_id (next_id p) rule)) (stored p);
         next_id := S (next_id p) |};
    calls := log ++ [get_entrypoint accessToken zoneId; post_rule accessToken zoneId (rs_id (snd e)) rule] |}).
Proof.
intros Z I F. rewrite createCustomRule_run, Z. rewrite request_run.
unfold step at 1, provider_step.
cbn [rest_call req_method req_endpoint req_body world].
rewrite F. cbn [replied success result].
assert (X : exists e', find (is_ruleset zoneId (rs_id (snd e))) (stored p) = Some e').
{ pose proof (find_some _ _ F) as [Hin He].
  apply find_in_some with (x := e); auto.
  unfold is_entrypoint in He. apply andb_true_iff in He as [Hz _].
  unfold is_ruleset. rewrite Hz, js_eqb_refl. auto. }
destruct X as [e' X].
unfold after_rest. cbn [calls world].
rewrite (append_step_found zoneId rule (rs_id (snd e)) p _ e' (rules_path_buildable _ _ Z I) X).
rewrite <- !app_assoc. reflexivity.
Qed.

(** The provider words absence in a way the client does not recognise: the
  failure is passed on and nothing is created. *)
Lemma createCustomRule_unrecognised zoneId rule p log :
encodable zoneId = true ->
signals_absent (rest_failure absent) = false ->
find (is_entrypoint zoneId custom_phase) (stored p) = None ->
createCustomRule step accessToken zoneId rule {| world := p; calls := log |} =
(Throw (rest_failure absent),
 {| world := p; calls := log ++ [get_entrypoint accessToken zoneId] |}).
Proof.
intros Z Hs F. rewrite createCustomRule_run, Z. rewrite request_run.
unfold step at 1, provider_step.
cbn [rest_call req_method req_endpoint req_body world].
rewrite F. cbn [refused success errors]. rewrite Hs. reflexivity.
Qed.

(** Whatever the identifiers, a call leaves at most one entry point per zone
  and phase: the entry-point GET of this provider fails only when the zone
  has none. *)
Lemma createCustomRule_keeps_invariant zoneId rule p log :
at_most_one_entrypoint p ->
at_most_one_entrypoint
  (world (snd (createCustomRule step accessToken zoneId rule
                 {| world := p; calls := log |}))).
Proof.
intros Inv. rewrite createCustomRule_run.
destruct (encodable zoneId); [|exact Inv].
rewrite request_run. unfold step at 1, provider_step.
cbn [rest_call req_method req_endpoint req_body world].
destruct (find (is_entrypoint zoneId custom_phase) (stored p)) as [e|] eqn:F.
- cbn [replied success]. apply append_step_keeps_invariant. exact Inv.
- cbn [refused success errors].
  destruct (signals_absent (rest_failure absent)); [|exact Inv].
  rewrite request_run. unfold step at 1, provider_step.
  cbn [rest_call req_method req_endpoint req_body world after_rest replied success].
  apply append_step_keeps_invariant. cbn [world after_rest].
  intros z ph. unfold entrypoints. cbn [stored].
  rewrite filter_app, map_app, length_app. cbn [filter].
  match goal with
  | |- context [is_entrypoint z ph ?x] => destruct (is_entrypoint z ph x) eqn:X
  end.
  + unfold is_entrypoint in X. cbn [fst snd rs_phase] in X.
    apply andb_true_iff in X as [X1 X2].
    apply js_eqb_eq in X1, X2. subst z ph.
    apply find_none_filter in F. rewrite F. simpl. lia.
  + pose proof (Inv z ph) as I. unfold entrypoints in I. simpl. lia.
Qed.

End ProviderFacts.

(** ** Claims *)

(* ---------- C1 ---------- *)

Lemma entrypoints_nil_find zoneId phase p :
  entrypoints zoneId phase p = [] ->
  find (is_entrypoint zoneId phase) (stored p) = None.
Proof.
  unfold entrypoints. intros H. apply find_none_filter.
  destruct (filter (is_entrypoint zoneId phase) (stored p)); [auto|discriminate].
Qed.

Lemma entrypoints_created mk_id zoneId r p :
  entrypoints zoneId custom_phase p = [] ->
  entrypoints zoneId custom_phase
    {| stored := update_ruleset zoneId (mk_id (next_id p)) (append_rule r)
                   (stored p ++ [(zoneId, created mk_id p)]);
       next_id := S (S (next_id p)) |} =
  [append_rule r (created mk_id p)].
Proof.
  unfold entrypoints, update_ruleset. cbn [stored]. intros H.
  rewrite filter_map_same
    by (intros; apply is_entrypoint_update; intros; apply append_rule_phase).
  rewrite filter_app.
  assert (E : filter (is_entrypoint zoneId custom_phase) (stored p) = []).
  { destruct (filter (is_entrypoint zoneId custom_phase) (stored p)); [auto|discriminate]. }
  rewrite E. cbn [app filter].
  assert (X : is_entrypoint zoneId custom_phase (zoneId, created mk_id p) = true).
  { unfold is_entrypoint. cbn [fst snd created rs_phase]. rewrite !js_eqb_refl. auto. }
  rewrite X. cbn [map snd fst].
  unfold is_ruleset. cbn [fst snd created rs_id]. rewrite !js_eqb_refl. reflexivity.
Qed.

(** C1 (amended): on a zone that has no entry-point ruleset for the custom
    phase, and whose absence the client recognises (the failure message of the
    entry-point fetch contains "404" or "not found"), [createCustomRule] sends
    one ruleset creation for that phase and then one rule append to it; a
    second call appends to the same ruleset, so the zone ends with one
    ruleset holding the two rules. This is for a zone identifier and a
    ruleset identifier that can be encoded into the paths (otherwise the
    call raises the URIError where it builds the path). Against this
    provider, whose entry-point GET fails only when the zone has no entry
    point, every call, whatever its identifiers, keeps at most one
    entry-point ruleset per zone and phase. *)
Theorem createCustomRule_creates_entrypoint_once
        (absent : list CloudflareApiError) (mk_id : nat -> jsstring)
        (accessToken : jsstring) :
  (forall zoneId rule1 rule2 p log,
      encodable zoneId = true ->
      encodable (mk_id (next_id p)) = true ->
      signals_absent (rest_failure absent) = true ->
      entrypoints zoneId custom_phase p = [] ->
      let step := provider_step absent mk_id in
      let run1 := createCustomRule step accessToken zoneId rule1
                    {| world := p; calls := log |} in
      let run2 := createCustomRule step accessToken zoneId rule2 (snd run1) in
      let r1 := new_rule mk_id (S (next_id p)) rule1 in
      let r2 := new_rule mk_id (S (S (next_id p))) rule2 in
      fst run1 = Ok (Some r1) /\
      calls (snd run1) =
        log ++ [ get_entrypoint accessToken zoneId;
                 post_ruleset accessToken zoneId;
                 post_rule accessToken zoneId (mk_id (next_id p)) rule1 ] /\
      entrypoints zoneId custom_phase (world (snd run1)) =
        [ with_rules (created mk_id p) [r1] ] /\
      fst run2 = Ok (Some r2) /\
      calls (snd run2) =
        calls (snd run1) ++
        [ get_entrypoint accessToken zoneId;
          post_rule accessToken zoneId (mk_id (next_id p)) rule2 ] /\
      entrypoints zoneId custom_phase (world (snd run2)) =
        [ with_rules (created mk_id p) [r1; r2] ]) /\
  (forall zoneId rule p log,
      at_most_one_entrypoint p ->
      at_most_one_entrypoint
        (world (snd (createCustomRule (provider_step absent mk_id) accessToken
                       zoneId rule {| world := p; calls := log |})))).
Proof.
  split; [|intros; apply createCustomRule_keeps_invariant; auto].
  intros zoneId rule1 rule2 p log Z I Hs Hfresh step run1 run2 r1 r2.
  pose proof (entrypoints_nil_find _ _ _ Hfresh) as F.
  pose proof (createCustomRule_fresh absent mk_id accessToken zoneId rule1 p log Z I Hs F)
    as E1.
  fold step in E1. fold run1 in E1. fold r1 in E1.
  pose proof (entrypoints_created mk_id zoneId r1 p Hfresh) as P1.
  assert (W1 : entrypoints zoneId custom_phase (world (snd run1)) =
               [with_rules (created mk_id p) [r1]]).
  { rewrite E1. cbn [snd world]. rewrite P1. reflexivity. }
  assert (F1 : find (is_entrypoint zoneId custom_phase) (stored (world (snd run1))) =
               Some (zoneId, with_rules (created mk_id p) [r1])).
  { rewrite E1. cbn [snd world stored]. unfold update_ruleset. rewrite map_app.
    rewrite find_app.
    rewrite find_map_same
      by (intros; apply is_entrypoint_update; intros; apply append_rule_phase).
    rewrite F. cbn [option_map map find].
    unfold is_ruleset at 1 2. cbn [fst snd created rs_id]. rewrite !js_eqb_refl.
    cbn [andb]. unfold is_entrypoint.
    cbn [fst snd append_rule with_rules created rs_phase]. rewrite !js_eqb_refl.
    reflexivity. }
  assert (S1 : snd run1 = {| world := world (snd run1); calls := calls (snd run1) |})
    by (destruct (snd run1); reflexivity).
  pose proof (createCustomRule_existing absent mk_id accessToken zoneId rule2
                (world (snd run1)) (calls (snd run1))
                (zoneId, with_rules (created mk_id p) [r1]) Z I F1) as E2.
  rewrite <- S1 in E2. fold step in E2. fold run2 in E2.
  assert (N1 : next_id (world (snd run1)) = S (S (next_id p)))
    by (rewrite E1; reflexivity).
  rewrite N1 in E2. fold r2 in E2.
  repeat split.
  - rewrite E1. reflexivity.
  - rewrite E1. reflexivity.
  - exact W1.
  - rewrite E2. reflexivity.
  - rewrite E2. reflexivity.
  - rewrite E2. cbn [snd world fst with_rules created rs_id].
    unfold entrypoints in *. cbn [stored]. unfold update_ruleset.
    rewrite filter_map_same
      by (intros; apply is_entrypoint_update; intros; apply append_rule_phase).
    rewrite map_map.
    apply map_eq_cons in W1 as (e & l & A & B & C).
    apply map_eq_nil in C. subst l. rewrite A. cbn [map].
    assert (Y : In e (filter (is_entrypoint zoneId custom_phase)
                        (stored (world (snd run1))))) by (rewrite A; simpl; auto).
    apply filter_In in Y as [_ Y]. unfold is_entrypoint in Y.
    apply andb_true_iff in Y as [Z1 _].
    unfold is_ruleset. rewrite Z1, B. cbn [with_rules rs_id created andb].
    rewrite js_eqb_refl. reflexivity.
Qed.

(** A provider that reports a missing entry point as "ruleset not found", an
    empty zone, two rules. *)
Lemma createCustomRule_creates_entrypoint_once_witness :
  encodable zone0 = true /\
  encodable (unary_id (next_id empty_provider)) = true /\
  signals_absent (rest_failure says_not_found) = true /\
  entrypoints zone0 custom_phase empty_provider = [] /\
  let step := provider_step says_not_found unary_id in
  let run1 := createCustomRule step token0 zone0 rule_a
                {| world := empty_provider; calls := [] |} in
  let run2 := createCustomRule step token0 zone0 rule_b (snd run1) in
  entrypoints zone0 custom_phase (world (snd run2)) =
  [ with_rules (created unary_id empty_provider)
      [ new_rule unary_id 1 rule_a; new_rule unary_id 2 rule_b ] ].
Proof.
  split; [vm_compute; reflexivity|].
  split; [vm_compute; reflexivity|].
  split; [vm_compute; reflexivity|].
  split; [reflexivity|].
  apply (proj1 (createCustomRule_creates_entrypoint_once says_not_found unary_id token0)
               zone0 rule_a rule_b empty_provider []).
  - vm_compute. reflexivity.
  - vm_compute. reflexivity.
  - vm_compute. reflexivity.
  - reflexivity.
Defined.

(** C1 as stated fails where the provider words the absence differently: the
    zone has no entry point, yet the call creates nothing and appends
    nothing. *)
Lemma createCustomRule_unrecognised_absence_creates_nothing :
  let run := createCustomRule (provider_step says_could_not_find unary_id) token0 zone0
               rule_a {| world := empty_provider; calls := [] |} in
  entrypoints zone0 custom_phase empty_provider = [] /\
  fst run =
    Throw {| error_message :=
               js "Cloudflare API error: could not find entrypoint ruleset" |} /\
  calls (snd run) = [ get_entrypoint token0 zone0 ] /\
  entrypoints zone0 custom_phase (world (snd run)) = [].
Proof.
  repeat split; vm_compute; reflexivity.
Qed.

(** The invariant of C1 rests on the provider: when the entry-point GET of a
    zone that has its entry point fails for another reason, in words that
    hold "404", the client takes the zone for a fresh one and asks for a
    second ruleset of the phase. *)
Lemma createCustomRule_asks_for_second_entrypoint :
  let first := createCustomRule (provider_step says_not_found unary_id) token0 zone0
                 rule_a {| world := empty_provider; calls := [] |} in
  let second := createCustomRule busy_provider token0 zone0 rule_b
                  {| world := world (snd first); calls := [] |} in
  length (entrypoints zone0 custom_phase (world (snd first))) = 1 /\
  calls (snd second) =
    [ get_entrypoint token0 zone0; post_ruleset token0 zone0;
      post_rule token0 zone0 (unary_id 2) rule_b ] /\
  length (entrypoints zone0 custom_phase (world (snd second))) = 2.
Proof.
  cbv zeta. split; [|split]; vm_compute; reflexivity.
Qed.

(* ---------- C2 ---------- *)



(* ---------- C3 ---------- *)

Lemma find_id_none ruleId l :
  find (fun r => js_eqb (id r) ruleId) l = None <->
  forall r, In r l -> id r <> ruleId.
Proof.
  split.
  - intros H r Hin Hid. apply (find_none _ _ H) in Hin.
    rewrite Hid, js_eqb_refl in Hin. discriminate.
  - intros H. destruct (find (fun r => js_eqb (id r) ruleId) l) as [r|] eqn:E; auto.
    apply find_some in E as [Hin Hid]. apply js_eqb_eq in Hid.
    exfalso. eapply H; eauto.
Qed.

(** C3 (amended): when the three identifiers can be encoded into the path
    and the PATCH succeeds, [updateCustomRule] looks the rule up by its id in
    the returned rule sequence. It fails with the message "Updated rule not
    found in response" exactly when no returned rule has that id, and
    otherwise returns the first returned rule with that id. *)
Theorem updateCustomRule_locates_rule_by_id
        (World : Type)
        (rest_fetch : RestRequest -> World ->
                      Result (CloudflareApiResponse Ruleset) * World)
        (accessToken zoneId rulesetId ruleId : jsstring) (updates : RuleUpdates)
        (st : Net World) (data : CloudflareApiResponse Ruleset) (w : World) :
  encodable zoneId && encodable rulesetId && encodable ruleId = true ->
  rest_fetch (rest_call accessToken (EpRule zoneId rulesetId ruleId) PATCH
                (BodyUpdates updates)) (world st) = (Ok data, w) ->
  success data = true ->
  let outcome := fst (updateCustomRule rest_fetch accessToken zoneId rulesetId ruleId
                        updates st) in
  (outcome = Throw {| error_message := js "Updated rule not found in response" |} <->
   forall r, In r (rules (result data)) -> id r <> ruleId) /\
  (forall r, outcome = Ok r <->
             find (fun r0 => js_eqb (id r0) ruleId) (rules (result data)) = Some r) /\
  (forall r, outcome = Ok r -> In r (rules (result data)) /\ id r = ruleId).
Proof.
  intros B E S outcome. unfold outcome.
  rewrite updateCustomRule_run. cbn [buildable]. rewrite B, request_run, E, S.
  destruct (find (fun r0 => js_eqb (id r0) ruleId) (rules (result data))) as [r0|] eqn:F;
    cbn [fst].
  - repeat split.
    + discriminate.
    + intros H. apply find_id_none in H. congruence.
    + congruence.
    + congruence.
    + injection H as <-. apply (find_some _ _ F).
    + injection H as <-. apply find_some in F as [_ F]. apply js_eqb_eq in F. auto.
  - repeat split; try discriminate; auto.
    intros _. apply find_id_none. auto.
Qed.

Lemma updateCustomRule_locates_rule_by_id_witness :
  fst (updateCustomRule (always_replies (ruleset_of [stored_rule rule_id_1; stored_rule rule_id_2]))
         token0 zone0 ruleset_id_0 rule_id_2 (only_enabled false) fresh_net) =
  Ok (stored_rule rule_id_2).
Proof.
  apply (proj1 (proj2 (updateCustomRule_locates_rule_by_id unit
                  (always_replies (ruleset_of [stored_rule rule_id_1; stored_rule rule_id_2]))
                  token0 zone0 ruleset_id_0 rule_id_2 (only_enabled false) fresh_net
                  (replied (ruleset_of [stored_rule rule_id_1; stored_rule rule_id_2])) tt
                  eq_refl eq_refl eq_refl))).
  vm_compute. reflexivity.
Defined.

(** An identifier that cannot be encoded: the call raises the URIError where
    it builds the path, and no PATCH is sent. *)
Lemma updateCustomRule_malformed
      (World : Type)
      (rest_fetch : RestRequest -> World ->
                    Result (CloudflareApiResponse Ruleset) * World)
      (accessToken zoneId rulesetId ruleId : jsstring) (updates : RuleUpdates)
      (st : Net World) :
  encodable zoneId && encodable rulesetId && encodable ruleId = false ->
  updateCustomRule rest_fetch accessToken zoneId rulesetId ruleId updates st =
  (Throw URIError, st).
Proof.
  intros B. rewrite updateCustomRule_run. cbn [buildable]. rewrite B. reflexivity.
Qed.

(** C3 as stated fails on the text of the message: the returned sequence
    has no rule with the id, and the failure is not the one whose message is
    "updated rule not found in response". *)
Lemma updateCustomRule_message_is_capitalised :
  (forall r, In r (rules (result (replied (ruleset_of [stored_rule rule_id_1])))) ->
             id r <> rule_id_2) /\
  fst (updateCustomRule (always_replies (ruleset_of [stored_rule rule_id_1]))
         token0 zone0 ruleset_id_0 rule_id_2 (only_enabled false) fresh_net) <>
  Throw {| error_message := js "updated rule not found in response" |}.
Proof.
  split.
  - intros r [<-|[]]. vm_compute. discriminate.
  - vm_compute. discriminate.
Qed.

(* ---------- C4 ---------- *)

(** C4: at a successful append whose returned rule sequence is empty,
    [createCustomRule] resolves to [undefined] instead of a rule. *)
Theorem createCustomRule_empty_sequence_gives_undefined :
  fst (createCustomRule (always_replies (ruleset_of [])) token0 zone0 rule_a fresh_net) =
  Ok None.
Proof. vm_compute. reflexivity. Qed.

(** On every successful call the value is read by position: the element at
    index [length - 1] of the rule sequence the append returned. *)
Lemma createCustomRule_reads_last_position
      (World : Type)
      (rest_fetch : RestRequest -> World ->
                    Result (CloudflareApiResponse Ruleset) * World)
      (accessToken zoneId : jsstring) (rule : RuleSpec) (st st' : Net World) v :
  createCustomRule rest_fetch accessToken zoneId rule st = (Ok v, st') ->
  exists rulesetId st0 response,
    request rest_fetch accessToken (EpRules zoneId rulesetId) POST (BodyRule rule) st0 =
      (Ok response, st') /\
    v = js_index (rules (result response))
                 (Z.of_nat (length (rules (result response))) - 1) /\
    (rules (result response) = [] -> v = None) /\
    (forall l x, rules (result response) = l ++ [x] -> v = Some x).
Proof.
  rewrite createCustomRule_run.
  assert (A : forall rid s0,
             append_step rest_fetch accessToken zoneId rule rid s0 = (Ok v, st') ->
             exists response,
               request rest_fetch accessToken (EpRules zoneId rid) POST (BodyRule rule) s0 =
                 (Ok response, st') /\
               v = js_index (rules (result response))
                            (Z.of_nat (length (rules (result response))) - 1)).
  { intros rid s0. unfold append_step.
    destruct (buildable (EpRules zoneId rid)); [|discriminate].
    destruct (request rest_fetch accessToken (EpRules zoneId rid) POST (BodyRule rule) s0)
      as [[d|e] s1]; [|discriminate].
    intros [= <- <-]. exists d. auto. }
  assert (B : forall rid s0,
             append_step rest_fetch accessToken zoneId rule rid s0 = (Ok v, st') ->
             exists rulesetId st0 response,
               request rest_fetch accessToken (EpRules zoneId rulesetId) POST
                 (BodyRule rule) st0 = (Ok response, st') /\
               v = js_index (rules (result response))
                            (Z.of_nat (length (rules (result response))) - 1) /\
               (rules (result response) = [] -> v = None) /\
               (forall l x, rules (result response) = l ++ [x] -> v = Some x)).
  { intros rid s0 H. apply A in H as (response & H1 & H2).
    exists rid, s0, response. repeat split; auto.
    - intros E. rewrite H2, E. reflexivity.
    - intros l x E. rewrite H2, E. apply js_index_last. }
  destruct (encodable zoneId); [|discriminate].
  destruct (request rest_fetch accessToken (EpEntrypoint zoneId custom_phase) GET NoBody st)
    as [[d1|e1] st1].
  - apply B.
  - destruct (signals_absent e1); [|discriminate].
    destruct (request rest_fetch accessToken (EpRulesets zoneId) POST _ st1)
      as [[d2|e2] st2]; [|discriminate].
    apply B.
Qed.

(* ---------- C5 ---------- *)

Lemma patch_rule_id u r : id (patch_rule u r) = id r.
Proof. reflexivity. Qed.

Lemma find_patched ruleId u l r0 :
  find (fun r => js_eqb (id r) ruleId) l = Some r0 ->
  find (fun r => js_eqb (id r) ruleId)
       (map (fun r => if js_eqb (id r) ruleId then patch_rule u r else r) l) =
  Some (patch_rule u r0).
Proof.
  intros F. rewrite find_map_same.
  - rewrite F. cbn [option_map]. apply find_some in F as [_ F]. rewrite F. reflexivity.
  - intros x. destruct (js_eqb (id x) ruleId) eqn:E; auto.
Qed.

(** C5: against a provider whose PATCH overwrites the supplied fields only,
    and for identifiers that can be encoded into the path (as those the
    schemas of [toggle_rule] accept can), [updateCustomRule] with only
    [enabled] set sends a body that carries [enabled] alone and returns the
    rule with its description, expression and action as they were stored
    before the call; [toggle_rule] makes exactly this call. *)
Theorem toggle_leaves_other_fields_unchanged
        (absent : list CloudflareApiError) (mk_id : nat -> jsstring)
        (accessToken zoneId rulesetId ruleId : jsstring) (flag : bool)
        (p : Provider) (log : list Call)
        (e : jsstring * Ruleset) (before : RulesetRule) :
  encodable zoneId && encodable rulesetId && encodable ruleId = true ->
  find (is_ruleset zoneId rulesetId) (stored p) = Some e ->
  find (fun r => js_eqb (id r) ruleId) (rules (snd e)) = Some before ->
  let step := provider_step absent mk_id in
  let st := {| world := p; calls := log |} in
  let patch := RestCall (rest_call accessToken (EpRule zoneId rulesetId ruleId) PATCH
                           (BodyUpdates {| upd_description := None;
                                           upd_expression := None;
                                           upd_action := None;
                                           upd_enabled := Some flag |})) in
  exists returned st',
    updateCustomRule step accessToken zoneId rulesetId ruleId
      {| upd_description := None; upd_expression := None; upd_action := None;
         upd_enabled := Some flag |} st = (Ok returned, st') /\
    description returned = description before /\
    expression returned = expression before /\
    action returned = action before /\
    enabled returned = flag /\
    id returned = ruleId /\
    calls st' = log ++ [patch] /\
    toggle_rule_handler step accessToken zoneId rulesetId ruleId flag st =
      (Ok {| text := js "Successfully " ++
                     (if flag then js "enabled" else js "disabled") ++
                     js " rule " ++ ruleId |}, st').
Proof.
  intros B F1 F2 step st patch.
  assert (X : existsb (fun r0 => js_eqb (id r0) ruleId) (rules (snd e)) = true).
  { apply existsb_exists. exists before. apply (find_some _ _ F2). }
  assert (R : updateCustomRule step accessToken zoneId rulesetId ruleId
                {| upd_description := None; upd_expression := None; upd_action := None;
                   upd_enabled := Some flag |} st =
              (Ok (patch_rule {| upd_description := None; upd_expression := None;
                                 upd_action := None; upd_enabled := Some flag |} before),
               {| world := {| stored := update_ruleset zoneId rulesetId
                                          (patch_rules ruleId
                                             {| upd_description := None;
                                                upd_expression := None;
                                                upd_action := None;
                                                upd_enabled := Some flag |})
                                          (stored p);
                              next_id := next_id p |};
                  calls := log ++ [patch] |})).
  { rewrite updateCustomRule_run. cbn [buildable]. rewrite B, request_run.
    unfold step, provider_step.
    cbn [rest_call req_method req_endpoint req_body world st].
    rewrite F1, X. cbn [replied success result patch_rules with_rules rules].
    rewrite (find_patched _ _ _ _ F2). reflexivity. }
  eexists. eexists. split; [exact R|].
  repeat split.
  - apply find_some in F2 as [_ F2]. apply js_eqb_eq in F2. auto.
  - unfold toggle_rule_handler, try_catch, bind, ret. rewrite R. reflexivity.
Qed.

Lemma toggle_leaves_other_fields_unchanged_witness :
  exists returned st',
    updateCustomRule (provider_step says_not_found unary_id) token0 zone0 ruleset_id_0
      rule_id_2 (only_enabled false) {| world := provider_with_rule; calls := [] |} =
      (Ok returned, st') /\
    description returned = js "block one address" /\
    expression returned = js "(ip.src eq 192.0.2.1)" /\
    action returned = js "block" /\
    enabled returned = false.
Proof.
  destruct (toggle_leaves_other_fields_unchanged says_not_found unary_id token0 zone0
              ruleset_id_0 rule_id_2 false provider_with_rule []
              (zone0, ruleset_of [stored_rule rule_id_1; stored_rule rule_id_2])
              (stored_rule rule_id_2) eq_refl eq_refl eq_refl)
    as (returned & st' & R & D & E & A & B & _).
  exists returned, st'. repeat split; auto.
Defined.

(* ---------- C6 ---------- *)

(** C6: an identifier parses exactly when it is 32 code units long and each
    is one of [0-9a-f]; "not-hex", 31 times "a" and upper-case digits do not
    parse; and a tool called with an identifier that does not parse fails
    without any call to the provider. *)
Theorem cloudflare_id_is_32_lowercase_hex
        (World : Type)
        (rest_fetch : RestRequest -> World ->
                      Result (CloudflareApiResponse Ruleset) * World)
        (accessToken : jsstring) (stringify_ruleset : Ruleset -> jsstring)
        (stringify_rule : RulesetRule -> jsstring) (invalid_arguments : JsError) :
  (forall input,
      cloudflareIdSchema input = true <->
      length input = 32 /\ forallb is_hex_lower input = true) /\
  (forall c, is_hex_lower c = true <-> (48 <= c <= 57)%N \/ (97 <= c <= 102)%N) /\
  zoneIdSchema (js "not-hex") = false /\
  zoneIdSchema (repeat 97%N 31) = false /\
  zoneIdSchema (repeat 97%N 33) = false /\
  zoneIdSchema (js "0123456789ABCDEF0123456789ABCDEF") = false /\
  zoneIdSchema (js "0123456789abcdef0123456789abcdef") = true /\
  (forall zoneId st,
      zoneIdSchema zoneId = false ->
      list_custom_rules rest_fetch accessToken stringify_ruleset invalid_arguments
        zoneId st = (Throw invalid_arguments, st)) /\
  (forall zoneId rule st,
      zoneIdSchema zoneId = false ->
      create_custom_rule rest_fetch accessToken stringify_rule invalid_arguments
        zoneId rule st = (Throw invalid_arguments, st)) /\
  (forall zoneId rulesetId ruleId flag st,
      zoneIdSchema zoneId = false \/ rulesetIdSchema rulesetId = false \/
      ruleIdSchema ruleId = false ->
      toggle_rule rest_fetch accessToken invalid_arguments zoneId rulesetId ruleId
        flag st = (Throw invalid_arguments, st)).
Proof.
  split; [apply cloudflareIdSchema_iff|].
  split.
  { intros c. unfold is_hex_lower, is_digit, in_range. split.
    - intros H. b2p; lia.
    - intros [[A B]|[A B]]; apply orb_true_iff; [right|left];
        apply andb_true_iff; split; apply N.leb_le; auto. }
  do 5 (split; [vm_compute; reflexivity|]).
  split; [|split].
  - intros zoneId st H. unfold list_custom_rules, server_tool. rewrite H. reflexivity.
  - intros zoneId rule st H. unfold create_custom_rule, server_tool. rewrite H. reflexivity.
  - intros zoneId rulesetId ruleId flag st H. unfold toggle_rule, server_tool.
    destruct H as [H|[H|H]]; rewrite H; rewrite ?andb_false_r; reflexivity.
Qed.

(* ---------- C7 ---------- *)

(** C7: [sanitizeErrorMessage] is a function (total and deterministic), and
    on every input whose redacted text is at most 200 code units long a
    second pass changes nothing; the four markers are fixed by a pass. *)
Theorem sanitize_is_idempotent_below_the_limit (x : jsstring) :
  length (redact x) <= 200 ->
  sanitizeErrorMessage (sanitizeErrorMessage x) = sanitizeErrorMessage x /\
  sanitizeErrorMessage mk_bearer = mk_bearer /\
  sanitizeErrorMessage mk_id = mk_id /\
  sanitizeErrorMessage mk_email = mk_email /\
  sanitizeErrorMessage mk_ip = mk_ip.
Proof.
  intros H. split.
  - unfold sanitizeErrorMessage.
    assert (E : (200 <? length (redact x)) = false) by (apply Nat.ltb_ge; auto).
    cbv zeta. rewrite E. rewrite redact_idempotent. rewrite E. reflexivity.
  - repeat split; vm_compute; reflexivity.
Qed.

Lemma sanitize_is_idempotent_below_the_limit_witness :
  sanitizeErrorMessage
    (sanitizeErrorMessage
       (js "Bearer abc123 rejected for a@b.com from 10.0.0.1 zone 0123456789abcdef0123456789abcdef")) =
  sanitizeErrorMessage
    (js "Bearer abc123 rejected for a@b.com from 10.0.0.1 zone 0123456789abcdef0123456789abcdef").
Proof.
  apply (sanitize_is_idempotent_below_the_limit
           (js "Bearer abc123 rejected for a@b.com from 10.0.0.1 zone 0123456789abcdef0123456789abcdef")).
  apply Nat.leb_le. vm_compute. reflexivity.
Defined.

(** Beyond the limit the bound of C7 matters: cutting at 200 code units can
    expose a new match, here an address whose last group was followed by a
    letter. *)
Example sanitize_twice_differs_beyond_the_limit :
  let x := repeat 120%N 191 ++ js " 1.2.3.45a" in
  length (redact x) = 201 /\
  js_eqb (sanitizeErrorMessage (sanitizeErrorMessage x)) (sanitizeErrorMessage x) = false.
Proof. split; vm_compute; reflexivity. Qed.

(* ---------- C8 ---------- *)

(** Whole numbers in the arithmetic of Numbers. *)

Section NumberFacts.

Local Open Scope Z_scope.

Lemma shl_spec q k : 0 <= k -> Zpos (shl q k) = Zpos q * 2 ^ k.
Proof.
  intros H. destruct k as [|n|n]; [simpl; lia| |lia].
  unfold shl. change (Pos.iter xO q n) with (shift_pos n q).
  rewrite shift_pos_correct. change (Zpower_pos 2 n) with (2 ^ Zpos n). lia.
Qed.

Lemma shl_shl q a b : 0 <= a -> 0 <= b -> shl (shl q a) b = shl q (a + b).
Proof.
  intros A B. apply Pos2Z.inj. rewrite !shl_spec by lia.
  rewrite Z.pow_add_r by lia. lia.
Qed.

Lemma digits_size q : digits2_pos q = Pos.size q.
Proof. induction q; simpl; congruence. Qed.

Lemma size_xO_iter q n : Pos.size (Pos.iter xO q n) = (Pos.size q + n)%positive.
Proof.
  induction n as [|n IH] using Pos.peano_ind.
  - simpl. lia.
  - rewrite Pos.iter_succ. simpl. rewrite IH. lia.
Qed.

Lemma size_shl q k : 0 <= k -> Zpos (Pos.size (shl q k)) = Zpos (Pos.size q) + k.
Proof.
  intros H. destruct k as [|n|n]; [simpl; lia| |lia].
  unfold shl. rewrite size_xO_iter. lia.
Qed.

Lemma size_bound q : Zpos q < 2 ^ 53 -> Zpos (Pos.size q) <= 53.
Proof.
  intros H. pose proof (Pos.size_le q) as L.
  destruct (Z_le_gt_dec (Zpos (Pos.size q)) 53) as [|G]; auto. exfalso.
  assert (A : 2 ^ 54 <= 2 ^ Zpos (Pos.size q)) by (apply Z.pow_le_mono_r; lia).
  assert (B : 2 ^ Zpos (Pos.size q) <= Zpos q~0).
  { rewrite <- Pos2Z.inj_pow. apply Pos2Z.pos_le_pos. exact L. }
  change (2 ^ 54) with (2 * 2 ^ 53) in A. lia.
Qed.

Lemma iter_pos_iter (A : Type) (f : A -> A) n : forall x, iter_pos f n x = Pos.iter f x n.
Proof.
  induction n as [n IH|n IH|]; intros x; simpl.
  - rewrite !IH. rewrite <- !Pos.iter_swap. reflexivity.
  - rewrite !IH. reflexivity.
  - reflexivity.
Qed.

Lemma shr_1_even p : shr_1 (Build_shr_record (Zpos p~0) false false) =
                     Build_shr_record (Zpos p) false false.
Proof. reflexivity. Qed.

Lemma shr_iter q n :
  Pos.iter shr_1 (Build_shr_record (Zpos (Pos.iter xO q n)) false false) n =
  Build_shr_record (Zpos q) false false.
Proof.
  revert q. induction n as [|n IH] using Pos.peano_ind; intros q.
  - reflexivity.
  - rewrite Pos.iter_succ_r. rewrite Pos.iter_succ. rewrite shr_1_even. apply IH.
Qed.

Lemma shr_exact q e n :
  0 <= n ->
  shr (Build_shr_record (Zpos (shl q n)) false false) e n =
  (Build_shr_record (Zpos q) false false, e + n).
Proof.
  intros H. destruct n as [|n|n]; [simpl; f_equal; lia| |lia].
  unfold shr, shl. rewrite iter_pos_iter, shr_iter. reflexivity.
Qed.

Lemma fexp_size d : 1 <= d -> fexp 53 1024 d = d - 53.
Proof. intros H. unfold fexp, emin. lia. Qed.

(** Rounding a value that fits in 53 bits changes nothing. *)
Lemma binary_round_aux_exact s q k :
  0 <= 53 - Zpos (Pos.size q) <= k ->
  binary_round_aux 53 1024 s (Zpos (shl q k)) (- k) loc_Exact = norm s q.
Proof.
  intros H. set (d := Zpos (Pos.size q)) in *.
  assert (D : 1 <= d) by (unfold d; lia).
  unfold binary_round_aux.
  assert (A : shr_fexp 53 1024 (Zpos (shl q k)) (- k) loc_Exact =
              (Build_shr_record (Zpos (shl q (53 - d))) false false, d - 53)).
  { unfold shr_fexp. cbn [Zdigits2 shr_record_of_loc].
    rewrite digits_size, size_shl by lia. fold d.
    replace (d + k + - k) with d by lia. rewrite fexp_size by lia.
    replace (shl q k) with (shl (shl q (53 - d)) (d - 53 - - k))
      by (rewrite shl_shl by lia; f_equal; lia).
    rewrite shr_exact by lia. f_equal. lia. }
  rewrite A. cbn [shr_m loc_of_shr_record round_nearest_even].
  assert (B : shr_fexp 53 1024 (Zpos (shl q (53 - d))) (d - 53) loc_Exact =
              (Build_shr_record (Zpos (shl q (53 - d))) false false, d - 53)).
  { unfold shr_fexp. cbn [Zdigits2 shr_record_of_loc].
    rewrite digits_size, size_shl by lia. fold d.
    replace (d + (53 - d) + (d - 53)) with d by lia. rewrite fexp_size by lia.
    replace (d - 53 - (d - 53)) with 0 by lia. reflexivity. }
  rewrite B. cbn [shr_m].
  replace (d - 53 <=? 1024 - 53) with true by (symmetry; apply Z.leb_le; lia).
  reflexivity.
Qed.

Lemma shl_align_spec q k ez :
  0 <= k <= - ez -> shl_align (shl q k) (- k) ez = (shl q (- ez), ez).
Proof.
  intros H. unfold shl_align.
  destruct (ez - - k) as [|d|d] eqn:E; try lia.
  - replace (- ez) with k by lia. f_equal. lia.
  - change (Pos.iter xO (shl q k) d) with (shl (shl q k) (Zpos d)).
    rewrite shl_shl by lia. f_equal. f_equal. lia.
Qed.

Lemma binary_round_exact s q k :
  0 <= k -> Zpos (Pos.size q) <= 53 ->
  binary_round 53 1024 s (shl q k) (- k) = norm s q.
Proof.
  intros K D. unfold binary_round.
  rewrite digits_size, size_shl by lia.
  replace (Zpos (Pos.size q) + k + - k) with (Zpos (Pos.size q)) by lia.
  rewrite fexp_size by lia.
  destruct (Z_le_gt_dec (53 - Zpos (Pos.size q)) k) as [L|G].
  - assert (A : shl_align (shl q k) (- k) (Zpos (Pos.size q) - 53) = (shl q k, - k)).
    { unfold shl_align. destruct (Zpos (Pos.size q) - 53 - - k) eqn:E; try lia; reflexivity. }
    rewrite A. apply binary_round_aux_exact. lia.
  - rewrite shl_align_spec by lia.
    replace (Zpos (Pos.size q) - 53) with (- (- (Zpos (Pos.size q) - 53))) at 2 by lia.
    apply binary_round_aux_exact. lia.
Qed.

Lemma Number_of_Z_whole z : Z.abs z < 2 ^ 53 -> Number_of_Z z = of_whole z.
Proof.
  intros H. unfold Number_of_Z, Number_of_dyadic, binary_normalize.
  destruct z as [|q|q]; [reflexivity| |];
    apply (binary_round_exact _ q 0); try lia; apply size_bound; simpl in H; lia.
Qed.

(** The difference of two whole numbers of at most 53 bits is computed
    exactly. *)
Lemma subtract_norm a b :
  Zpos (Pos.size a) <= 53 -> Zpos (Pos.size b) <= 53 ->
  Number_subtract (norm false a) (norm false b) = of_whole (Zpos a - Zpos b).
Proof.
  intros A B. unfold Number_subtract, norm, SFsub.
  set (da := Zpos (Pos.size a)) in *. set (db := Zpos (Pos.size b)) in *.
  set (ez := Z.min (da - 53) (db - 53)).
  assert (Da : 1 <= da) by (unfold da; lia).
  assert (Db : 1 <= db) by (unfold db; lia).
  replace (da - 53) with (- (53 - da)) at 1 by lia.
  replace (db - 53) with (- (53 - db)) at 1 by lia.
  rewrite !shl_align_spec by lia. cbn [fst cond_Zopp].
  assert (M : Zpos (shl a (- ez)) - Zpos (shl b (- ez)) = (Zpos a - Zpos b) * 2 ^ (- ez))
    by (rewrite !shl_spec by lia; lia).
  assert (P : 0 < 2 ^ (- ez)) by (apply Z.pow_pos_nonneg; lia).
  unfold binary_normalize.
  destruct (Zpos (shl a (- ez)) - Zpos (shl b (- ez))) as [|r|r] eqn:E.
  - assert (Zpos a - Zpos b = 0) by nia. rewrite H. reflexivity.
  - assert (G : 0 < Zpos a - Zpos b) by nia.
    destruct (Zpos a - Zpos b) as [|q|q] eqn:Q; try lia. cbn [of_whole].
    assert (R : r = shl q (- ez)).
    { apply Pos2Z.inj. rewrite shl_spec by lia. lia. }
    rewrite R. replace ez with (- - ez) at 2 by lia.
    apply binary_round_exact; [lia|].
    apply size_bound. pose proof (Pos.size_gt a) as S.
    assert (Zpos a < 2 ^ da).
    { unfold da. rewrite <- Pos2Z.inj_pow. apply Pos2Z.pos_lt_pos. exact S. }
    assert (2 ^ da <= 2 ^ 53) by (apply Z.pow_le_mono_r; lia). lia.
  - assert (G : Zpos a - Zpos b < 0) by nia.
    destruct (Zpos a - Zpos b) as [|q|q] eqn:Q; try lia. cbn [of_whole].
    assert (R : r = shl q (- ez)).
    { apply Pos2Z.inj. rewrite shl_spec by lia. lia. }
    rewrite R. replace ez with (- - ez) at 2 by lia.
    apply binary_round_exact; [lia|].
    apply size_bound. pose proof (Pos.size_gt b) as S.
    assert (Zpos b < 2 ^ db).
    { unfold db. rewrite <- Pos2Z.inj_pow. apply Pos2Z.pos_lt_pos. exact S. }
    assert (2 ^ db <= 2 ^ 53) by (apply Z.pow_le_mono_r; lia). lia.
Qed.

Lemma subtract_whole now p :
  0 <= now < 2 ^ 53 -> 0 < p < 2 ^ 53 ->
  Number_subtract (of_whole now) (of_whole p) = of_whole (now - p).
Proof.
  intros N P. destruct p as [|b|b]; try lia.
  destruct now as [|a|a]; try lia.
  - reflexivity.
  - apply subtract_norm; apply size_bound; lia.
Qed.

Lemma truncate_norm s q :
  Zpos (Pos.size q) <= 53 -> truncate (norm s q) = cond_Zopp s (Zpos q).
Proof.
  intros D. unfold truncate, norm. f_equal.
  rewrite Z.shiftl_div_pow2 by lia. rewrite shl_spec by lia.
  replace (- (Zpos (Pos.size q) - 53)) with (53 - Zpos (Pos.size q)) by lia.
  apply Z.div_mul. apply Z.pow_nonzero; lia.
Qed.

Lemma exceeds_norm limit s q :
  Zpos (Pos.size q) <= 53 -> exceeds limit (norm s q) = (limit <? Zpos q).
Proof.
  intros D. unfold exceeds, norm.
  assert (P : 0 < 2 ^ (53 - Zpos (Pos.size q))) by (apply Z.pow_pos_nonneg; lia).
  destruct (Zpos (Pos.size q) - 53 <? 0) eqn:E.
  - rewrite Z.shiftl_mul_pow2 by lia. rewrite shl_spec by lia.
    replace (- (Zpos (Pos.size q) - 53)) with (53 - Zpos (Pos.size q)) by lia.
    destruct (limit <? Zpos q) eqn:L.
    + apply Z.ltb_lt. apply Z.ltb_lt in L. nia.
    + apply Z.ltb_ge. apply Z.ltb_ge in L. nia.
  - apply Z.ltb_ge in E. replace (Zpos (Pos.size q) - 53) with 0 by lia.
    replace (53 - Zpos (Pos.size q)) with 0 by lia. reflexivity.
Qed.

Lemma new_Date_whole z :
  Z.abs z <= 8640000000000000 -> new_Date (of_whole z) = Some z.
Proof.
  intros H. destruct z as [|q|q]; [reflexivity| |]; cbn [of_whole].
  - unfold new_Date. cbn [norm].
    change (S754_finite false (shl q (53 - Zpos (Pos.size q))) (Zpos (Pos.size q) - 53))
      with (norm false q).
    assert (D : Zpos (Pos.size q) <= 53) by (apply size_bound; simpl in H; lia).
    rewrite exceeds_norm, truncate_norm by assumption.
    replace (8640000000000000 <? Zpos q) with false
      by (symmetry; apply Z.ltb_ge; simpl in H; lia).
    reflexivity.
  - unfold new_Date. cbn [norm].
    change (S754_finite true (shl q (53 - Zpos (Pos.size q))) (Zpos (Pos.size q) - 53))
      with (norm true q).
    assert (D : Zpos (Pos.size q) <= 53) by (apply size_bound; simpl in H; lia).
    rewrite exceeds_norm, truncate_norm by assumption.
    replace (8640000000000000 <? Zpos q) with false
      by (symmetry; apply Z.ltb_ge; simpl in H; lia).
    reflexivity.
Qed.

(** The start of the window when the product is a whole number of
    milliseconds. *)
Lemma start_of_whole_product now p :
  0 <= now <= 8640000000000000 -> 0 < p <= 8640000000000000 ->
  new_Date (Number_subtract (Number_of_Z now) (Number_of_Z p)) = Some (now - p).
Proof.
  intros N P.
  rewrite !Number_of_Z_whole by lia.
  rewrite subtract_whole by lia. apply new_Date_whole. lia.
Qed.

End NumberFacts.

Lemma same_number_eq x y : same_number x y = true -> x = y.
Proof.
  destruct x as [a|a| |a m e], y as [b|b| |b n f]; simpl; try discriminate; auto.
  - intros H. apply Bool.eqb_prop in H. congruence.
  - intros H. apply Bool.eqb_prop in H. congruence.
  - intros H. apply andb_true_iff in H as [H E]. apply andb_true_iff in H as [S M].
    apply Bool.eqb_prop in S. apply Pos.eqb_eq in M. apply Z.eqb_eq in E. congruence.
Qed.

Lemma all_from_spec check count : forall lo z,
  all_from check lo count = true ->
  (lo <= z < lo + Z.of_nat count)%Z -> check z = true.
Proof.
  induction count as [|c IH]; intros lo z A H; [lia|].
  cbn [all_from] in A. apply andb_true_iff in A as [A1 A2].
  destruct (Z.eq_dec z lo) as [->|N]; [exact A1|].
  apply (IH (lo + 1)%Z); [exact A2|lia].
Qed.

(** Every whole number of minutes from 1 to 1440 passes the schema and has a
    product that is computed exactly. *)
Lemma whole_minutes n :
  (1 <= n <= 1440)%Z ->
  minutesSchema (Number_of_Z n) = true /\
  milliseconds (Number_of_Z n) = Number_of_Z (n * 60 * 1000).
Proof.
  intros H.
  assert (C : all_from (fun k => minutesSchema (Number_of_Z k) &&
                                 same_number (milliseconds (Number_of_Z k))
                                             (Number_of_Z (k * 60 * 1000)))
                       1 (Z.to_nat 1440) = true) by (vm_compute; reflexivity).
  apply (all_from_spec _ _ _ n) in C; [|lia].
  apply andb_true_iff in C as [A B]. split; [exact A|]. apply same_number_eq. exact B.
Qed.

(** So does every multiple of 1/32 minute in that range: 1/32 minute is
    1875 ms. *)
Lemma multiples_of_a_32nd j :
  (32 <= j <= 46080)%Z ->
  minutesSchema (Number_of_dyadic j (-5)) = true /\
  milliseconds (Number_of_dyadic j (-5)) = Number_of_Z (j * 1875).
Proof.
  intros H.
  assert (C : all_from (fun k => minutesSchema (Number_of_dyadic k (-5)) &&
                                 same_number (milliseconds (Number_of_dyadic k (-5)))
                                             (Number_of_Z (k * 1875)))
                       32 (Z.to_nat 46049) = true) by (vm_compute; reflexivity).
  apply (all_from_spec _ _ _ j) in C; [|lia].
  apply andb_true_iff in C as [A B]. split; [exact A|]. apply same_number_eq. exact B.
Qed.

Lemma getTimeRange_whole_product now minutes p :
  (0 <= now <= 8640000000000000)%Z -> (0 < p <= 8640000000000000)%Z ->
  milliseconds minutes = Number_of_Z p ->
  getTimeRange now minutes = Ok {| startTime := (now - p)%Z; endTime := now |}.
Proof.
  intros N P E. unfold getTimeRange. fold (milliseconds minutes).
  rewrite E, start_of_whole_product by assumption. reflexivity.
Qed.

(** C8 (amended): the window ends at the invocation time. For every whole
    number n of minutes the tools accept (1 to 1440) it starts exactly
    n * 60 seconds (n * 60 * 1000 ms) before it, 3600 seconds for n = 60; and
    so it does for every accepted multiple of 1/32 minute, which is a whole
    number of milliseconds. The helper does not clamp: the schema rejects
    2000 minutes, and the helper called with it returns the window of 2000
    minutes. *)
Theorem getTimeRange_window (now : Z) :
  (0 <= now <= 8640000000000000)%Z ->
  (forall n,
      (1 <= n <= 1440)%Z ->
      minutesSchema (Number_of_Z n) = true /\
      exists range,
        getTimeRange now (Number_of_Z n) = Ok range /\
        endTime range = now /\
        (endTime range - startTime range = n * 60 * 1000)%Z /\
        (n = 60%Z -> (endTime range - startTime range = 3600 * 1000)%Z)) /\
  (forall j,
      (32 <= j <= 46080)%Z ->
      minutesSchema (Number_of_dyadic j (-5)) = true /\
      getTimeRange now (Number_of_dyadic j (-5)) =
      Ok {| startTime := (now - j * 1875)%Z; endTime := now |}) /\
  minutesSchema (Number_of_Z 2000) = false /\
  getTimeRange now (Number_of_Z 2000) =
  Ok {| startTime := (now - 2000 * 60 * 1000)%Z; endTime := now |}.
Proof.
  intros Hn. split; [|split; [|split]].
  - intros n Hr. destruct (whole_minutes n Hr) as [S M]. split; [exact S|].
    exists {| startTime := (now - n * 60 * 1000)%Z; endTime := now |}.
    split; [|split; [|split]].
    + apply getTimeRange_whole_product; auto. lia.
    + reflexivity.
    + cbn [endTime startTime]. lia.
    + cbn [endTime startTime]. lia.
  - intros j Hj. destruct (multiples_of_a_32nd j Hj) as [S M]. split; [exact S|].
    apply getTimeRange_whole_product; auto. lia.
  - vm_compute. reflexivity.
  - apply getTimeRange_whole_product; [assumption|lia|].
    vm_compute. reflexivity.
Qed.

Lemma getTimeRange_window_witness :
  exists range,
    getTimeRange 1767225600000 (Number_of_Z 60) = Ok range /\
    endTime range = 1767225600000%Z /\
    (endTime range - startTime range = 3600 * 1000)%Z.
Proof.
  destruct (proj1 (getTimeRange_window 1767225600000 ltac:(lia)) 60%Z ltac:(lia))
    as (_ & range & A & B & _ & C).
  exists range. split; [exact A|]. split; [exact B|]. apply C. reflexivity.
Defined.

(** C8 as stated fails for an accepted value that is not a whole number of
    milliseconds: 65/64 minutes is 60937.5 ms (64 times the window would be
    65 * 60 * 1000), and the window is 60938 ms long. *)
Lemma getTimeRange_fractional_minutes :
  minutesSchema (Number_of_dyadic 65 (-6)) = true /\
  getTimeRange 1000000 (Number_of_dyadic 65 (-6)) =
    Ok {| startTime := 939062; endTime := 1000000 |} /\
  (64 * (1000000 - 939062) <> 65 * 60 * 1000)%Z.
Proof.
  split; [vm_compute; reflexivity|]. split; [vm_compute; reflexivity|]. lia.
Qed.

(** The arithmetic is that of Numbers: the Number written [1.1] is a little
    more than 11/10, and its product with 60 is rounded to 66, so that the
    window is 66000 ms long. *)
Example getTimeRange_of_a_rounded_product :
  Number_of_dyadic 4953959590107546 (-52) = S754_finite false 4953959590107546 (-52) /\
  (10 * 4953959590107546 > 11 * 2 ^ 52)%Z /\
  Number_multiply (Number_of_dyadic 4953959590107546 (-52)) (Number_of_Z 60) =
    Number_of_Z 66 /\
  getTimeRange 1767225600000 (Number_of_dyadic 4953959590107546 (-52)) =
  Ok {| startTime := 1767225534000; endTime := 1767225600000 |}.
Proof.
  split; [vm_compute; reflexivity|]. split; [lia|].
  split; vm_compute; reflexivity.
Qed.

(* ---------- C9 ---------- *)

(** C9: when the provider answers without errors and the zone has no events
    (no zone entry at all, or a zone whose three groupings are empty),
    [getSecurityEventsSummary] returns the three empty lists; it fails only
    with the transport's exception or with the sanitized GraphQL errors the
    provider reported. *)
Theorem summary_of_no_events_is_empty
        (World : Type)
        (graphql_fetch : GraphqlRequest -> World ->
                         Result (GraphqlBody SummaryData) * World)
        (accessToken zoneTag t0 t1 : jsstring) (st : Net World) :
  let call := graphql_call accessToken GetSecuritySummary zoneTag t0 t1 in
  let outcome := fst (getSecurityEventsSummary graphql_fetch accessToken zoneTag t0 t1 st) in
  (forall data w,
      graphql_fetch call (world st) = (Ok data, w) ->
      gql_errors data = None \/ gql_errors data = Some [] ->
      no_events (viewer_zones (gql_data data)) ->
      outcome = Ok empty_summary) /\
  (forall e,
      outcome = Throw e ->
      (exists w, graphql_fetch call (world st) = (Throw e, w)) \/
      (exists data w m ms,
          graphql_fetch call (world st) = (Ok data, w) /\
          gql_errors data = Some (m :: ms) /\
          error_message e =
            js "GraphQL error: " ++ sanitizeErrorMessage (join (js ", ") (m :: ms)))).
Proof.
  intros call outcome. unfold outcome, getSecurityEventsSummary, bind, ret.
  rewrite graphqlRequest_run. fold call.
  destruct (graphql_fetch call (world st)) as [[data|e0] w] eqn:E.
  - split.
    + intros data' w' [= <- <-] Herr Hz.
      assert (X : match gql_errors data with Some (_ :: _) => False | _ => True end).
      { destruct Herr as [-> | ->]; exact I. }
      destruct (gql_errors data) as [[|m ms]|]; try contradiction; cbn [fst];
        destruct Hz as [-> | (z & rest & -> & A & B & C)]; cbn [hd_error];
        rewrite ?A, ?B, ?C; reflexivity.
    + intros e. destruct (gql_errors data) as [[|m ms]|] eqn:G; cbn [fst];
        try discriminate.
      intros [= <-]. right. exists data, w, m, ms. auto.
  - split.
    + intros data w' [=].
    + cbn [fst]. intros e [= <-]. left. eauto.
Qed.

(* ---------- C10 ---------- *)

(** C10: when the entry-point fetch inside [list_custom_rules] fails with a
    message that contains "404" or "not found", the tool returns the text of
    [{ rules: [], message: "No custom rules configured for this zone" }];
    a failure with neither is thrown again unchanged. *)
Theorem list_custom_rules_absent_is_empty_list
        (World : Type)
        (rest_fetch : RestRequest -> World ->
                      Result (CloudflareApiResponse Ruleset) * World)
        (accessToken : jsstring) (stringify_ruleset : Ruleset -> jsstring)
        (zoneId : jsstring) (st st' : Net World) (error : JsError) :
  getEntryPointRuleset rest_fetch accessToken zoneId custom_phase st = (Throw error, st') ->
  (includes (error_message error) (js "404") = true \/
   includes (error_message error) (js "not found") = true ->
   list_custom_rules_handler rest_fetch accessToken stringify_ruleset zoneId st =
   (Ok {| text := no_custom_rules_text |}, st')) /\
  (includes (error_message error) (js "404") = false /\
   includes (error_message error) (js "not found") = false ->
   list_custom_rules_handler rest_fetch accessToken stringify_ruleset zoneId st =
   (Throw error, st')).
Proof.
  intros G. unfold list_custom_rules_handler, try_catch, bind, ret, throw.
  rewrite G. unfold signals_absent. split.
  - intros [H|H]; rewrite H; rewrite ?orb_true_r; reflexivity.
  - intros [H1 H2]. rewrite H1, H2. reflexivity.
Qed.

Lemma list_custom_rules_absent_is_empty_list_witness :
  fst (list_custom_rules_handler (always_refuses says_not_found) token0 json_of_id
         zone0 fresh_net) =
  Ok {| text := no_custom_rules_text |}.
Proof.
  assert (G : getEntryPointRuleset (always_refuses says_not_found) token0 zone0
                custom_phase fresh_net =
              (Throw {| error_message := js "Cloudflare API error: ruleset not found" |},
               {| world := tt;
                  calls := [ RestCall (rest_call token0 (EpEntrypoint zone0 custom_phase)
                                         GET NoBody) ] |}))
    by (vm_compute; reflexivity).
  rewrite (proj1 (list_custom_rules_absent_is_empty_list unit
                    (always_refuses says_not_found) token0 json_of_id zone0 fresh_net _ _ G)).
  - reflexivity.
  - right. vm_compute. reflexivity.
Defined.

(* ================================================================== *)
(** * Further properties of the code *)
(* ================================================================== *)

(** ** What a sanitized message can contain *)

(** [test] finds no match exactly where the pattern matches at no
    position. *)
Lemma test_from_clean re : forall s prev,
  test_from re prev s = false <-> clean re prev s.
Proof.
  induction s as [|c s IH]; intros prev; simpl.
  - destruct (match_items re prev []); split; try discriminate; try tauto.
    intros [H _]. discriminate.
  - destruct (match_items re prev (c :: s)).
    + split; [discriminate|]. intros [H _]. discriminate.
    + rewrite IH. tauto.
Qed.

Lemma regex_test_clean re s : regex_test re s = false <-> clean re None s.
Proof. apply test_from_clean. Qed.

(** A pattern that ends with a class taken at least once: the last code
    unit of a match is in the class. *)
Lemma accepts_last p lo hi : forall body prev s n,
  1 <= lo ->
  accepts (body ++ [Cls p lo hi]) prev s n ->
  1 <= n /\ exists c, nth_error s (n - 1) = Some c /\ p c = true.
Proof.
  intros body prev s n Hlo. revert prev s n.
  induction body as [|it body IH]; intros prev s n H.
  - simpl in H. destruct H as (k & A & _ & L & F & B & Hn).
    assert (k = n) by lia. subst k.
    destruct (forallb_firstn_nth p n s L F (n - 1)) as (c & X & Y); [lia|].
    split; [lia|eauto].
  - destruct it as [q lo' hi'| | |]; simpl in H.
    + destruct H as (k & A & _ & L & F & B & Hr).
      apply IH in Hr as (N1 & c & X & Y).
      rewrite nth_error_skipn in X.
      replace (k + (n - k - 1)) with (n - 1) in X by lia.
      split; [lia|eauto].
    + destruct H as [_ H]. eauto.
    + destruct H as [_ H]. eauto.
    + destruct H as [_ H]. eauto.
Qed.

(** *** Cutting a message short *)

Section Truncation.

(** [re] ends with a class [p] taken at least once, and [tail] (the three
    dots) holds no code unit of that class. *)
Variable body : regex.
Variable p : codeunit -> bool.
Variable lo : nat.
Variable hi : option nat.
Let re := body ++ [Cls p lo hi].
Variable tail : jsstring.

Hypothesis lo_pos : 1 <= lo.
Hypothesis re_plain : plain re = true.
Hypothesis tail_out : forallb (fun c => negb (p c)) tail = true.

Lemma match_before_tail prev t n :
  match_items re prev (t ++ tail) = Some n -> n <= length t.
Proof.
  intros H. apply match_sound in H. apply accepts_last in H as (N1 & c & X & Y); auto.
  destruct (Nat.le_gt_cases n (length t)) as [|Hlt]; auto. exfalso.
  rewrite nth_error_app2 in X by lia.
  apply nth_error_In in X.
  rewrite forallb_forall in tail_out. apply tail_out in X.
  rewrite Y in X. discriminate.
Qed.

Lemma clean_tail : forall prev, clean re prev tail.
Proof.
  assert (G : forall d, (forall c, In c d -> In c tail) -> forall prev, clean re prev d).
  { induction d as [|c d IH]; intros Hin prev; simpl.
    - split; auto. destruct (match_items re prev []) as [n|] eqn:E; auto.
      apply match_sound in E. apply accepts_last in E as (N1 & c & X & _); auto.
      destruct (n - 1); discriminate.
    - split.
      + destruct (match_items re prev (c :: d)) as [n|] eqn:E; auto. exfalso.
        apply match_sound in E. apply accepts_last in E as (N1 & x & X & Y); auto.
        apply nth_error_In in X. apply Hin in X.
        rewrite forallb_forall in tail_out. apply tail_out in X.
        rewrite Y in X. discriminate.
      + apply IH. intros x Hx. apply Hin. simpl. auto. }
  apply G. auto.
Qed.

(** Where the pattern matched nowhere, it matches nowhere in a prefix
    followed by the tail. *)
Lemma clean_truncate : forall s k prev,
  clean re prev s -> clean re prev (firstn k s ++ tail).
Proof.
  induction s as [|c s IH]; intros k prev H.
  - rewrite firstn_nil. apply clean_tail.
  - destruct k as [|k]; [apply clean_tail|].
    destruct H as [H Hs]. cbn [firstn app]. split; [|apply IH; auto].
    destruct (match_items re prev (c :: firstn k s ++ tail)) as [n|] eqn:E; auto.
    exfalso.
    pose proof (match_before_tail prev (c :: firstn k s) n E) as Hn.
    apply match_sound in E.
    apply (match_complete re prev (c :: s) n); auto.
    eapply accepts_agree; eauto.
    intros i Hi.
    assert (Hi' : i < length (firstn (S k) (c :: s))) by (cbn [firstn]; lia).
    destruct (nth_error (firstn (S k) (c :: s)) i) as [x|] eqn:X.
    2:{ apply nth_error_None in X. lia. }
    exists x, x. repeat split.
    + change (c :: firstn k s ++ tail) with (firstn (S k) (c :: s) ++ tail).
      rewrite nth_error_app1 by lia. auto.
    + rewrite nth_error_firstn in X.
      destruct (i <? S k); [auto|discriminate].
    + apply same_classes_refl.
Qed.

End Truncation.

Lemma dots_not_token : forallb (fun c => negb (is_token c)) (js "...") = true.
Proof. reflexivity. Qed.

Lemma dots_not_hex : forallb (fun c => negb (is_hex_i c)) (js "...") = true.
Proof. reflexivity. Qed.

Lemma dots_not_alpha : forallb (fun c => negb (is_alpha c)) (js "...") = true.
Proof. reflexivity. Qed.

(** The three plain patterns match nowhere in a sanitized message, cut or
    not. *)
Lemma sanitize_clean m :
  clean re_bearer None (sanitizeErrorMessage m) /\
  clean re_hex None (sanitizeErrorMessage m) /\
  clean re_email None (sanitizeErrorMessage m).
Proof.
  destruct (redact_clean m) as (A & B & C & _).
  unfold sanitizeErrorMessage. cbv zeta.
  destruct (200 <? length (redact m)); [|auto].
  unfold substring0. repeat split.
  - apply (clean_truncate
             [ one (lit_i "B"); one (lit_i "e"); one (lit_i "a"); one (lit_i "r");
               one (lit_i "e"); one (lit_i "r"); plus is_space ]
             is_token 1 None (js "...")); auto using dots_not_token.
  - apply (clean_truncate [] is_hex_i 32 None (js "...")); auto using dots_not_hex.
    lia.
  - apply (clean_truncate
             [ plus is_local; one (lit "@"); plus is_domain; one (lit ".") ]
             is_alpha 2 None (js "...")); auto using dots_not_alpha.
Qed.

Lemma sanitize_length m : length (sanitizeErrorMessage m) <= 203.
Proof.
  unfold sanitizeErrorMessage. cbv zeta.
  destruct (200 <? length (redact m)) eqn:E.
  - unfold substring0. rewrite length_app, firstn_length_le.
    + simpl. lia.
    + apply Nat.ltb_lt in E. lia.
  - apply Nat.ltb_ge in E. lia.
Qed.

Lemma sanitize_cut_length m :
  200 < length (redact m) -> length (sanitizeErrorMessage m) = 203.
Proof.
  intros H. unfold sanitizeErrorMessage. cbv zeta.
  pose proof H as H'. apply Nat.ltb_lt in H'. rewrite H'.
  unfold substring0. rewrite length_app, firstn_length_le by lia. reflexivity.
Qed.

(** X1: a sanitized message is at most 203 code units long: the redacted
    text itself when that has at most 200 code units, and otherwise its
    first 200 code units followed by three dots. *)
Theorem sanitize_output_is_bounded (m : jsstring) :
  length (sanitizeErrorMessage m) <= 203 /\
  (length (redact m) <= 200 -> sanitizeErrorMessage m = redact m) /\
  (200 < length (redact m) ->
   sanitizeErrorMessage m = firstn 200 (redact m) ++ js "..." /\
   length (sanitizeErrorMessage m) = 203 /\
   forall i, i < 200 ->
             nth_error (sanitizeErrorMessage m) i = nth_error (redact m) i).
Proof.
  split; [apply sanitize_length|].
  unfold sanitizeErrorMessage. cbv zeta. split.
  - intros H. apply Nat.ltb_ge in H. rewrite H. reflexivity.
  - intros H. pose proof H as H'. apply Nat.ltb_lt in H'. rewrite H'.
    unfold substring0. split; [reflexivity|]. split.
    + rewrite length_app, firstn_length_le by lia. reflexivity.
    + intros i Hi. rewrite nth_error_app1 by (rewrite firstn_length_le; lia).
      rewrite nth_error_firstn.
      replace (i <? 200) with true by (symmetry; apply Nat.ltb_lt; lia).
      reflexivity.
Qed.

(** X2: whatever the message, and whether it was cut or not, the sanitized
    text holds no match of the bearer pattern, of the 32-or-more hexadecimal
    digits pattern or of the e-mail pattern. *)
Theorem sanitize_leaves_no_token_id_or_email (m : jsstring) :
  regex_test re_bearer (sanitizeErrorMessage m) = false /\
  regex_test re_hex (sanitizeErrorMessage m) = false /\
  regex_test re_email (sanitizeErrorMessage m) = false.
Proof.
  destruct (sanitize_clean m) as (A & B & C).
  repeat split; apply regex_test_clean; assumption.
Qed.

(** X3: when the redacted text is not cut (it has at most 200 code units),
    the sanitized text holds no match of the address pattern either. *)
Theorem sanitize_leaves_no_address_below_the_limit (m : jsstring) :
  length (redact m) <= 200 ->
  regex_test re_ip (sanitizeErrorMessage m) = false.
Proof.
  intros H. apply regex_test_clean.
  unfold sanitizeErrorMessage. cbv zeta.
  apply Nat.ltb_ge in H. rewrite H.
  apply redact_clean.
Qed.

Lemma sanitize_leaves_no_address_below_the_limit_witness :
  regex_test re_ip (js "blocked 10.0.0.1 and 192.168.1.20, see 1.2.3.4") = true /\
  regex_test re_ip
    (sanitizeErrorMessage (js "blocked 10.0.0.1 and 192.168.1.20, see 1.2.3.4")) = false.
Proof.
  split; [vm_compute; reflexivity|].
  apply (sanitize_leaves_no_address_below_the_limit
           (js "blocked 10.0.0.1 and 192.168.1.20, see 1.2.3.4")).
  apply Nat.leb_le. vm_compute. reflexivity.
Defined.

(** *** Messages that pass unchanged *)

Lemma redact_of_clean m :
  clean re_bearer None m -> clean re_hex None m ->
  clean re_email None m -> clean re_ip None m ->
  redact m = m.
Proof.
  intros A B C D. unfold redact, replaceAll.
  rewrite (clean_identity re_bearer mk_bearer None _ A).
  rewrite (clean_identity re_hex mk_id None _ B).
  rewrite (clean_identity re_email mk_email None _ C).
  rewrite (clean_identity re_ip mk_ip None _ D).
  reflexivity.
Qed.

(** X4: a message of at most 200 code units passes the sanitizer unchanged
    exactly when none of the four patterns matches anywhere in it. *)
Theorem sanitize_keeps_exactly_the_clean_messages (m : jsstring) :
  length m <= 200 ->
  (sanitizeErrorMessage m = m <->
   regex_test re_bearer m = false /\ regex_test re_hex m = false /\
   regex_test re_email m = false /\ regex_test re_ip m = false).
Proof.
  intros L. split.
  - intros E.
    destruct (Nat.le_gt_cases (length (redact m)) 200) as [H|H].
    + assert (R : redact m = m).
      { rewrite <- E at 2. unfold sanitizeErrorMessage. cbv zeta.
        apply Nat.ltb_ge in H. rewrite H. reflexivity. }
      destruct (redact_clean m) as (A & B & C & D). rewrite R in *.
      repeat split; apply regex_test_clean; assumption.
    + exfalso.
      pose proof (sanitize_cut_length m H) as Hl.
      rewrite E in Hl. lia.
  - intros (A & B & C & D). apply regex_test_clean in A, B, C, D.
    unfold sanitizeErrorMessage. cbv zeta.
    rewrite (redact_of_clean m A B C D).
    apply Nat.ltb_ge in L. rewrite L. reflexivity.
Qed.

Lemma sanitize_keeps_exactly_the_clean_messages_witness :
  sanitizeErrorMessage (js "Rule expression is not valid: unknown field") =
  js "Rule expression is not valid: unknown field".
Proof.
  apply (proj2 (sanitize_keeps_exactly_the_clean_messages
                  (js "Rule expression is not valid: unknown field")
                  ltac:(apply Nat.leb_le; vm_compute; reflexivity))).
  repeat split; vm_compute; reflexivity.
Defined.

(** *** Substrings *)

Lemma starts_with_split : forall needle hay,
  starts_with needle hay = true <-> exists post, hay = needle ++ post.
Proof.
  induction needle as [|x needle IH]; intros hay; simpl.
  - split; eauto.
  - destruct hay as [|y hay].
    + split; [discriminate|]. intros (post & H). discriminate.
    + rewrite andb_true_iff, cu_eqb_eq, IH. split.
      * intros (-> & post & ->). eauto.
      * intros (post & H). injection H as -> ->. eauto.
Qed.

Lemma includes_split : forall hay needle,
  includes hay needle = true <-> exists pre post, hay = pre ++ needle ++ post.
Proof.
  induction hay as [|c hay IH]; intros needle; simpl.
  - rewrite orb_false_r, starts_with_split. split.
    + intros (post & H). exists [], post. auto.
    + intros (pre & post & H). destruct pre; simpl in H.
      * eauto.
      * discriminate.
  - rewrite orb_true_iff, starts_with_split, IH. split.
    + intros [(post & H)|(pre & post & H)].
      * exists [], post. auto.
      * exists (c :: pre), post. simpl. congruence.
    + intros (pre & post & H). destruct pre as [|x pre]; simpl in H.
      * left. eauto.
      * right. injection H as -> ->. eauto.
Qed.

Lemma clean_app re : forall pre prev s,
  clean re prev (pre ++ s) -> clean re (last_seen prev pre) s.
Proof.
  induction pre as [|c pre IH]; intros prev s H; simpl in *; auto.
  destruct H as [_ H]. apply IH in H. auto.
Qed.

(** Where the pattern matches nowhere, no substring starts a match. *)
Lemma clean_no_substring re hay needle :
  clean re None hay ->
  (forall prev post, match_items re prev (needle ++ post) <> None) ->
  includes hay needle = false.
Proof.
  intros C M. destruct (includes hay needle) eqn:E; auto. exfalso.
  apply includes_split in E as (pre & post & ->).
  apply clean_app in C. apply (M (last_seen None pre) post).
  destruct (needle ++ post); simpl in C; tauto.
Qed.

(** *** Building and computing matches *)

Lemma accepts_one p re prev c s n :
  p c = true -> accepts re (Some c) s n -> accepts (one p :: re) prev (c :: s) (S n).
Proof.
  intros Hp H. simpl. exists 1. simpl. rewrite Hp.
  repeat split; auto; try lia. rewrite Nat.sub_0_r. auto.
Qed.

Lemma accepts_plus_one p re prev c s n :
  p c = true -> accepts re (Some c) s n -> accepts (plus p :: re) prev (c :: s) (S n).
Proof.
  intros Hp H. simpl. exists 1. simpl. rewrite Hp.
  repeat split; auto; try lia. rewrite Nat.sub_0_r. auto.
Qed.

Lemma run_zero p s : run p (Some 0) s = 0.
Proof. destruct s; reflexivity. Qed.

(** A literal that fits is consumed; the match goes on after it. *)
Lemma match_one_hit p re prev c s :
  p c = true ->
  match_items (one p :: re) prev (c :: s) =
  match match_items re (Some c) s with
  | Some m => Some (S m)
  | None => None
  end.
Proof.
  intros Hp. unfold one. cbn [match_items].
  assert (R : run p (Some 1) (c :: s) = 1) by (cbn [run]; rewrite Hp, run_zero; auto).
  rewrite R. cbn [try_down Nat.leb prev_after nth_error skipn].
  destruct (match_items re (Some c) s); reflexivity.
Qed.

Lemma run_all p : forall s, forallb p s = true -> run p None s = length s.
Proof.
  induction s as [|c s IH]; simpl; auto.
  intros H. apply andb_true_iff in H as [-> H]. rewrite IH; auto.
Qed.

Lemma run_stop p hi c s : p c = false -> run p hi (c :: s) = 0.
Proof. intros H. destruct hi as [[|h]|]; simpl; rewrite ?H; reflexivity. Qed.

(** A class at the end of a pattern takes the whole run. *)
Lemma match_last_class p lo prev s :
  lo <= run p None s ->
  match_items [Cls p lo None] prev s = Some (run p None s).
Proof.
  intros H. cbn [match_items].
  destruct (run p None s) as [|k] eqn:E; cbn [try_down].
  - replace (lo <=? 0) with true by (symmetry; apply Nat.leb_le; lia).
    reflexivity.
  - replace (lo <=? S k) with true by (symmetry; apply Nat.leb_le; lia).
    rewrite Nat.add_0_r. reflexivity.
Qed.

(** Greedy repetition: when the rest of the pattern matches after the whole
    run, that is the match. *)
Lemma match_class_greedy p lo hi re prev s m :
  lo <= run p hi s ->
  match_items re (prev_after (run p hi s) prev s) (skipn (run p hi s) s) = Some m ->
  match_items (Cls p lo hi :: re) prev s = Some (run p hi s + m).
Proof.
  intros H E. cbn [match_items].
  destruct (run p hi s) as [|k]; cbn [try_down].
  - replace (lo <=? 0) with true by (symmetry; apply Nat.leb_le; lia).
    rewrite E. reflexivity.
  - replace (lo <=? S k) with true by (symmetry; apply Nat.leb_le; lia).
    rewrite E. reflexivity.
Qed.

(** The rest of a replaced match is dropped. *)
Lemma replace_go_drop re marker :
  (forall prev, match_items re prev [] = None) ->
  forall s prev, replace_go re marker (length s) prev s = [].
Proof.
  intros Hnil. induction s as [|c s IH]; intros prev; simpl.
  - rewrite Hnil. reflexivity.
  - apply IH.
Qed.

(** A match that covers the whole input leaves the marker alone. *)
Lemma replace_whole re marker prev c s :
  (forall prev0, match_items re prev0 [] = None) ->
  match_items re prev (c :: s) = Some (length (c :: s)) ->
  replace_go re marker 0 prev (c :: s) = marker.
Proof.
  intros Hnil E. rewrite replace_go_cons, E. cbn [length].
  rewrite replace_go_drop by assumption. apply app_nil_r.
Qed.

(** *** The header the client sends *)

Lemma token_not_space c : is_token c = true -> is_space c = false.
Proof.
  intros H. destruct (is_space c) eqn:E; auto. exfalso.
  unfold_classes. b2p; lia.
Qed.

(** One space and then the token: [\s+] takes the space, the token class
    all of the token. *)
Lemma match_space_token prev (sp c : codeunit) (tok : jsstring) :
  is_space sp = true -> forallb is_token (c :: tok) = true ->
  match_items [plus is_space; plus is_token] prev (sp :: c :: tok) =
  Some (1 + length (c :: tok)).
Proof.
  intros Hsp Hall. pose proof Hall as Htok. simpl in Htok.
  apply andb_true_iff in Htok as [Hc _].
  assert (Hrun : run is_space None (sp :: c :: tok) = 1).
  { cbn [run]. rewrite Hsp, (token_not_space c Hc). reflexivity. }
  rewrite <- Hrun at 1. unfold plus. apply match_class_greedy; [lia|].
  rewrite Hrun. cbn [prev_after nth_error skipn].
  rewrite match_last_class; rewrite run_all; auto. simpl. lia.
Qed.

Lemma bearer_match_header prev tok :
  tok <> [] -> forallb is_token tok = true ->
  match_items re_bearer prev (js "Bearer " ++ tok) = Some (7 + length tok).
Proof.
  intros Hne Htok. destruct tok as [|c tok]; [congruence|].
  unfold re_bearer. cbn [js list_ascii_of_string map app].
  rewrite !match_one_hit by reflexivity.
  rewrite match_space_token by auto. reflexivity.
Qed.

Lemma redact_header tok :
  tok <> [] -> forallb is_token tok = true ->
  redact (js "Bearer " ++ tok) = mk_bearer.
Proof.
  intros Hne Htok. unfold redact.
  assert (R : replaceAll re_bearer mk_bearer (js "Bearer " ++ tok) = mk_bearer).
  { unfold replaceAll. apply (replace_whole re_bearer mk_bearer None 66%N (js "earer " ++ tok)).
    - apply bearer_nil.
    - change (66%N :: js "earer " ++ tok) with (js "Bearer " ++ tok).
      rewrite bearer_match_header by auto. rewrite length_app. reflexivity. }
  rewrite R. vm_compute. reflexivity.
Qed.

Lemma bearer_matches_header prev tok post :
  tok <> [] -> forallb is_token tok = true ->
  match_items re_bearer prev ((js "Bearer " ++ tok) ++ post) <> None.
Proof.
  intros Hne Htok. destruct tok as [|c tok]; [congruence|].
  simpl in Htok. apply andb_true_iff in Htok as [Hc _].
  apply match_complete with (n := 8).
  unfold re_bearer. cbn [js list_ascii_of_string map app].
  repeat (apply accepts_one; [reflexivity|]).
  apply accepts_plus_one; [reflexivity|].
  apply accepts_plus_one; [exact Hc|].
  reflexivity.
Qed.

(** X5: the Authorization header the client sends with every request,
    ["Bearer "] followed by the access token, is redacted as a whole when the
    token is made of letters, digits, [_] and [-]: sanitized alone it becomes
    ["Bearer [REDACTED]"], and it occurs in no sanitized message. *)
Theorem authorization_header_is_redacted
        (accessToken : jsstring) (endpoint : Endpoint) (method : Method) (body : Body)
        (query : GraphqlQuery) (zoneTag t0 t1 : jsstring) :
  accessToken <> [] ->
  forallb is_token accessToken = true ->
  let header := req_authorization (rest_call accessToken endpoint method body) in
  gq_authorization (graphql_call accessToken query zoneTag t0 t1) = header /\
  sanitizeErrorMessage header = js "Bearer [REDACTED]" /\
  forall m, includes (sanitizeErrorMessage m) header = false.
Proof.
  intros Hne Htok header. unfold header. cbn [rest_call graphql_call req_authorization
                                                gq_authorization].
  split; [reflexivity|]. split.
  - unfold sanitizeErrorMessage. cbv zeta. rewrite redact_header by auto.
    reflexivity.
  - intros m. apply (clean_no_substring re_bearer).
    + apply sanitize_clean.
    + intros prev post. apply bearer_matches_header; auto.
Qed.

Lemma authorization_header_is_redacted_witness :
  sanitizeErrorMessage (js "Bearer v1_0-AbC9") = js "Bearer [REDACTED]" /\
  includes (sanitizeErrorMessage (js "refused: Bearer v1_0-AbC9 expired"))
           (js "Bearer v1_0-AbC9") = false.
Proof.
  destruct (authorization_header_is_redacted (js "v1_0-AbC9")
              (EpRulesets zone0) GET NoBody GetSecuritySummary zone0 [] []
              ltac:(discriminate) eq_refl) as (_ & A & B).
  split; [exact A|apply B].
Defined.

(** *** Identifiers *)

Lemma hex_lower_i c : is_hex_lower c = true -> is_hex_i c = true.
Proof. unfold is_hex_lower, is_hex_i. intros H. b2p; rewrite H; auto using orb_true_r. Qed.

Lemma forallb_hex_lower_i s : forallb is_hex_lower s = true -> forallb is_hex_i s = true.
Proof.
  intros H. apply forallb_forall. intros c Hc.
  rewrite forallb_forall in H. auto using hex_lower_i.
Qed.

Lemma hex_not_r c : is_hex_i c = true -> lit_i "r" c = false.
Proof.
  intros H. destruct (lit_i "r" c) eqn:E; auto. exfalso.
  apply lit_lower_cases in E; [|reflexivity].
  destruct E as [-> | ->]; discriminate.
Qed.

(** The bearer pattern needs an [r]: it matches nowhere among hexadecimal
    digits. *)
Lemma hex_run_bearer_clean : forall s prev,
  forallb is_hex_i s = true -> clean re_bearer prev s.
Proof.
  induction s as [|c s IH]; intros prev H.
  - simpl. auto using bearer_nil.
  - simpl in H. apply andb_true_iff in H as [Hc H]. split; [|auto].
    destruct (match_items re_bearer prev (c :: s)) as [n|] eqn:E; auto. exfalso.
    apply match_sound in E. unfold re_bearer in E.
    apply one_step in E as (c1 & s1 & E1 & _ & _ & E).
    apply one_step in E as (c2 & s2 & -> & _ & _ & E).
    apply one_step in E as (c3 & s3 & -> & _ & _ & E).
    apply one_step in E as (c4 & s4 & -> & H4 & _ & _).
    injection E1 as -> ->.
    simpl in H. repeat (apply andb_true_iff in H as [? H]).
    rewrite hex_not_r in H4; auto. discriminate.
Qed.

Lemma forallb_firstn (p : codeunit -> bool) : forall k s,
  forallb p s = true -> forallb p (firstn k s) = true.
Proof.
  induction k as [|k IH]; intros [|c s] H; simpl in *; auto.
  apply andb_true_iff in H as [-> H]. simpl. auto.
Qed.

Lemma hex_matches_run prev x post :
  32 <= length x -> forallb is_hex_i x = true ->
  match_items re_hex prev (x ++ post) <> None.
Proof.
  intros L H. apply match_complete with (n := 32).
  unfold re_hex. simpl. exists 32. repeat split; auto; try lia.
  - rewrite length_app. lia.
  - rewrite firstn_app. replace (32 - length x) with 0 by lia.
    rewrite firstn_O, app_nil_r. apply forallb_firstn. auto.
Qed.

Lemma redact_hex_run x :
  32 <= length x -> forallb is_hex_i x = true -> redact x = mk_id.
Proof.
  intros L H. unfold redact.
  assert (B : replaceAll re_bearer mk_bearer x = x).
  { apply clean_identity. apply hex_run_bearer_clean. auto. }
  assert (R : replaceAll re_hex mk_id x = mk_id).
  { unfold replaceAll. destruct x as [|c x]; [simpl in L; lia|].
    apply replace_whole; [apply hex_nil|].
    unfold re_hex. rewrite match_last_class; rewrite run_all; auto. }
  rewrite B, R. vm_compute. reflexivity.
Qed.

(** X6: an identifier the schemas accept (32 lower-case hexadecimal digits)
    is redacted as a whole: sanitized alone it becomes ["[REDACTED_ID]"], and
    it occurs in no sanitized message. *)
Theorem sanitize_leaves_no_identifier (ident : jsstring) :
  cloudflareIdSchema ident = true ->
  sanitizeErrorMessage ident = js "[REDACTED_ID]" /\
  forall m, includes (sanitizeErrorMessage m) ident = false.
Proof.
  intros H. apply cloudflareIdSchema_iff in H as [L H].
  apply forallb_hex_lower_i in H. split.
  - unfold sanitizeErrorMessage. cbv zeta. rewrite redact_hex_run by (auto; lia).
    reflexivity.
  - intros m. apply (clean_no_substring re_hex).
    + apply sanitize_clean.
    + intros prev post. apply hex_matches_run; auto. lia.
Qed.

Lemma sanitize_leaves_no_identifier_witness :
  sanitizeErrorMessage zone0 = js "[REDACTED_ID]" /\
  includes
    (sanitizeErrorMessage (js "zone 0123456789abcdef0123456789abcdef is locked"))
    zone0 = false.
Proof.
  destruct (sanitize_leaves_no_identifier zone0 eq_refl) as (A & B).
  split; [exact A|apply B].
Defined.

(** *** E-mail addresses *)

Lemma agree_refl re n s : n <= length s -> agree re n s s.
Proof.
  intros L i Hi. destruct (nth_error s i) as [c|] eqn:E.
  - exists c, c. repeat split; auto using same_classes_refl.
  - apply nth_error_None in E. lia.
Qed.

(** A class can take a whole run of its code units. *)
Lemma accepts_run p lo hi re prev prev' l rest n :
  plain re = true ->
  lo <= length l -> capped (length l) hi = true -> forallb p l = true ->
  accepts re prev' rest n ->
  accepts (Cls p lo hi :: re) prev (l ++ rest) (length l + n).
Proof.
  intros Hp Hlo Hc Hf H. cbn [accepts]. exists (length l).
  split; [auto|]. split; [auto|]. split; [rewrite length_app; lia|].
  split.
  { rewrite firstn_app, Nat.sub_diag, firstn_O, app_nil_r, firstn_all. auto. }
  split; [lia|].
  rewrite skipn_app, Nat.sub_diag, skipn_all, skipn_O. cbn [app].
  replace (length l + n - length l) with n by lia.
  eapply accepts_agree; eauto. apply agree_refl.
  eapply accepts_length; eauto.
Qed.

Lemma email_matches prev local domain tld post :
  local <> [] -> forallb is_local local = true ->
  domain <> [] -> forallb is_domain domain = true ->
  2 <= length tld -> forallb is_alpha tld = true ->
  match_items re_email prev
    ((local ++ js "@" ++ domain ++ js "." ++ tld) ++ post) <> None.
Proof.
  intros L1 L2 D1 D2 T1 T2.
  apply match_complete
    with (n := length local + (1 + (length domain + (1 + (length tld + 0))))).
  rewrite <- !app_assoc. cbn [js list_ascii_of_string map app].
  unfold re_email, plus.
  apply accepts_run with (prev' := None); auto.
  { destruct local; [congruence|simpl; lia]. }
  cbn [Nat.add]. apply accepts_one; [reflexivity|].
  apply accepts_run with (prev' := None); auto.
  { destruct domain; [congruence|simpl; lia]. }
  cbn [Nat.add]. apply accepts_one; [reflexivity|].
  apply accepts_run with (prev' := None); auto. reflexivity.
Qed.

(** X7: no e-mail address survives: a text made of a local part
    ([a-zA-Z0-9._%+-], at least one), [@], a domain ([a-zA-Z0-9.-], at least
    one), a dot and at least two letters occurs in no sanitized message. *)
Theorem sanitize_leaves_no_email_address (local domain tld : jsstring) :
  local <> [] -> forallb is_local local = true ->
  domain <> [] -> forallb is_domain domain = true ->
  2 <= length tld -> forallb is_alpha tld = true ->
  forall m,
    includes (sanitizeErrorMessage m)
             (local ++ js "@" ++ domain ++ js "." ++ tld) = false.
Proof.
  intros L1 L2 D1 D2 T1 T2 m.
  apply (clean_no_substring re_email).
  - apply sanitize_clean.
  - intros prev post. apply email_matches; auto.
Qed.

Lemma sanitize_leaves_no_email_address_witness :
  includes (js "mail from ops@example.com bounced") (js "ops@example.com") = true /\
  includes (sanitizeErrorMessage (js "mail from ops@example.com bounced"))
           (js "ops@example.com") = false.
Proof.
  split; [vm_compute; reflexivity|].
  apply (sanitize_leaves_no_email_address (js "ops") (js "example") (js "com")
           ltac:(discriminate) eq_refl ltac:(discriminate) eq_refl
           ltac:(simpl; lia) eq_refl).
Defined.

(** ** The second pass of the write tools *)

(** A code unit that is in no class of a pattern without assertions fences
    off what precedes it: a text in which the pattern matches nowhere, such a
    code unit, and another text in which it matches nowhere. *)
Lemma fence_clean re b rest :
  plain re = true -> in_some_class re b = false ->
  (forall prev, match_items re prev [] = None) ->
  clean re None rest ->
  forall A prev0 prev, clean re prev0 A -> clean re prev (A ++ b :: rest).
Proof.
  intros Hp Hb Hnil Hrest.
  assert (N : forall prev u n, accepts re prev (u ++ b :: rest) n -> n <= length u).
  { intros prev u n H. destruct (Nat.le_gt_cases n (length u)) as [|Hlt]; auto.
    destruct (accepts_chars _ _ _ _ H (length u) Hlt) as (c & X & Y).
    rewrite nth_error_app2 in X by lia. rewrite Nat.sub_diag in X. simpl in X.
    injection X as <-. congruence. }
  assert (M : forall prev prev' u, match_items re prev (u ++ b :: rest) <> None ->
                                   match_items re prev' u <> None).
  { intros prev prev' u H.
    destruct (match_items re prev (u ++ b :: rest)) as [n|] eqn:E; [|congruence].
    apply match_sound in E. pose proof (N _ _ _ E) as Hn.
    apply match_complete with (n := n).
    eapply accepts_agree; eauto.
    intros i Hi. destruct (accepts_chars _ _ _ _ E i Hi) as (c & X & _).
    exists c, c. repeat split; auto using same_classes_refl.
    rewrite nth_error_app1 in X by lia. auto. }
  induction A as [|c A IH]; intros prev0 prev H.
  - cbn [app]. split.
    + destruct (match_items re prev (b :: rest)) eqn:E; auto. exfalso.
      apply (M prev None []); [cbn [app]; congruence|apply Hnil].
    + eapply clean_prev; eauto.
  - destruct H as [H Hs]. cbn [app]. split; [|eapply IH; eauto].
    destruct (match_items re prev (c :: A ++ b :: rest)) eqn:E; auto. exfalso.
    apply (M prev prev0 (c :: A)); [cbn [app]; congruence|congruence].
Qed.

(** The address pattern reads the code unit before a match only to tell
    whether it is a word character. *)
Lemma accepts_class_prev p lo hi re prev prev' s n :
  1 <= lo ->
  accepts (Cls p lo hi :: re) prev s n -> accepts (Cls p lo hi :: re) prev' s n.
Proof.
  intros Hlo (k & A & B & C & D & E & F).
  exists k. repeat split; auto.
  destruct k as [|k]; [lia|]. exact F.
Qed.

Lemma ip_match_prev prev prev' s :
  is_word_opt prev = is_word_opt prev' ->
  match_items re_ip prev s = None -> match_items re_ip prev' s = None.
Proof.
  intros W H. destruct (match_items re_ip prev' s) as [n|] eqn:E; auto. exfalso.
  apply match_sound in E. unfold re_ip in E. cbn [accepts] in E.
  destruct E as [B E].
  assert (X : match_items re_ip prev s <> None); [|congruence].
  apply match_complete with (n := n). unfold re_ip. cbn [accepts]. split.
  - unfold at_boundary in *. rewrite W. exact B.
  - destruct E as (k & A1 & A2 & A3 & A4 & A5 & E).
    exists k. repeat split; auto.
    destruct k as [|k]; [lia|]. exact E.
Qed.

Lemma ip_clean_prev prev prev' s :
  is_word_opt prev = is_word_opt prev' ->
  clean re_ip prev s -> clean re_ip prev' s.
Proof.
  intros W H. destruct s as [|c s]; destruct H as [H Hs]; split; auto;
    eapply ip_match_prev; eauto.
Qed.

(** In front of a redacted text the prefix of [request] creates no match. *)
Lemma prefix_keeps_clean y :
  clean re_bearer None y -> clean re_hex None y ->
  clean re_email None y -> clean re_ip None y ->
  clean re_bearer None (api_error_prefix ++ y) /\
  clean re_hex None (api_error_prefix ++ y) /\
  clean re_email None (api_error_prefix ++ y) /\
  clean re_ip None (api_error_prefix ++ y).
Proof.
  intros A B C D. split; [|split; [|split]].
  - assert (Y : clean re_bearer None (32%N :: y)).
    { split.
      - reflexivity.
      - eapply clean_prev; eauto using bearer_plain. }
    apply (fence_clean re_bearer 58%N (32%N :: y) bearer_plain eq_refl bearer_nil Y
             (js "Cloudflare API error") None None).
    apply regex_test_clean. vm_compute. reflexivity.
  - apply (fence_clean re_hex 32%N y hex_plain eq_refl hex_nil B
             (js "Cloudflare API error:") None None).
    apply regex_test_clean. vm_compute. reflexivity.
  - apply (fence_clean re_email 32%N y email_plain eq_refl email_nil C
             (js "Cloudflare API error:") None None).
    apply regex_test_clean. vm_compute. reflexivity.
  - apply ip_clean_after; [reflexivity|].
    apply ip_clean_prev with (prev := None); auto.
Qed.

Lemma second_pass_identity m :
  length (redact m) <= 178 ->
  sanitizeErrorMessage (api_error_prefix ++ sanitizeErrorMessage m) =
  api_error_prefix ++ redact m.
Proof.
  intros L.
  assert (S1 : sanitizeErrorMessage m = redact m).
  { unfold sanitizeErrorMessage. cbv zeta.
    replace (200 <? length (redact m)) with false; auto.
    symmetry. apply Nat.ltb_ge. lia. }
  rewrite S1.
  destruct (redact_clean m) as (A & B & C & D).
  destruct (prefix_keeps_clean _ A B C D) as (A' & B' & C' & D').
  unfold sanitizeErrorMessage. cbv zeta.
  rewrite (redact_of_clean _ A' B' C' D').
  replace (200 <? length (api_error_prefix ++ redact m)) with false; auto.
  symmetry. apply Nat.ltb_ge. rewrite length_app.
  change (length api_error_prefix) with 22. lia.
Qed.

(** ** Request URLs *)

(** X8: for identifiers the schemas accept, [encodeURIComponent] changes
    nothing and raises nothing, so the URL of each request is the base URL
    followed by the path with the identifiers written as they are. *)
Theorem request_url_of_valid_identifiers (zoneId rulesetId ruleId : jsstring) :
  cloudflareIdSchema zoneId = true ->
  cloudflareIdSchema rulesetId = true ->
  cloudflareIdSchema ruleId = true ->
  request_url (EpEntrypoint zoneId custom_phase) =
    Ok (js "https://api.cloudflare.com/client/v4/zones/" ++ zoneId ++
        js "/rulesets/phases/http_request_firewall_custom/entrypoint") /\
  request_url (EpRulesets zoneId) =
    Ok (js "https://api.cloudflare.com/client/v4/zones/" ++ zoneId ++ js "/rulesets") /\
  request_url (EpRules zoneId rulesetId) =
    Ok (js "https://api.cloudflare.com/client/v4/zones/" ++ zoneId ++
        js "/rulesets/" ++ rulesetId ++ js "/rules") /\
  request_url (EpRule zoneId rulesetId ruleId) =
    Ok (js "https://api.cloudflare.com/client/v4/zones/" ++ zoneId ++
        js "/rulesets/" ++ rulesetId ++ js "/rules/" ++ ruleId).
Proof.
  intros Z R U.
  apply encode_identifier in Z, R, U.
  assert (P : encodeURIComponent custom_phase = Ok custom_phase)
    by (vm_compute; reflexivity).
  unfold request_url, endpoint_path. cbn [template].
  rewrite Z, R, U, P. cbn [template]. rewrite !app_nil_r.
  repeat split; rewrite <- ?app_assoc; reflexivity.
Qed.

Lemma request_url_of_valid_identifiers_witness :
  request_url (EpRule zone0 ruleset_id_0 rule_id_1) =
  Ok (js "https://api.cloudflare.com/client/v4/zones/0123456789abcdef0123456789abcdef/rulesets/00000000000000000000000000000000/rules/11111111111111111111111111111111").
Proof.
  rewrite (proj2 (proj2 (proj2 (request_url_of_valid_identifiers
                                  zone0 ruleset_id_0 rule_id_1
                                  eq_refl eq_refl eq_refl)))).
  reflexivity.
Defined.

Lemma unreserved_not_delimiter c : is_unreserved c = true -> is_delimiter c = false.
Proof.
  intros H. destruct (is_delimiter c) eqn:E; auto. exfalso.
  unfold is_delimiter, cu_eqb in E. b2p; subst; discriminate.
Qed.

Lemma hex_digit_upper_not_delimiter d : is_delimiter (hex_digit_upper d) = false.
Proof.
  destruct (is_delimiter (hex_digit_upper d)) eqn:E; auto. exfalso.
  unfold is_delimiter, cu_eqb, hex_digit_upper in E.
  destruct (d <? 10)%N eqn:D; b2p; apply N.ltb_lt in D || apply N.ltb_ge in D; lia.
Qed.

Lemma percent_no_delimiter : forall octets,
  forallb (fun c => negb (is_delimiter c)) (concat (map percent octets)) = true.
Proof.
  induction octets as [|o octets IH]; [reflexivity|].
  cbn [map concat percent app forallb].
  rewrite !hex_digit_upper_not_delimiter, IH. reflexivity.
Qed.

Lemma escaped_no_delimiter cp rest t :
  (forall r, rest = Ok r -> forallb (fun c => negb (is_delimiter c)) r = true) ->
  escaped cp rest = Ok t ->
  forallb (fun c => negb (is_delimiter c)) t = true.
Proof.
  intros H E. unfold escaped in E. destruct rest as [r|e]; [|discriminate].
  injection E as <-. rewrite forallb_app, percent_no_delimiter, H; auto.
Qed.

Lemma encode_no_delimiter : forall n s t,
  length s <= n ->
  encodeURIComponent s = Ok t ->
  forallb (fun c => negb (is_delimiter c)) t = true.
Proof.
  induction n as [|n IH]; intros s t L E.
  - destruct s; [|simpl in L; lia]. injection E as <-. reflexivity.
  - destruct s as [|c s]; [injection E as <-; reflexivity|].
    simpl in L. cbn [encodeURIComponent] in E.
    destruct (is_unreserved c) eqn:U.
    + destruct (encodeURIComponent s) as [r|e] eqn:R; [|discriminate].
      injection E as <-. cbn [forallb].
      rewrite (unreserved_not_delimiter c U), (IH s r); auto. lia.
    + destruct (is_low_surrogate c); [discriminate|].
      destruct (is_high_surrogate c).
      * destruct s as [|d s]; [discriminate|].
        destruct (is_low_surrogate d); [|discriminate].
        eapply escaped_no_delimiter; eauto.
        intros r Hr. apply (IH s r); auto. simpl in L. lia.
      * eapply escaped_no_delimiter; eauto.
        intros r Hr. apply (IH s r); auto. lia.
Qed.

(** X9: whatever a segment holds, its encoding holds no [/], no [?] and no
    [#], so an argument adds no path segment, query or fragment to the URL;
    the only exception [encodeURIComponent] raises is the URIError, and a
    segment of unreserved characters is left as it is. *)
Theorem encoded_segment_has_no_delimiter (s : jsstring) :
  (forall t, encodeURIComponent s = Ok t ->
             forallb (fun c => negb (is_delimiter c)) t = true) /\
  (forall e, encodeURIComponent s = Throw e -> e = URIError) /\
  (forallb is_unreserved s = true -> encodeURIComponent s = Ok s).
Proof.
  split; [|split].
  - intros t E. apply (encode_no_delimiter (length s) s t); auto.
  - intros e E. apply (encode_throws (length s) s e); auto.
  - apply encode_unreserved.
Qed.

(** ** The token of a request *)

Lemma truthy_nonempty t : t <> [] -> truthy t = true.
Proof. destruct t; [congruence|reflexivity]. Qed.

Lemma starts_with_prefix needle rest : starts_with needle (needle ++ rest) = true.
Proof. apply starts_with_split. eauto. Qed.

Lemma strip_leading_all pad rest :
  forallb is_http_whitespace pad = true ->
  strip_leading (pad ++ rest) = strip_leading rest.
Proof.
  induction pad as [|c pad IH]; intros H; [reflexivity|].
  simpl in H. apply andb_true_iff in H as [Hc H]. simpl. rewrite Hc. auto.
Qed.

Lemma strip_leading_length s : length (strip_leading s) <= length s.
Proof.
  induction s as [|d s IH]; simpl; [lia|].
  destruct (is_http_whitespace d); simpl; lia.
Qed.

Lemma strip_leading_fixed s rest :
  s <> [] -> strip_leading s = s -> strip_leading (s ++ rest) = s ++ rest.
Proof.
  destruct s as [|c s]; [congruence|]. intros _ H. simpl in *.
  destruct (is_http_whitespace c) eqn:E; [|reflexivity].
  exfalso. pose proof (strip_leading_length s) as L.
  rewrite H in L. simpl in L. lia.
Qed.

Lemma strip_trailing_fixed pre t :
  t <> [] -> strip_trailing t = t -> strip_trailing (pre ++ t) = pre ++ t.
Proof.
  intros N H. unfold strip_trailing in *. rewrite rev_app_distr.
  assert (R : strip_leading (rev t) = rev t).
  { rewrite <- (rev_involutive (strip_leading (rev t))), H. reflexivity. }
  rewrite strip_leading_fixed; auto.
  - rewrite <- rev_app_distr, rev_involutive. reflexivity.
  - intros E. apply N. rewrite <- (rev_involutive t), E. reflexivity.
Qed.

Lemma forallb_rev (p : codeunit -> bool) s : forallb p (rev s) = forallb p s.
Proof.
  induction s as [|c s IH]; [reflexivity|].
  simpl. rewrite forallb_app, IH. simpl. rewrite andb_true_r. apply andb_comm.
Qed.

(** The header ["Bearer"] followed by white space only is received as
    ["Bearer"]. *)
Lemma bare_bearer pad :
  forallb is_http_whitespace pad = true ->
  Headers_get (Some (js "Bearer" ++ pad)) = Some (js "Bearer").
Proof.
  intros H. unfold Headers_get, strip_trailing. f_equal.
  change (strip_leading (js "Bearer" ++ pad)) with (js "Bearer" ++ pad).
  rewrite rev_app_distr, strip_leading_all by (rewrite forallb_rev; exact H).
  reflexivity.
Qed.

(** What [strip_leading] returns starts with no white space. *)
Lemma strip_leading_head s c rest :
  strip_leading s = c :: rest -> is_http_whitespace c = false.
Proof.
  induction s as [|d s IH]; simpl; [discriminate|].
  destruct (is_http_whitespace d) eqn:E; auto. intros [= <- <-]. exact E.
Qed.

(** A received header that starts with ["Bearer "] holds a token. *)
Lemma received_bearer sent h :
  Headers_get sent = Some h -> starts_with (js "Bearer ") h = true ->
  slice7 h <> [].
Proof.
  destruct sent as [value|]; [|discriminate]. intros [= <-] S.
  apply starts_with_split in S as [t E]. rewrite E.
  change (slice7 (js "Bearer " ++ t)) with t. intros ->.
  unfold strip_trailing in E.
  apply (f_equal (@rev codeunit)) in E. rewrite rev_involutive in E.
  apply strip_leading_head in E. vm_compute in E. discriminate.
Qed.

(** X10: which token [fetch] uses. A received Authorization header that
    starts with ["Bearer "] always holds a token, and that token is used
    whatever the environment holds: so it is for ["Bearer "] followed by a
    non-empty token that does not end in white space, which the client then
    sends on in the same header. A header without that start is ignored in
    favour of the environment; this includes ["Bearer"] followed by white
    space only, which is received as ["Bearer"]. The token of the
    environment is taken with or without a ["Bearer "] prefix, and
    ["Bearer "] alone there gives no token. A token is never empty. *)
Theorem request_token_selection :
  (forall t envToken endpoint method body,
      t <> [] -> strip_trailing t = t ->
      client_token (Some (js "Bearer " ++ t)) envToken = Some t /\
      req_authorization (rest_call t endpoint method body) = js "Bearer " ++ t) /\
  (forall pad envToken,
      forallb is_http_whitespace pad = true ->
      client_token (Some (js "Bearer" ++ pad)) envToken = client_token None envToken) /\
  (forall sent h envToken,
      Headers_get sent = Some h -> starts_with (js "Bearer ") h = true ->
      client_token sent envToken = Some (slice7 h)) /\
  (forall sent h envToken,
      Headers_get sent = Some h -> starts_with (js "Bearer ") h = false ->
      client_token sent envToken = client_token None envToken) /\
  (forall t,
      t <> [] -> starts_with (js "Bearer ") t = false ->
      client_token None (Some t) = Some t /\
      client_token None (Some (js "Bearer " ++ t)) = Some t) /\
  client_token None (Some (js "Bearer ")) = None /\
  (forall sent envToken t, client_token sent envToken = Some t -> t <> []).
Proof.
  split; [|split; [|split; [|split; [|split; [|split]]]]].
  - intros t envToken endpoint method body Ht Hs. split; [|reflexivity].
    unfold client_token, request_token, Headers_get.
    change (strip_leading (js "Bearer " ++ t)) with (js "Bearer " ++ t).
    rewrite strip_trailing_fixed by assumption.
    rewrite starts_with_prefix.
    change (slice7 (js "Bearer " ++ t)) with t.
    rewrite truthy_nonempty; auto.
  - intros pad envToken H. unfold client_token, request_token.
    rewrite bare_bearer by assumption. reflexivity.
  - intros sent h envToken G S. unfold client_token, request_token.
    rewrite G. cbv zeta. rewrite S.
    rewrite truthy_nonempty; [reflexivity|]. eapply received_bearer; eauto.
  - intros sent h envToken G S. unfold client_token, request_token.
    rewrite G. cbv zeta. rewrite S. reflexivity.
  - intros t Ht H. unfold client_token, request_token. cbn [Headers_get]. split.
    + rewrite truthy_nonempty, H, truthy_nonempty; auto.
    + rewrite starts_with_prefix.
      change (truthy (js "Bearer " ++ t)) with true. cbv iota.
      change (slice7 (js "Bearer " ++ t)) with t.
      rewrite truthy_nonempty; auto.
  - reflexivity.
  - intros sent envToken t H. unfold client_token in H.
    destruct (request_token sent envToken) as [t0|]; [|discriminate].
    destruct t0; [discriminate|]. simpl in H. injection H as <-. discriminate.
Qed.

(** ** The requests of the client *)

Section RequestLog.

Variable World : Type.
Variable rest_fetch :
  RestRequest -> World -> Result (CloudflareApiResponse Ruleset) * World.
Variable accessToken : jsstring.

(** Every [request] adds its one call to the log, whatever the outcome. *)
Lemma request_calls endpoint method body st :
  calls (snd (request rest_fetch accessToken endpoint method body st)) =
  calls st ++ [RestCall (rest_call accessToken endpoint method body)].
Proof.
  rewrite request_run.
  destruct (rest_fetch _ (world st)) as [[data|e] w]; [destruct (success data)|];
    reflexivity.
Qed.

Lemma append_step_calls zoneId rule rulesetId st :
  encodable zoneId = true -> encodable rulesetId = true ->
  calls (snd (append_step rest_fetch accessToken zoneId rule rulesetId st)) =
  calls st ++ [post_rule accessToken zoneId rulesetId rule].
Proof.
  intros Z R. unfold append_step, post_rule. cbn [buildable]. rewrite Z, R. cbn [andb].
  pose proof (request_calls (EpRules zoneId rulesetId) POST (BodyRule rule) st) as H.
  destruct (request rest_fetch accessToken (EpRules zoneId rulesetId) POST
              (BodyRule rule) st) as [[d|e] st']; exact H.
Qed.

End RequestLog.

(** X11: the requests of one [createCustomRule] call, against any provider,
    for identifiers that can be encoded into the paths (building a path
    with one that cannot raises the URIError instead). When the entry-point
    GET succeeds, the only other request is the rule POST to the ruleset the
    GET returned. When it fails with a message holding neither "404" nor
    "not found", the failure is thrown again and nothing else is sent.
    Otherwise a ruleset creation follows: when it succeeds the rule POST
    goes to the created ruleset, and when it fails that failure is thrown
    and no rule is posted. *)
Theorem createCustomRule_request_sequence
        (World : Type)
        (rest_fetch : RestRequest -> World ->
                      Result (CloudflareApiResponse Ruleset) * World)
        (accessToken zoneId : jsstring) (rule : RuleSpec) (st : Net World) :
  encodable zoneId = true ->
  let run := createCustomRule rest_fetch accessToken zoneId rule st in
  let get := request rest_fetch accessToken (EpEntrypoint zoneId custom_phase)
                     GET NoBody st in
  let create := request rest_fetch accessToken (EpRulesets zoneId) POST
                        (BodyNewRuleset (js "Custom Firewall Rules") (js "zone")
                                        custom_phase []) in
  let G := get_entrypoint accessToken zoneId in
  let C := post_ruleset accessToken zoneId in
  (forall d1 st1,
      get = (Ok d1, st1) -> encodable (rs_id (result d1)) = true ->
      calls (snd run) =
      calls st ++ [G; post_rule accessToken zoneId (rs_id (result d1)) rule]) /\
  (forall e1 st1,
      get = (Throw e1, st1) -> signals_absent e1 = false ->
      run = (Throw e1, st1) /\ calls st1 = calls st ++ [G]) /\
  (forall e1 st1 d2 st2,
      get = (Throw e1, st1) -> signals_absent e1 = true ->
      create st1 = (Ok d2, st2) -> encodable (rs_id (result d2)) = true ->
      calls (snd run) =
      calls st ++ [G; C; post_rule accessToken zoneId (rs_id (result d2)) rule]) /\
  (forall e1 st1 e2 st2,
      get = (Throw e1, st1) -> signals_absent e1 = true ->
      create st1 = (Throw e2, st2) ->
      run = (Throw e2, st2) /\ calls st2 = calls st ++ [G; C]).
Proof.
  intros Z run get create G C.
  pose proof (request_calls World rest_fetch accessToken
                (EpEntrypoint zoneId custom_phase) GET NoBody st) as L1.
  fold get in L1.
  assert (L2 : forall st1, calls (snd (create st1)) = calls st1 ++ [C])
    by (intros st1; apply request_calls).
  unfold run. rewrite createCustomRule_run, Z. fold get. fold create.
  split; [|split; [|split]].
  - intros d1 st1 E R. rewrite E in *. cbn [snd] in L1.
    rewrite append_step_calls, L1, <- app_assoc by assumption. reflexivity.
  - intros e1 st1 E S. rewrite E in *. rewrite S. split; [reflexivity|exact L1].
  - intros e1 st1 d2 st2 E S E2 R. rewrite E in *. cbn [snd] in L1. rewrite S.
    specialize (L2 st1). rewrite E2 in *. cbn [snd] in L2.
    rewrite append_step_calls, L2, L1, <- !app_assoc by assumption. reflexivity.
  - intros e1 st1 e2 st2 E S E2. rewrite E in *. cbn [snd] in L1. rewrite S.
    specialize (L2 st1). rewrite E2 in *. cbn [snd] in L2.
    split; [reflexivity|]. rewrite L2, L1, <- app_assoc. reflexivity.
Qed.

Lemma createCustomRule_request_sequence_witness :
  calls (snd (createCustomRule (always_replies (ruleset_of [])) token0 zone0 rule_a
                fresh_net)) =
  [ get_entrypoint token0 zone0; post_rule token0 zone0 ruleset_id_0 rule_a ].
Proof.
  apply (proj1 (createCustomRule_request_sequence unit
                  (always_replies (ruleset_of [])) token0 zone0 rule_a fresh_net
                  eq_refl)
               (replied (ruleset_of []))
               {| world := tt; calls := [ get_entrypoint token0 zone0 ] |}
               eq_refl eq_refl).
Defined.

(** ** The write tools *)

Section WriteToolFacts.

Variable World : Type.
Variable rest_fetch :
  RestRequest -> World -> Result (CloudflareApiResponse Ruleset) * World.
Variable accessToken : jsstring.
Variable stringify_rule : RulesetRule -> jsstring.

(** A handler that wraps a client call in [try]/[catch] and answers a
    failure with a prefix and the sanitized message. *)
Lemma caught_run (A : Type) (call : M World A) (good : A -> jsstring)
      (prefix : jsstring) st :
  try_catch (r <- call ;; ret {| text := good r |})
            (fun error =>
               ret {| text := prefix ++ sanitizeErrorMessage (error_message error) |})
            st =
  match call st with
  | (Ok r, st') => (Ok {| text := good r |}, st')
  | (Throw e, st') =>
      (Ok {| text := prefix ++ sanitizeErrorMessage (error_message e) |}, st')
  end.
Proof.
  unfold try_catch, bind, ret. destruct (call st) as [[r|e] st']; reflexivity.
Qed.

End WriteToolFacts.

Lemma caught_answers (World A : Type) (call : M World A) (good : A -> jsstring)
      (prefix : jsstring) (st : Net World) :
  (forall r, starts_with (js "Successfully ") (good r) = true) ->
  answers_in_text prefix
    (try_catch (r <- call ;; ret {| text := good r |})
               (fun error =>
                  ret {| text := prefix ++ sanitizeErrorMessage (error_message error) |})
               st).
Proof.
  intros G. rewrite caught_run. destruct (call st) as [[r|e] st'].
  - eexists. split; [reflexivity|]. left. apply G.
  - eexists. split; [reflexivity|]. right.
    exists (sanitizeErrorMessage (error_message e)).
    destruct (sanitize_clean (error_message e)) as (A1 & A2 & A3).
    repeat split; auto using sanitize_length; apply regex_test_clean; assumption.
Qed.

(** X12: with the client built (the access token is read before the [try]),
    the handlers of the four write tools never throw, whatever the provider
    does: each returns a result whose text either starts with
    "Successfully " or is the tool's failure prefix followed by a sanitized
    message of at most 203 code units that holds no match of the bearer,
    hexadecimal identifier or e-mail pattern. *)
Theorem write_tools_answer_in_text
        (World : Type)
        (rest_fetch : RestRequest -> World ->
                      Result (CloudflareApiResponse Ruleset) * World)
        (accessToken : jsstring) (stringify_rule : RulesetRule -> jsstring)
        (zoneId rulesetId ruleId : jsstring) (rule : RuleSpec)
        (description0 expression0 action0 : option jsstring)
        (enabled0 : option bool) (flag : bool) (st : Net World) :
  answers_in_text (js "Failed to create rule: ")
    (create_custom_rule_handler rest_fetch accessToken stringify_rule zoneId rule st) /\
  answers_in_text (js "Failed to update rule: ")
    (update_custom_rule_handler rest_fetch accessToken stringify_rule zoneId rulesetId
       ruleId description0 expression0 action0 enabled0 st) /\
  answers_in_text (js "Failed to delete rule: ")
    (delete_custom_rule_handler rest_fetch accessToken zoneId rulesetId ruleId st) /\
  answers_in_text (js "Failed to toggle rule: ")
    (toggle_rule_handler rest_fetch accessToken zoneId rulesetId ruleId flag st).
Proof.
  split; [|split; [|split]].
  - unfold create_custom_rule_handler.
    apply (caught_answers World (option RulesetRule)
             (createCustomRule rest_fetch accessToken zoneId rule)
             (fun result0 =>
                js "Successfully created custom rule." ++ newline ++ newline ++
                match result0 with
                | Some r => stringify_rule r
                | None => js "undefined"
                end)).
    intros r. reflexivity.
  - unfold update_custom_rule_handler. cbv zeta.
    apply (caught_answers World RulesetRule
             (updateCustomRule rest_fetch accessToken zoneId rulesetId ruleId _)
             (fun result0 =>
                js "Successfully updated rule." ++ newline ++ newline ++
                stringify_rule result0)).
    intros r. reflexivity.
  - unfold delete_custom_rule_handler.
    apply (caught_answers World unit
             (deleteCustomRule rest_fetch accessToken zoneId rulesetId ruleId)
             (fun _ => js "Successfully deleted rule " ++ ruleId)).
    intros r. reflexivity.
  - unfold toggle_rule_handler.
    apply (caught_answers World RulesetRule
             (updateCustomRule rest_fetch accessToken zoneId rulesetId ruleId _)
             (fun _ => js "Successfully " ++
                       (if flag then js "enabled" else js "disabled") ++
                       js " rule " ++ ruleId)).
    intros r. reflexivity.
Qed.

(** X13: the handler of [delete_custom_rule]. When the three identifiers can
    be encoded (as all that pass the schemas can) it sends exactly one
    request, a DELETE without a body for the rule's path, and answers
    "Successfully deleted rule" with the rule id exactly when the reply is
    an envelope with [success]; a refused envelope and a transport exception
    both become a "Failed to delete rule: " text. When one of them cannot be
    encoded nothing is sent and the answer is "Failed to delete rule: URI
    malformed". *)
Theorem delete_custom_rule_sends_one_delete
        (World : Type)
        (rest_fetch : RestRequest -> World ->
                      Result (CloudflareApiResponse Ruleset) * World)
        (accessToken zoneId rulesetId ruleId : jsstring) (st : Net World) :
  let call := rest_call accessToken (EpRule zoneId rulesetId ruleId) DELETE NoBody in
  let reply := rest_fetch call (world st) in
  let out := delete_custom_rule_handler rest_fetch accessToken zoneId rulesetId
               ruleId st in
  (zoneIdSchema zoneId && rulesetIdSchema rulesetId && ruleIdSchema ruleId = true ->
   encodable zoneId && encodable rulesetId && encodable ruleId = true) /\
  (encodable zoneId && encodable rulesetId && encodable ruleId = true ->
   snd out = {| world := snd reply; calls := calls st ++ [RestCall call] |} /\
   (fst out = Ok {| text := js "Successfully deleted rule " ++ ruleId |} <->
    exists data, fst reply = Ok data /\ success data = true) /\
   (forall data,
       fst reply = Ok data -> success data = false ->
       fst out =
       Ok {| text := js "Failed to delete rule: " ++
                     sanitizeErrorMessage (error_message (rest_failure (errors data))) |}) /\
   (forall e,
       fst reply = Throw e ->
       fst out =
       Ok {| text := js "Failed to delete rule: " ++
                     sanitizeErrorMessage (error_message e) |})) /\
  (encodable zoneId && encodable rulesetId && encodable ruleId = false ->
   out = (Ok {| text := js "Failed to delete rule: URI malformed" |}, st)).
Proof.
  intros call reply out. split; [|split].
  - apply buildable_identifiers.
  - intros H. unfold out, delete_custom_rule_handler.
    rewrite (caught_run World unit
               (deleteCustomRule rest_fetch accessToken zoneId rulesetId ruleId)
               (fun _ => js "Successfully deleted rule " ++ ruleId)).
    rewrite deleteCustomRule_run. cbn [buildable]. rewrite H, request_run.
    fold call. fold reply.
    destruct reply as [[data|e] w]; [destruct (success data) eqn:S|]; cbn [fst snd].
    + split; [reflexivity|]. split; [|split].
      * split; eauto.
      * intros data' [= <-]. congruence.
      * intros e [=].
    + split; [reflexivity|]. split; [|split].
      * split; [discriminate|]. intros (data' & [= <-] & S'). congruence.
      * intros data' [= <-] _. reflexivity.
      * intros e [=].
    + split; [reflexivity|]. split; [|split].
      * split; [discriminate|]. intros (data' & [=] & _).
      * intros data' [=].
      * intros e' [= <-]. reflexivity.
  - intros H. unfold out, delete_custom_rule_handler.
    rewrite (caught_run World unit
               (deleteCustomRule rest_fetch accessToken zoneId rulesetId ruleId)
               (fun _ => js "Successfully deleted rule " ++ ruleId)).
    rewrite deleteCustomRule_run. cbn [buildable]. rewrite H. reflexivity.
Qed.

(** X14: the write tools sanitize a message that [request] has sanitized
    already. For a refused envelope whose redacted messages have at most 178
    code units the second pass changes nothing: for identifiers that pass
    the schemas, the text shown is the tool's prefix, then "Cloudflare API
    error: ", then the redacted messages. *)
Theorem second_pass_keeps_short_failures (errs : list CloudflareApiError) :
  length (redact (join (js ", ") (map message errs))) <= 178 ->
  let shown := js "Cloudflare API error: " ++
               redact (join (js ", ") (map message errs)) in
  error_message (rest_failure errs) = shown /\
  sanitizeErrorMessage shown = shown /\
  (forall (World : Type)
          (rest_fetch : RestRequest -> World ->
                        Result (CloudflareApiResponse Ruleset) * World)
          (accessToken zoneId rulesetId ruleId : jsstring) (flag : bool)
          (st : Net World) (data : CloudflareApiResponse Ruleset) (w : World),
      zoneIdSchema zoneId && rulesetIdSchema rulesetId && ruleIdSchema ruleId = true ->
      rest_fetch (rest_call accessToken (EpRule zoneId rulesetId ruleId) PATCH
                    (BodyUpdates (only_enabled flag))) (world st) = (Ok data, w) ->
      success data = false -> errors data = errs ->
      fst (toggle_rule_handler rest_fetch accessToken zoneId rulesetId ruleId flag st) =
      Ok {| text := js "Failed to toggle rule: " ++ shown |}) /\
  (forall (World : Type)
          (rest_fetch : RestRequest -> World ->
                        Result (CloudflareApiResponse Ruleset) * World)
          (accessToken zoneId rulesetId ruleId : jsstring)
          (st : Net World) (data : CloudflareApiResponse Ruleset) (w : World),
      zoneIdSchema zoneId && rulesetIdSchema rulesetId && ruleIdSchema ruleId = true ->
      rest_fetch (rest_call accessToken (EpRule zoneId rulesetId ruleId) DELETE NoBody)
                 (world st) = (Ok data, w) ->
      success data = false -> errors data = errs ->
      fst (delete_custom_rule_handler rest_fetch accessToken zoneId rulesetId ruleId st) =
      Ok {| text := js "Failed to delete rule: " ++ shown |}).
Proof.
  intros L shown.
  assert (S1 : sanitizeErrorMessage (join (js ", ") (map message errs)) =
               redact (join (js ", ") (map message errs))).
  { unfold sanitizeErrorMessage. cbv zeta.
    replace (200 <? length (redact (join (js ", ") (map message errs)))) with false;
      auto.
    symmetry. apply Nat.ltb_ge. lia. }
  assert (E : error_message (rest_failure errs) = shown).
  { unfold rest_failure, shown. cbn [error_message]. rewrite S1. reflexivity. }
  assert (P : sanitizeErrorMessage (error_message (rest_failure errs)) = shown).
  { unfold rest_failure. cbn [error_message].
    apply (second_pass_identity _ L). }
  split; [exact E|]. split; [rewrite <- E at 1; exact P|]. split.
  - intros World rest_fetch accessToken zoneId rulesetId ruleId flag st data w V F S Er.
    apply buildable_identifiers in V.
    unfold toggle_rule_handler.
    rewrite (caught_run World RulesetRule
               (updateCustomRule rest_fetch accessToken zoneId rulesetId ruleId _)
               (fun _ => js "Successfully " ++
                         (if flag then js "enabled" else js "disabled") ++
                         js " rule " ++ ruleId)).
    rewrite updateCustomRule_run, V, request_run.
    change {| upd_description := None; upd_expression := None; upd_action := None;
              upd_enabled := Some flag |} with (only_enabled flag).
    rewrite F, S, Er. cbn [fst]. rewrite P. reflexivity.
  - intros World rest_fetch accessToken zoneId rulesetId ruleId st data w V F S Er.
    apply buildable_identifiers in V.
    unfold delete_custom_rule_handler.
    rewrite (caught_run World unit
               (deleteCustomRule rest_fetch accessToken zoneId rulesetId ruleId)
               (fun _ => js "Successfully deleted rule " ++ ruleId)).
    rewrite deleteCustomRule_run, V.
    rewrite request_run, F, S, Er. cbn [fst].
    rewrite P. reflexivity.
Qed.

Lemma second_pass_keeps_short_failures_witness :
  fst (delete_custom_rule_handler (always_refuses says_not_found) token0 zone0
         ruleset_id_0 rule_id_1 fresh_net) =
  Ok {| text := js "Failed to delete rule: Cloudflare API error: ruleset not found" |}.
Proof.
  assert (L : length (redact (join (js ", ") (map message says_not_found))) <= 178)
    by (apply Nat.leb_le; vm_compute; reflexivity).
  rewrite (proj2 (proj2 (proj2 (second_pass_keeps_short_failures says_not_found L)))
             unit (always_refuses says_not_found) token0 zone0 ruleset_id_0 rule_id_1
             fresh_net (refused says_not_found) tt eq_refl eq_refl eq_refl eq_refl).
  vm_compute. reflexivity.
Defined.

(** ** The analysis of security events *)

Lemma js_eqb_neq a b : js_eqb a b = false <-> a <> b.
Proof.
  split.
  - intros H E. apply js_eqb_eq in E. congruence.
  - intros H. destruct (js_eqb a b) eqn:E; auto. apply js_eqb_eq in E. congruence.
Qed.

Lemma js_eqb_sym a b : js_eqb a b = js_eqb b a.
Proof.
  destruct (js_eqb a b) eqn:E.
  - apply js_eqb_eq in E. subst. symmetry. apply js_eqb_refl.
  - symmetry. apply js_eqb_neq. apply js_eqb_neq in E. congruence.
Qed.

Lemma existsb_js_In x ks : existsb (js_eqb x) ks = true <-> In x ks.
Proof.
  rewrite existsb_exists. split.
  - intros (k & Hk & E). apply js_eqb_eq in E. congruence.
  - intros H. exists x. split; auto using js_eqb_refl.
Qed.

(** *** Maps *)

Lemma Map_get_tabulate (g : jsstring -> nat) : forall ks x,
  Map_get (map (fun k => (k, g k)) ks) x =
  if existsb (js_eqb x) ks then Some (g x) else None.
Proof.
  induction ks as [|k ks IH]; intros x; simpl; auto.
  rewrite (js_eqb_sym x k). destruct (js_eqb k x) eqn:E; simpl; auto.
  apply js_eqb_eq in E. subst. reflexivity.
Qed.

Lemma Map_set_absent (g : jsstring -> nat) : forall ks x v,
  ~ In x ks ->
  Map_set (map (fun k => (k, g k)) ks) x v = map (fun k => (k, g k)) ks ++ [(x, v)].
Proof.
  induction ks as [|k ks IH]; intros x v H; simpl; auto.
  destruct (js_eqb k x) eqn:E.
  - apply js_eqb_eq in E. subst. exfalso. apply H. simpl. auto.
  - rewrite IH; auto. intros Hin. apply H. simpl. auto.
Qed.

Lemma Map_set_present (g : jsstring -> nat) : forall ks x v,
  In x ks -> NoDup ks ->
  Map_set (map (fun k => (k, g k)) ks) x v =
  map (fun k => (k, if js_eqb k x then v else g k)) ks.
Proof.
  induction ks as [|k ks IH]; intros x v H N; simpl; [contradiction|].
  inversion N as [|? ? Hk N']; subst.
  destruct (js_eqb k x) eqn:E.
  - apply js_eqb_eq in E. subst. f_equal.
    apply map_ext_in. intros a Ha.
    replace (js_eqb a x) with false; auto.
    symmetry. apply js_eqb_neq. intros ->. contradiction.
  - f_equal. apply IH; auto. destruct H as [->|H]; auto.
    rewrite js_eqb_refl in E. discriminate.
Qed.

(** *** Counting *)

Section Counting.

Variable key : SecurityEvent -> jsstring.

Lemma count_key_app k a b :
  count_key key k (a ++ b) = count_key key k a + count_key key k b.
Proof. unfold count_key. rewrite filter_app, length_app. reflexivity. Qed.

Lemma count_key_one k e :
  count_key key k [e] = if js_eqb (key e) k then 1 else 0.
Proof. unfold count_key. cbn [filter]. destruct (js_eqb (key e) k); reflexivity. Qed.

Lemma count_key_pos k events :
  1 <= count_key key k events <-> exists e, In e events /\ key e = k.
Proof.
  unfold count_key. split.
  - intros H. destruct (filter (fun e => js_eqb (key e) k) events) as [|e l] eqn:E;
      [simpl in H; lia|].
    assert (X : In e (filter (fun e => js_eqb (key e) k) events))
      by (rewrite E; simpl; auto).
    apply filter_In in X as [X1 X2]. apply js_eqb_eq in X2. eauto.
  - intros (e & Hin & Hk).
    assert (X : In e (filter (fun e => js_eqb (key e) k) events)).
    { apply filter_In. split; auto. apply js_eqb_eq. auto. }
    destruct (filter (fun e => js_eqb (key e) k) events); [contradiction|simpl; lia].
Qed.

Lemma firsts_In k : forall events,
  In k (firsts key events) <-> exists e, In e events /\ key e = k.
Proof.
  induction events as [|a events IH]; simpl.
  - split; [contradiction|]. intros (e & [] & _).
  - rewrite filter_In, IH. split.
    + intros [<-|[(e & Hin & <-) _]]; eauto.
    + intros (e & [<-|Hin] & <-); auto.
      destruct (js_eqb (key e) (key a)) eqn:E.
      * apply js_eqb_eq in E. auto.
      * right. split; eauto.
Qed.

Lemma firsts_NoDup : forall events, NoDup (firsts key events).
Proof.
  induction events as [|a events IH]; simpl; constructor.
  - rewrite filter_In. intros [_ H]. rewrite js_eqb_refl in H. discriminate.
  - apply NoDup_filter. auto.
Qed.

Lemma filter_twice (A : Type) (f g : A -> bool) : forall l,
  filter f (filter g l) = filter (fun x => g x && f x) l.
Proof.
  induction l as [|x l IH]; simpl; auto.
  destruct (g x); simpl; [destruct (f x)|]; rewrite IH; reflexivity.
Qed.

Lemma firsts_app : forall a b,
  firsts key (a ++ b) =
  firsts key a ++
  filter (fun k => negb (existsb (js_eqb k) (firsts key a))) (firsts key b).
Proof.
  induction a as [|x a IH]; intros b.
  - cbn [app firsts existsb negb]. rewrite filter_true. reflexivity.
  - cbn [app firsts]. f_equal. rewrite IH, filter_app. f_equal.
    rewrite filter_twice. apply filter_ext_in. intros k Hk. cbn [existsb].
    destruct (js_eqb k (key x)) eqn:E; cbn [negb orb andb].
    + apply andb_false_r.
    + rewrite andb_true_r. f_equal.
      apply eq_true_iff_eq. rewrite !existsb_js_In, filter_In.
      split; [|tauto]. intros H. split; auto. rewrite E. reflexivity.
Qed.

(** The map after the loop: every value met, in the order of the first
    events, with the number of its events. *)
Lemma count_up_tabulate events e :
  count_up (map (fun k => (k, count_key key k events)) (firsts key events)) (key e) =
  map (fun k => (k, count_key key k (events ++ [e]))) (firsts key (events ++ [e])).
Proof.
  unfold count_up. rewrite Map_get_tabulate, firsts_app. cbn [firsts filter].
  destruct (existsb (js_eqb (key e)) (firsts key events)) eqn:X; cbn [negb].
  - rewrite app_nil_r. pose proof X as Hin. apply existsb_js_In in Hin.
    rewrite Map_set_present by auto using firsts_NoDup.
    apply map_ext. intros k. f_equal.
    rewrite count_key_app, count_key_one, (js_eqb_sym (key e) k).
    destruct (js_eqb k (key e)) eqn:E.
    + apply js_eqb_eq in E. subst k.
      destruct (count_key key (key e) events); reflexivity.
    + lia.
  - assert (Hnot : ~ In (key e) (firsts key events)).
    { intros H. apply existsb_js_In in H. congruence. }
    rewrite Map_set_absent by auto.
    rewrite map_app. cbn [map or_zero Nat.add]. f_equal.
    + apply map_ext_in. intros k Hk. f_equal.
      rewrite count_key_app, count_key_one.
      replace (js_eqb (key e) k) with false; [lia|].
      symmetry. apply js_eqb_neq. intros <-. contradiction.
    + f_equal. f_equal. rewrite count_key_app, count_key_one, js_eqb_refl.
      assert (Z : count_key key (key e) events = 0).
      { destruct (count_key key (key e) events) eqn:C; auto. exfalso.
        apply Hnot. apply firsts_In. apply count_key_pos. lia. }
      rewrite Z. reflexivity.
Qed.

Lemma tally_tabulate events :
  fold_left (fun m e => count_up m (key e)) events [] =
  map (fun k => (k, count_key key k events)) (firsts key events).
Proof.
  induction events as [|e events IH] using rev_ind; [reflexivity|].
  rewrite fold_left_app. cbn [fold_left]. rewrite IH. apply count_up_tabulate.
Qed.

End Counting.

(** *** The top entry *)

Lemma sort_insert_head x sorted :
  hd_error (sort_insert by_count_descending x sorted) =
  match hd_error sorted with
  | None => Some x
  | Some y => if snd y <=? snd x then Some x else Some y
  end.
Proof.
  destruct sorted as [|y rest]; cbn [sort_insert hd_error]; auto.
  unfold by_count_descending.
  destruct (snd y <=? snd x) eqn:E.
  - apply Nat.leb_le in E.
    replace (Z.of_nat (snd y) - Z.of_nat (snd x) <=? 0)%Z with true; auto.
    symmetry. apply Z.leb_le. lia.
  - apply Nat.leb_gt in E.
    replace (Z.of_nat (snd y) - Z.of_nat (snd x) <=? 0)%Z with false; auto.
    symmetry. apply Z.leb_gt. lia.
Qed.

Lemma top_entry_best m : top_entry m = best m.
Proof.
  unfold top_entry, js_index. cbn [Z.ltb Z.compare Z.to_nat].
  replace (nth_error (Array_sort by_count_descending m) 0)
    with (hd_error (Array_sort by_count_descending m))
    by (destruct (Array_sort by_count_descending m); reflexivity).
  induction m as [|x m IH]; [reflexivity|].
  cbn [Array_sort fold_right best]. rewrite sort_insert_head.
  fold (Array_sort by_count_descending m). rewrite IH. reflexivity.
Qed.

Lemma best_spec : forall l,
  l <> [] ->
  exists l1 x l2,
    l = l1 ++ x :: l2 /\ best l = Some x /\
    (forall y, In y l1 -> snd y < snd x) /\
    (forall y, In y l2 -> snd y <= snd x).
Proof.
  induction l as [|a l IH]; intros H; [congruence|]. cbn [best].
  destruct l as [|b l].
  - exists [], a, []. repeat split; auto; intros y [].
  - destruct IH as (l1 & x & l2 & E & B & H1 & H2); [discriminate|].
    rewrite B. destruct (snd x <=? snd a) eqn:C.
    + apply Nat.leb_le in C. exists [], a, (b :: l). repeat split; auto.
      * intros y [].
      * intros y Hy. rewrite E in Hy. apply in_app_or in Hy as [Hy|[<-|Hy]].
        -- apply H1 in Hy. lia.
        -- lia.
        -- apply H2 in Hy. lia.
    + apply Nat.leb_gt in C. exists (a :: l1), x, l2. repeat split; auto.
      * rewrite E. reflexivity.
      * intros y [<-|Hy]; auto.
Qed.

Lemma NoDup_split_unique (A : Type) (x : A) : forall a a' b b',
  NoDup (a ++ x :: b) -> a ++ x :: b = a' ++ x :: b' -> a = a'.
Proof.
  induction a as [|y a IH]; intros a' b b' N E.
  - destruct a' as [|y' a']; auto. simpl in E. injection E as <- E.
    inversion N as [|? ? Hx _]; subst. exfalso. apply Hx.
    apply in_or_app. right. simpl. auto.
  - destruct a' as [|y' a']; simpl in E.
    + injection E as -> E. inversion N as [|? ? Hx _]; subst. exfalso. apply Hx.
      apply in_or_app. right. simpl. auto.
    + injection E as <- E. f_equal. inversion N; subst. eapply IH; eauto.
Qed.

(** The first event with a given value of the field. *)
Lemma first_event (key : SecurityEvent -> jsstring) k : forall events,
  (exists e, In e events /\ key e = k) ->
  exists before e after,
    events = before ++ e :: after /\ key e = k /\
    forall e', In e' before -> key e' <> k.
Proof.
  induction events as [|a events IH]; intros (e & Hin & Hk); [contradiction|].
  destruct (js_eqb (key a) k) eqn:E.
  - apply js_eqb_eq in E. exists [], a, events.
    split; [reflexivity|]. split; [assumption|]. intros e' [].
  - apply js_eqb_neq in E. destruct Hin as [->|Hin]; [congruence|].
    destruct IH as (before & e0 & after & -> & K & B); eauto.
    exists (a :: before), e0, after.
    split; [reflexivity|]. split; [assumption|].
    intros e' [<-|H]; auto.
Qed.

Lemma top_of_tally (key : SecurityEvent -> jsstring) (events : list SecurityEvent) :
  events <> [] ->
  exists top,
    top_entry (fold_left (fun m e => count_up m (key e)) events []) = Some top /\
    most_frequent key events top.
Proof.
  intros Hne. rewrite top_entry_best, tally_tabulate.
  destruct (best_spec (map (fun k => (k, count_key key k events)) (firsts key events)))
    as (l1 & x & l2 & E & B & H1 & H2).
  { destruct events as [|e events]; [congruence|]. discriminate. }
  exists x. split; [exact B|].
  apply map_eq_app in E as (f1 & f2' & F & L1 & E).
  apply map_eq_cons in E as (k0 & f2 & -> & X & L2). subst x l1 l2.
  cbn [fst snd] in *.
  assert (K0 : In k0 (firsts key events)).
  { rewrite F. apply in_or_app. right. simpl. auto. }
  assert (C : forall k, In k (firsts key events) ->
                        count_key key k events <= count_key key k0 events).
  { intros k Hk. rewrite F in Hk. apply in_app_or in Hk as [Hk|[<-|Hk]].
    - apply Nat.lt_le_incl. apply (H1 (k, count_key key k events)).
      apply in_map_iff. eauto.
    - lia.
    - apply (H2 (k, count_key key k events)). apply in_map_iff. eauto. }
  split; [reflexivity|]. split; [|split].
  - apply count_key_pos. apply firsts_In. auto.
  - intros e He. apply C. apply firsts_In. eauto.
  - apply firsts_In in K0.
    destruct (first_event key k0 events K0) as (before & e & after & Ev & K & Bf).
    exists before, e, after. repeat split; auto.
    intros e' He'.
    assert (F' : firsts key events =
                 firsts key before ++ k0 ::
                 filter (fun k => negb (existsb (js_eqb k) (firsts key before)))
                        (filter (fun k => negb (js_eqb k k0)) (firsts key after))).
    { rewrite Ev, firsts_app. f_equal. cbn [firsts filter]. rewrite K.
      replace (existsb (js_eqb k0) (firsts key before)) with false; [reflexivity|].
      symmetry. apply not_true_is_false. intros H. apply existsb_js_In in H.
      apply firsts_In in H as (e0 & H0 & H0'). apply (Bf e0); auto. }
    assert (Eq : f1 = firsts key before).
    { symmetry. eapply NoDup_split_unique.
      - rewrite <- F'. apply firsts_NoDup.
      - rewrite <- F', F. reflexivity. }
    apply (H1 (key e', count_key key (key e') events)).
    apply in_map_iff. exists (key e'). split; auto.
    rewrite Eq. apply firsts_In. eauto.
Qed.

(** Each of the four maps is filled from its own field. *)
Lemma tally_projections : forall events t,
  countryMap (fold_left tally_event events t) =
    fold_left (fun m e => count_up m (ev_clientCountryName e)) events (countryMap t) /\
  ipMap (fold_left tally_event events t) =
    fold_left (fun m e => count_up m (ev_clientIP e)) events (ipMap t) /\
  pathMap (fold_left tally_event events t) =
    fold_left (fun m e => count_up m (ev_clientRequestPath e)) events (pathMap t) /\
  sourceMap (fold_left tally_event events t) =
    fold_left (fun m e => count_up m (ev_source e)) events (sourceMap t).
Proof.
  induction events as [|e events IH]; intros t; cbn [fold_left].
  - repeat split.
  - apply (IH (tally_event t e)).
Qed.

(** X15: in [suggest_rule_from_events], for a non-empty list of events, each
    of [topCountry], [topIP], [topPath] and [topSource] is defined, so that
    reading its [0] and [1] cannot fail, and it is the most frequent value of
    its field with the number of events that carry it; of several values
    with that number it is the one that occurs first. For no events each is
    [undefined]. *)
Theorem top_entries_are_most_frequent (events : list SecurityEvent) :
  events <> [] ->
  (exists top, topCountry events = Some top /\
               most_frequent ev_clientCountryName events top) /\
  (exists top, topIP events = Some top /\
               most_frequent ev_clientIP events top) /\
  (exists top, topPath events = Some top /\
               most_frequent ev_clientRequestPath events top) /\
  (exists top, topSource events = Some top /\
               most_frequent ev_source events top) /\
  topCountry [] = None /\ topIP [] = None /\ topPath [] = None /\ topSource [] = None.
Proof.
  intros Hne. unfold topCountry, topIP, topPath, topSource, tally_events.
  destruct (tally_projections events
              {| countryMap := []; ipMap := []; pathMap := []; sourceMap := [] |})
    as (A & B & C & D).
  rewrite A, B, C, D. cbn [countryMap ipMap pathMap sourceMap].
  repeat split; try apply top_of_tally; auto.
Qed.

Lemma top_entries_are_most_frequent_witness :
  topCountry sample_events = Some (js "US", 2) /\
  most_frequent ev_clientCountryName sample_events (js "US", 2).
Proof.
  destruct (top_entries_are_most_frequent sample_events ltac:(discriminate))
    as ((top & E & M) & _).
  assert (T : top = (js "US", 2)).
  { assert (C : topCountry sample_events = Some (js "US", 2))
      by (vm_compute; reflexivity).
    rewrite C in E. injection E as <-. reflexivity. }
  rewrite T in *. split; [exact E|exact M].
Defined.
